(** * thriftgowrap: retrying, its client, and the generator's names and types

    A shallow embedding of [utils/retry] (retry.go and backoff.go), of the
    client of [utils/rpc] that is built on it, and of the part of [gen]
    (parse.go) that turns the names and types of a Thrift file into Go; and
    the properties of the retry loop, of the backoff strategies, and of
    those names and types.

    Conventions.
    - Go's [uint64] and [int64] are [Z] with the wrap-around written out
      ([wrap_uint64], [wrap_int64]); [time.Duration] is an [int64] count of
      nanoseconds.
    - Go's [error] is [option string]: [None] is [nil], [Some msg] a non-nil
      error with that message.
    - Code with effects (the operation handed to [Do], [time.Sleep],
      [math/rand], the mutable backoff instance, the parser of [gen]) is
      written in state-passing style.
    - [float64] is IEEE 754 binary64 as specified by [SpecFloat].
    - A Go string is a [string], byte by byte; a panic is [None]. *)

From Stdlib Require Import ZArith Zpower Ascii String List Bool Lia SpecFloat.
From Stdlib Require Import Permutation Sorted.
Import ListNotations.
Local Open Scope Z_scope.

(** ** Machine integers *)

Definition MaxInt64 : Z := 2 ^ 63 - 1.
Definition MinInt64 : Z := - 2 ^ 63.

Definition wrap_uint64 (z : Z) : Z := z mod 2 ^ 64.
Definition wrap_int64 (z : Z) : Z := (z + 2 ^ 63) mod 2 ^ 64 - 2 ^ 63.

Definition is_uint64 (z : Z) : Prop := 0 <= z < 2 ^ 64.
Definition is_int64 (z : Z) : Prop := MinInt64 <= z <= MaxInt64.

(** [time.Duration] and the two constants of package [time] the code uses. *)
Definition Duration : Type := Z.
Definition Millisecond : Duration := 1000000.
Definition Second : Duration := 1000000000.

(** ** Errors *)

Definition error : Type := option string.

(** [errors.New] *)
Definition errors_New (msg : string) : error := Some msg.

(** ** retry.go *)

Definition defaultMaxAttempts : Z := 1.

(** [AnyErr] returns true if [err != nil]. *)
Definition AnyErr (err : error) : bool :=
  match err with
  | Some _ => true
  | None => false
  end.

Section Retry.
(** The world the operation and the backoff act on. *)
Variable W : Type.

(** The interface [Backoff]: one method, [Backoff(iteration uint64)]. *)
Record Backoff : Type := mkBackoff {
  backoff : Z -> W -> W
}.

(** The interface [BackoffFactory]: one method, [New() Backoff]. *)
Record BackoffFactory : Type := mkBackoffFactory {
  New : W -> Backoff * W
}.

(** [isRetriable] is a predicate: a function of the error alone. *)
Record Retrier : Type := mkRetrier {
  maxAttempts : Z;
  isRetriable : error -> bool;
  backoffFactory : BackoffFactory
}.

(** An [Option] updates the retrier under construction. *)
Definition Option : Type := Retrier -> Retrier.

Definition MaxAttemptsOption (attempts : Z) : Option :=
  fun retrier =>
    {| maxAttempts := attempts;
       isRetriable := isRetriable retrier;
       backoffFactory := backoffFactory retrier |}.

Definition RetriableOption (isRetriable' : error -> bool) : Option :=
  fun retrier =>
    {| maxAttempts := maxAttempts retrier;
       isRetriable := isRetriable';
       backoffFactory := backoffFactory retrier |}.

Definition BackoffOption (backoff' : BackoffFactory) : Option :=
  fun retrier =>
    {| maxAttempts := maxAttempts retrier;
       isRetriable := isRetriable retrier;
       backoffFactory := backoff' |}.

(** [NewRetrier], with the package variable [DefaultBackoff] as an
    argument: it is defined further down, once the world of the concrete
    backoffs is. *)
Definition NewRetrier_with (DefaultBackoff : BackoffFactory)
    (options : list Option) : Retrier :=
  fold_left (fun r option => option r) options
    {| maxAttempts := defaultMaxAttempts;
       isRetriable := AnyErr;
       backoffFactory := DefaultBackoff |}.

(** The loop of [Do], from the test [i < r.maxAttempts] on. [fuel] bounds
    the number of times the loop head is reached; [None] means the fuel ran
    out before the loop was left. *)
Fixpoint Do_loop (r : Retrier) (b : Backoff) (fn : W -> error * W)
    (fuel : nat) (i : Z) (err : error) (w : W) : option (error * W) :=
  match fuel with
  | O => None
  | S fuel' =>
      if i <? maxAttempts r then
        let '(err, w) := fn w in
        if negb (isRetriable r err) then Some (err, w)
        else
          let w :=
            if wrap_uint64 (i + 1) <? maxAttempts r then backoff b i w
            else w in
          Do_loop r b fn fuel' (wrap_uint64 (i + 1)) err w
      else Some (err, w)
  end.

(** [Do]: the loop head is reached [maxAttempts + 1] times at most. *)
Definition Do (r : Retrier) (fn : W -> error * W) (w : W)
    : option (error * W) :=
  let '(b, w) := New (backoffFactory r) w in
  Do_loop r b fn (S (Z.to_nat (maxAttempts r))) 0 None w.
End Retry.

Arguments backoff {W}.
Arguments mkBackoff {W}.
Arguments New {W}.
Arguments mkBackoffFactory {W}.
Arguments maxAttempts {W}.
Arguments isRetriable {W}.
Arguments backoffFactory {W}.
Arguments mkRetrier {W}.
Arguments MaxAttemptsOption {W}.
Arguments RetriableOption {W}.
Arguments BackoffOption {W}.
Arguments NewRetrier_with {W}.
Arguments Do_loop {W}.
Arguments Do {W}.

(** ** Observing a run

    To count invocations, every call through one of the three interfaces of
    a run is logged: the world is paired with the list of the calls made so
    far, oldest first. *)

Inductive Event : Type :=
| EvNew                      (* backoffFactory.New() *)
| EvCall (result : error)    (* fn(), with what it returned *)
| EvBackoff (iteration : Z). (* backoff.Backoff(iteration) *)

Definition Traced (W : Type) : Type := (W * list Event)%type.

Definition traced_fn {W} (fn : W -> error * W) : Traced W -> error * Traced W :=
  fun '(w, t) => let '(err, w') := fn w in (err, (w', t ++ [EvCall err])).

Definition traced_backoff {W} (b : Backoff W) : Backoff (Traced W) :=
  {| backoff := fun i '(w, t) => (backoff b i w, t ++ [EvBackoff i]) |}.

Definition traced_factory {W} (f : BackoffFactory W) : BackoffFactory (Traced W) :=
  {| New := fun '(w, t) =>
       let '(b, w') := New f w in (traced_backoff b, (w', t ++ [EvNew])) |}.

Definition traced {W} (r : Retrier W) : Retrier (Traced W) :=
  {| maxAttempts := maxAttempts r;
     isRetriable := isRetriable r;
     backoffFactory := traced_factory (backoffFactory r) |}.

(** What the operation returned, invocation by invocation. *)
Fixpoint call_results (t : list Event) : list error :=
  match t with
  | [] => []
  | EvCall e :: t' => e :: call_results t'
  | _ :: t' => call_results t'
  end.

(** The iteration numbers the backoff was called with, in order. *)
Fixpoint pauses (t : list Event) : list Z :=
  match t with
  | [] => []
  | EvBackoff i :: t' => i :: pauses t'
  | _ :: t' => pauses t'
  end.

(** A result of the traced run without its trace. *)
Definition erase {W} (res : option (error * Traced W)) : option (error * W) :=
  option_map (fun '(err, (w, _)) => (err, w)) res.

(** [Do] returns the result of the first invocation, and that invocation is
    the only one. *)
Definition returns_first_result {W} (r : Retrier W) (fn : W -> error * W)
    (w : W) : Prop :=
  let w1 := snd (New (backoffFactory r) w) in
  Do (traced r) (traced_fn fn) (w, []) =
    Some (fst (fn w1), (snd (fn w1), [EvNew; EvCall (fst (fn w1))])).

(** ** float64

    IEEE 754 binary64 ([prec = 53], [emax = 1024]) with the operations of
    [SpecFloat], which round to nearest, ties to even. Every operation
    rounds its own result: no multiplication is fused with an addition, as
    on amd64. *)

Module Float64.
Definition prec : Z := 53.
Definition emax : Z := 1024.

Definition float64 : Type := spec_float.

Definition valid (x : float64) : bool := valid_binary prec emax x.

Definition add : float64 -> float64 -> float64 := SFadd prec emax.
Definition sub : float64 -> float64 -> float64 := SFsub prec emax.
Definition mul : float64 -> float64 -> float64 := SFmul prec emax.
Definition ltb : float64 -> float64 -> bool := SFltb.
Definition leb : float64 -> float64 -> bool := SFleb.

(** The number [m * 2^e], rounded. *)
Definition of_scaled (m e : Z) : float64 := binary_normalize prec emax m e false.

(** The conversion [float64(n)] of an integer: [n], rounded. *)
Definition of_int64 (n : Z) : float64 := of_scaled n 0.

(** The literals [0.5] and [1.0]. *)
Definition half : float64 := of_scaled 1 (-1).
Definition one : float64 := of_scaled 1 0.

(** The integer part of [m * 2^e], for [m] positive. *)
Definition trunc_scaled (m : positive) (e : Z) : Z :=
  if 0 <=? e then Z.shiftl (Zpos m) e else Z.shiftr (Zpos m) (- e).

(** The conversion [int64(x)]: the fraction is discarded. Go leaves the
    result to the implementation when the value does not fit; amd64 gives
    the most negative integer then, also for an infinity or a NaN. *)
Definition to_int64 (x : float64) : Z :=
  match x with
  | S754_zero _ => 0
  | S754_finite s m e =>
      let v := if s then - trunc_scaled m e else trunc_scaled m e in
      if (MinInt64 <=? v) && (v <=? MaxInt64) then v else MinInt64
  | _ => MinInt64
  end.
End Float64.

Import Float64.

(** ** Rounding

    What the proofs about the rounding of [SpecFloat] are stated with. *)

(** Bits were lost by the shifts recorded in [mrs]. *)
Definition inexact (mrs : shr_record) : bool := shr_r mrs || shr_s mrs.

(** What [n >= 0] shifts do to a record: the mantissa loses its [n] low
    bits, and the record is exact afterwards when it was before and the bits
    lost were zeros. *)
Definition shifts (n : Z) (f : shr_record -> shr_record) : Prop :=
  forall mrs, 0 <= shr_m mrs ->
    shr_m (f mrs) = shr_m mrs / 2 ^ n /\
    (inexact (f mrs) = false <->
     inexact mrs = false /\ shr_m mrs mod 2 ^ n = 0).

(** [between k A B x]: the [float64] [x] is not negative, and its value lies
    in [[A / 2^k, B / 2^k]]. *)
Definition between (k A B : Z) (x : float64) : Prop :=
  match x with
  | S754_zero _ => A <= 0 <= B
  | S754_finite false m e =>
      e <= - k /\ A * 2 ^ (- e - k) <= Zpos m <= B * 2 ^ (- e - k)
  | _ => False
  end.

(** ** math/rand

    The source of [rand.Float64]: the draws to come, and how many were
    taken. Each draw is a [float64] in [[0.0, 1.0)]. *)

Record Rand : Type := mkRand {
  draws : nat -> float64;
  taken : nat
}.

Definition rand_Float64 (s : Rand) : float64 * Rand :=
  (draws s (taken s), {| draws := draws s; taken := S (taken s) |}).

(** A source that yields the draws of [l], then [0.0] for ever. *)
Definition rand_of_list (l : list float64) : Rand :=
  {| draws := fun n => nth n l (S754_zero false); taken := O |}.

(** A draw the real source can produce: a [float64] in [[0.0, 1.0)]. *)
Definition unit_draw (x : float64) : bool :=
  valid x && leb (S754_zero false) x && ltb x one.

(** The next [n] draws of the source are such draws. *)
Definition unit_draws (rnd : Rand) (n : nat) : Prop :=
  forall j, (j < n)%nat -> unit_draw (draws rnd (taken rnd + j)%nat) = true.

(** ** backoff.go *)

Definition numUint64Bits : Z := 64.
Definition zeroDuration : Duration := 0.

Definition minInt64 (a b : Z) : Z := if a <? b then a else b.
Definition maxInt64 (a b : Z) : Z := if a >? b then a else b.

(** [FixedBackoff] *)
Module FixedBackoff.
Record t : Type := mk { wait : Duration }.
End FixedBackoff.

Definition NewFixedBackoff (wait : Duration) : FixedBackoff.t :=
  {| FixedBackoff.wait := wait |}.

(** [DecorrelatedExponentialBackoff], the configuration and factory. *)
Module DecorrelatedExponentialBackoff.
Record t : Type := mk {
  minWait : Duration;
  maxWait : Duration
}.
End DecorrelatedExponentialBackoff.

Definition NewDecorrelatedExponentialBackoff (minWait maxWait : Duration)
    : DecorrelatedExponentialBackoff.t :=
  {| DecorrelatedExponentialBackoff.minWait := minWait;
     DecorrelatedExponentialBackoff.maxWait := maxWait |}.

(** [decorrelatedExponentialBackoff], the instance of one run. *)
Module decorrelatedExponentialBackoff.
Record t : Type := mk {
  minWait : Duration;
  maxWait : Duration;
  lastWait : Duration
}.

(** The struct the factory's [New] allocates; [lastWait] is left at its
    zero value. *)
Definition fresh (b : DecorrelatedExponentialBackoff.t) : t :=
  {| minWait := DecorrelatedExponentialBackoff.minWait b;
     maxWait := DecorrelatedExponentialBackoff.maxWait b;
     lastWait := 0 |}.

(** [getDuration]: the duration, the struct and the random source after
    the call. *)
Definition getDuration (b : t) (rnd : Rand) : Duration * t * Rand :=
  if lastWait b =? zeroDuration then
    (minWait b,
     {| minWait := minWait b; maxWait := maxWait b; lastWait := minWait b |},
     rnd)
  else
    let max :=
      if lastWait b >? Z.quot MaxInt64 3 then MaxInt64
      else wrap_int64 (lastWait b * 3) in
    let minWaitF := of_int64 (minWait b) in
    let '(x, rnd) := rand_Float64 rnd in
    let duration :=
      minInt64 (maxWait b)
        (to_int64 (add (mul x (sub (of_int64 max) minWaitF)) minWaitF)) in
    (duration, b, rnd).

(** [n] calls in a row: the durations, oldest first, and the final struct
    and source. *)
Fixpoint getDurations (n : nat) (b : t) (rnd : Rand)
    : list Duration * t * Rand :=
  match n with
  | O => ([], b, rnd)
  | S n' =>
      let '(d, b, rnd) := getDuration b rnd in
      let '(ds, b, rnd) := getDurations n' b rnd in
      (d :: ds, b, rnd)
  end.
End decorrelatedExponentialBackoff.

(** The interval of the durations [ds] that follow a duration [prev]: each
    lies in [[minWait, min(maxWait, 3 * previous)]]. *)
Fixpoint decorrelated_bounds (minWait maxWait prev : Z) (ds : list Duration) : Prop :=
  match ds with
  | [] => True
  | d :: ds' =>
      minWait <= d <= Z.min maxWait (3 * prev) /\
      decorrelated_bounds minWait maxWait d ds'
  end.

(** [ExponentialBackoff] *)
Module ExponentialBackoff.
Record t : Type := mk {
  minWait : Duration;
  maxWait : Duration;
  jitter : bool
}.

Definition getDuration (b : t) (iteration : Z) (rnd : Rand) : Duration * Rand :=
  if iteration >=? numUint64Bits - 1 then (maxWait b, rnd)
  else
    let multiplier := wrap_int64 (Z.shiftl 1 iteration) in
    let duration :=
      if minWait b >? Z.quot (maxWait b) multiplier then maxWait b
      else wrap_int64 (minWait b * multiplier) in
    let '(duration, rnd) :=
      if jitter b then
        let '(x, rnd) := rand_Float64 rnd in
        (to_int64 (mul (of_int64 duration) (mul half (add x one))), rnd)
      else (duration, rnd) in
    let duration := maxInt64 duration (minWait b) in
    (duration, rnd).
End ExponentialBackoff.

Definition NewExponentialBackoff (minWait maxWait : Duration) : ExponentialBackoff.t :=
  {| ExponentialBackoff.minWait := minWait;
     ExponentialBackoff.maxWait := maxWait;
     ExponentialBackoff.jitter := true |}.

(** ** The world of the concrete backoffs

    What the package's own backoffs touch: the source of [math/rand], the
    sleeps made through [time.Sleep], and the heap of the instances the
    decorrelated factory has allocated. [user] is the rest of the program
    state: what the operation and a [FunctionalBackoff] close over. *)

Record World (U : Type) : Type := mkWorld {
  user : U;
  rand : Rand;
  sleeps : list Duration;
  heap : list decorrelatedExponentialBackoff.t
}.

Arguments mkWorld {U}.
Arguments user {U}.
Arguments rand {U}.
Arguments sleeps {U}.
Arguments heap {U}.

(** [l] with the element at index [p] replaced; [l] itself when there is
    none. *)
Fixpoint store {A} (l : list A) (p : nat) (x : A) : list A :=
  match l, p with
  | [], _ => []
  | _ :: l', O => x :: l'
  | y :: l', S p' => y :: store l' p' x
  end.

(** How a concrete type implements the two interfaces. *)
Class IsBackoff (W T : Type) : Type := asBackoff : T -> Backoff W.
Class IsBackoffFactory (W T : Type) : Type := asFactory : T -> BackoffFactory W.

Section Backoffs.
Variable U : Type.
#[local] Abbreviation W := (World U).

(** [time.Sleep] *)
Definition time_Sleep (d : Duration) (w : W) : W :=
  {| user := user w; rand := rand w;
     sleeps := sleeps w ++ [d]; heap := heap w |}.

(** [FunctionalBackoff] wraps a function; [New] returns itself. *)
Definition FunctionalBackoff : Type := Z -> W -> W.

#[global] Instance FunctionalBackoff_Backoff : IsBackoff W FunctionalBackoff :=
  fun b => {| backoff := fun iteration w => b iteration w |}.

#[global] Instance FunctionalBackoff_Factory : IsBackoffFactory W FunctionalBackoff :=
  fun b => {| New := fun w => (asBackoff b, w) |}.

Definition NoopBackoff : FunctionalBackoff := fun iteration w => w.

(** [FixedBackoff] sleeps for a fixed time; [New] returns itself. *)
#[global] Instance FixedBackoff_Backoff : IsBackoff W FixedBackoff.t :=
  fun b => {| backoff := fun iteration w => time_Sleep (FixedBackoff.wait b) w |}.

#[global] Instance FixedBackoff_Factory : IsBackoffFactory W FixedBackoff.t :=
  fun b => {| New := fun w => (asBackoff b, w) |}.

(** A pointer to a [decorrelatedExponentialBackoff] on the heap. *)
Record decorrelatedRef : Type := mkRef { address : nat }.

(** [Backoff] of the decorrelated instance: [getDuration] on the struct
    behind the pointer, then the sleep. A pointer handed out by [New] always
    has its struct; the world is left alone otherwise. *)
#[global] Instance decorrelated_Backoff : IsBackoff W decorrelatedRef :=
  fun p => {| backoff := fun iteration w =>
    match nth_error (heap w) (address p) with
    | Some b =>
        let '(d, b', rnd) := decorrelatedExponentialBackoff.getDuration b (rand w) in
        time_Sleep d
          {| user := user w; rand := rnd; sleeps := sleeps w;
             heap := store (heap w) (address p) b' |}
    | None => w
    end |}.

(** [New] of the decorrelated factory allocates the instance of a run. *)
#[global] Instance Decorrelated_Factory
    : IsBackoffFactory W DecorrelatedExponentialBackoff.t :=
  fun b => {| New := fun w =>
    (asBackoff (mkRef (length (heap w))),
     {| user := user w; rand := rand w; sleeps := sleeps w;
        heap := heap w ++ [decorrelatedExponentialBackoff.fresh b] |}) |}.

(** [ExponentialBackoff]; [New] returns itself. *)
#[global] Instance Exponential_Backoff : IsBackoff W ExponentialBackoff.t :=
  fun b => {| backoff := fun iteration w =>
    let '(d, rnd) := ExponentialBackoff.getDuration b iteration (rand w) in
    time_Sleep d
      {| user := user w; rand := rnd; sleeps := sleeps w; heap := heap w |} |}.

#[global] Instance Exponential_Factory : IsBackoffFactory W ExponentialBackoff.t :=
  fun b => {| New := fun w => (asBackoff b, w) |}.

(** [DefaultBackoff] starts at 0.5s and maxes out at 60s. *)
Definition DefaultBackoff : DecorrelatedExponentialBackoff.t :=
  NewDecorrelatedExponentialBackoff (Millisecond * 500) (Second * 60).

Definition NewRetrier (options : list (Option W)) : Retrier W :=
  NewRetrier_with (asFactory DefaultBackoff) options.
End Backoffs.

Arguments time_Sleep {U}.
Arguments NoopBackoff {U}.
Arguments NewRetrier {U}.

(** ** The fixtures of retry_test.go *)

(** What the closures of the test close over: [count] of [makeFn] and
    [iterations] of [TestRetrier_Do]. *)
Record TestVars : Type := mkTestVars {
  count : Z;
  iterations : list Z
}.

Abbreviation TestWorld := (World TestVars).

(** [makeFn(i)] fails [i] times, then succeeds. *)
Definition makeFn (i : Z) : TestWorld -> error * TestWorld :=
  fun w =>
    if count (user w) <? i then
      (errors_New "err",
       {| user := {| count := wrap_int64 (count (user w) + 1);
                     iterations := iterations (user w) |};
          rand := rand w; sleeps := sleeps w; heap := heap w |})
    else (None, w).

(** [backoffFunc] of [TestRetrier_Do]. *)
Definition backoffFunc : FunctionalBackoff TestVars :=
  fun i w =>
    {| user := {| count := count (user w);
                  iterations := iterations (user w) ++ [i] |};
       rand := rand w; sleeps := sleeps w; heap := heap w |}.

(** [count] of [makeFn] is the number of failures so far. *)
Definition counted (j : Z) (w : TestWorld) : Prop := count (user w) = j.

(** The world a test starts in. *)
Definition test_world (rnd : Rand) : TestWorld :=
  {| user := {| count := 0; iterations := [] |};
     rand := rnd; sleeps := []; heap := [] |}.

(** ** What a run looks like *)

(** The events of the attempts of a run, the first of them attempt [i],
    whose invocations returned [results]: every invocation but the last is
    followed by the pause of its index. *)
Fixpoint attempts_trace (i : Z) (results : list error) : list Event :=
  match results with
  | [] => []
  | e :: rest =>
      EvCall e ::
      match rest with
      | [] => []
      | _ :: _ => EvBackoff i :: attempts_trace (i + 1) rest
      end
  end.

(** The operation acts on the program's own state only: it does not sleep,
    does not draw from [math/rand], and cannot reach the backoff instance,
    which is local to [Do]. *)
Definition keeps_package_state {U} (fn : World U -> error * World U) : Prop :=
  forall w,
    rand (snd (fn w)) = rand w /\
    sleeps (snd (fn w)) = sleeps w /\
    heap (snd (fn w)) = heap w.

(** Every draw of the source is a [float64] in [[0.0, 1.0)]. *)
Definition unit_source (rnd : Rand) : Prop :=
  forall j, unit_draw (draws rnd j) = true.

(** The three options of retry.go as data, to speak about a list of them. *)
Inductive Setting (W : Type) : Type :=
| WithMaxAttempts (attempts : Z)
| WithRetriable (isRetriable : error -> bool)
| WithBackoff (backoff : BackoffFactory W).

Arguments WithMaxAttempts {W}.
Arguments WithRetriable {W}.
Arguments WithBackoff {W}.

Definition option_of {W} (s : Setting W) : Option W :=
  match s with
  | WithMaxAttempts attempts => MaxAttemptsOption attempts
  | WithRetriable isRetriable => RetriableOption isRetriable
  | WithBackoff backoff => BackoffOption backoff
  end.

(** The values a list of settings gives to each field, in order. *)
Definition given_maxAttempts {W} (l : list (Setting W)) : list Z :=
  flat_map (fun s => match s with WithMaxAttempts n => [n] | _ => [] end) l.

Definition given_isRetriable {W} (l : list (Setting W)) : list (error -> bool) :=
  flat_map (fun s => match s with WithRetriable f => [f] | _ => [] end) l.

Definition given_backoff {W} (l : list (Setting W)) : list (BackoffFactory W) :=
  flat_map (fun s => match s with WithBackoff b => [b] | _ => [] end) l.

(** ** utils/rpc: client.go

    [T] is the type behind the interface [TransportFactory]; the client
    stores it and never calls it. *)

Module rpc.
Section Client.
Variable T U : Type.

(** [retry.Retrier], as package [rpc] names it. *)
#[local] Abbreviation retry_Retrier := (Retrier (World U)).

Record Client : Type := mkClient {
  TransportFactory : T;
  Retrier : retry_Retrier
}.

(** A [ClientOption] configures the client under construction. *)
Definition ClientOption : Type := Client -> Client.

Definition RetrierOption (retrier : retry_Retrier) : ClientOption :=
  fun client =>
    {| TransportFactory := TransportFactory client; Retrier := retrier |}.

Definition NewClient (transportFactory : T) (options : list ClientOption) : Client :=
  fold_left (fun client option => option client) options
    {| TransportFactory := transportFactory; Retrier := NewRetrier [] |}.
End Client.

Arguments mkClient {T U}.
Arguments TransportFactory {T U}.
Arguments Retrier {T U}.
Arguments RetrierOption {T U}.
Arguments NewClient {T U}.
End rpc.

(** ** Strings

    A Go string is a sequence of bytes: [string]. The functions of package
    [strings] the code calls, as it calls them: it splits and searches at
    separators of one byte only. [strings.Map] and the two [ToUpper] work on
    runes; they are modelled for strings of bytes below 128, where a rune is
    a byte, which is what the identifiers of a Thrift file are made of. *)

(** Every byte of the string is below 128. *)
Fixpoint ascii_only (s : string) : bool :=
  match s with
  | EmptyString => true
  | String c s' => (nat_of_ascii c <? 128)%nat && ascii_only s'
  end.

(** [s[k:]]: out of range when [k > len(s)]. *)
Fixpoint slice_from (s : string) (k : nat) {struct k} : option string :=
  match k, s with
  | O, _ => Some s
  | S k', String _ s' => slice_from s' k'
  | S _, EmptyString => None
  end.

(** [s[k:] == x] *)
Definition slice_is (s : string) (k : nat) (x : string) : option bool :=
  option_map (fun t => String.eqb t x) (slice_from s k).

(** Go's [a && b] and [a || b], where an operand may panic: the right
    operand is evaluated only when the left one does not decide. *)
Definition and_then (a : bool) (b : option bool) : option bool :=
  if a then b else Some false.

Definition or_else (a b : option bool) : option bool :=
  match a with
  | Some false => b
  | _ => a
  end.

(** How often the byte [c] occurs in [s]. *)
Fixpoint count_byte (c : ascii) (s : string) : nat :=
  match s with
  | EmptyString => O
  | String x s' => if Ascii.eqb x c then S (count_byte c s') else count_byte c s'
  end.

Module unicode.
(** [unicode.ToUpper], for a rune below 128. *)
Definition ToUpper (r : ascii) : ascii :=
  if (97 <=? nat_of_ascii r)%nat && (nat_of_ascii r <=? 122)%nat
  then ascii_of_nat (nat_of_ascii r - 32)
  else r.
End unicode.

Module strings.
(** [strings.Join] *)
Fixpoint Join (elems : list string) (sep : string) : string :=
  match elems with
  | [] => EmptyString
  | x :: rest =>
      match rest with
      | [] => x
      | _ :: _ => x ++ sep ++ Join rest sep
      end
  end.

(** [strings.Split(s, sep)] for a separator of one byte: the parts between
    the separators, at least one. *)
Fixpoint Split (s : string) (sep : ascii) : list string :=
  match s with
  | EmptyString => [EmptyString]
  | String c s' =>
      if Ascii.eqb c sep then EmptyString :: Split s' sep
      else
        match Split s' sep with
        | [] => [String c EmptyString]
        | part :: parts => String c part :: parts
        end
  end.

(** [strings.ToUpper], for a string of bytes below 128. *)
Fixpoint ToUpper (s : string) : string :=
  match s with
  | EmptyString => EmptyString
  | String c s' => String (unicode.ToUpper c) (ToUpper s')
  end.

(** [strings.Map]: [mapping] is called on the runes in order; a negative
    result ([None]) drops the rune. A [mapping] that is a closure has its
    captured variables as the state [S]. *)
Fixpoint Map {S : Type} (mapping : S -> ascii -> S * option ascii) (st : S)
    (s : string) : string :=
  match s with
  | EmptyString => EmptyString
  | String r s' =>
      let '(st', r') := mapping st r in
      match r' with
      | Some c => String c (Map mapping st' s')
      | None => Map mapping st' s'
      end
  end.

(** [strings.Replace(s, old, new, -1)] for [old] and [new] of one byte. *)
Fixpoint Replace (s : string) (old new : ascii) : string :=
  match s with
  | EmptyString => EmptyString
  | String c s' => String (if Ascii.eqb c old then new else c) (Replace s' old new)
  end.

(** [strings.Contains(s, substr)] for [substr] of one byte. *)
Fixpoint Contains (s : string) (substr : ascii) : bool :=
  match s with
  | EmptyString => false
  | String c s' => Ascii.eqb c substr || Contains s' substr
  end.

(** [strings.LastIndex(s, substr)] for [substr] of one byte: the index of
    its last occurrence, -1 when there is none. *)
Fixpoint LastIndex (s : string) (substr : ascii) : Z :=
  match s with
  | EmptyString => -1
  | String c s' =>
      let i := LastIndex s' substr in
      if 0 <=? i then i + 1
      else if Ascii.eqb c substr then 0
      else -1
  end.
End strings.

Module sort.
(** [sort.Strings] sorts by the order of the bytes. Strings that compare
    equal are equal, so every sorting algorithm gives the same slice; here by
    insertion. *)
Fixpoint insert (x : string) (l : list string) : list string :=
  match l with
  | [] => [x]
  | y :: l' => if String.leb x y then x :: l else y :: insert x l'
  end.

Definition Strings (l : list string) : list string :=
  fold_right insert [] l.
End sort.

(** ** The parser of go-thrift

    The structs of [github.com/alecthomas/go-thrift/parser], with the fields
    parse.go reads. A pointer that may be nil is an [option]; a Go map that
    is only read is a partial function, and reading a missing key gives the
    zero value. *)

Module parser.
Module Type_.
#[warnings="-register-all"]
Inductive t : Type := mk {
  Name : string;
  KeyType : option t;
  ValueType : option t
}.
End Type_.

Module Field.
Record t : Type := mk {
  Name : string;
  Type_ : option Type_.t
}.
End Field.

Module Method.
Record t : Type := mk {
  Name : string;
  ReturnType : option Type_.t;
  Arguments : list Field.t
}.
End Method.

Module Thrift.
Record t : Type := mk {
  Includes : string -> option string;
  Namespaces : string -> option string
}.
End Thrift.
End parser.

(** [m[key]] on a [map[string]string]: the empty string for a missing key. *)
Definition map_get (m : string -> option string) (key : string) : string :=
  match m key with
  | Some v => v
  | None => EmptyString
  end.

(** ** gen: parse.go *)

Module gen.
(** Lifted from the Go generator of Thrift. *)
Definition initialismList : list string :=
  ["api"; "ascii"; "cpu"; "css"; "dns"; "eof"; "guid"; "html"; "http"; "https";
   "id"; "ip"; "json"; "lhs"; "qps"; "ram"; "rhs"; "rpc"; "sla"; "smtp"; "ssh";
   "tcp"; "tls"; "ttl"; "udp"; "ui"; "uid"; "uuid"; "uri"; "url"; "utf8"; "vm";
   "xml"; "xsrf"; "xss"]%string.

(** [fixForInitialismCase]: for each initialism in turn, the string is
    split at the underscores, the parts equal to the initialism are replaced
    by its upper case, and the parts are joined again. *)
Definition fixForInitialismCase (s : string) : string :=
  fold_left
    (fun s initialism =>
       let parts := strings.Split s "_" in
       let parts :=
         map (fun part =>
                if String.eqb part initialism then strings.ToUpper initialism
                else part) parts in
       strings.Join parts "_")
    initialismList s.

(** The function handed to [strings.Map] in [titleCase]; [prev] is the
    variable it captures. *)
Definition titleCase_mapping (prev r : ascii) : ascii * option ascii :=
  if Ascii.eqb r "_" then (r, None)
  else if Ascii.eqb prev "_" then (r, Some (unicode.ToUpper r))
  else (r, Some r).

(** [titleCase]; [None] when a slice is out of range. *)
Definition titleCase (s : string) : option string :=
  let prev := "_"%char in
  let s := fixForInitialismCase s in
  let titleCased := strings.Map titleCase_mapping prev s in
  let n := String.length titleCased in
  match or_else (and_then (4 <=? n)%nat (slice_is titleCased (n - 4) "Args"))
                (and_then (6 <=? n)%nat (slice_is s (n - 6) "Result")) with
  | None => None
  | Some true => Some (titleCased ++ "_")%string
  | Some false => Some titleCased
  end.

(** [Arg], [Method] *)
Module Arg.
Record t : Type := mk {
  Name : string;
  Type_ : string
}.
End Arg.

Module Method.
Record t : Type := mk {
  Name : string;
  Request : list Arg.t;
  ResponseType : string
}.
End Method.

(** [ArgDeclarations] returns the declarations for all args. *)
Definition ArgDeclarations (m : Method.t) : string :=
  strings.Join
    (map (fun argument => (Arg.Name argument ++ " " ++ Arg.Type_ argument)%string)
         (Method.Request m))
    ", ".

(** [Args] returns a list of all args, without types. *)
Definition Args (m : Method.t) : string :=
  strings.Join (map Arg.Name (Method.Request m)) ", ".

(** [Parser]. [imports] is a set of strings, nil until [Parse] makes it;
    the order of its keys is of no account. *)
Module Parser.
Record t : Type := mk {
  pkg : string;
  imports : option (list string);
  thrift : string -> option parser.Thrift.t;
  mainFile : string
}.
End Parser.

Definition NewParser (pkg : string) : Parser.t :=
  {| Parser.pkg := pkg; Parser.imports := None;
     Parser.thrift := fun _ => None; Parser.mainFile := EmptyString |}.

(** A method of [*Parser] that returns an [A]: it may change the parser,
    and it may panic ([None]). *)
Definition M (A : Type) : Type := Parser.t -> option (A * Parser.t).

Definition ret {A} (a : A) : M A := fun p => Some (a, p).

Definition bind {A B} (m : M A) (k : A -> M B) : M B :=
  fun p =>
    match m p with
    | Some (a, p') => k a p'
    | None => None
    end.

Definition panic {A} : M A := fun _ => None.

(** A computation that may panic and does not touch the parser. *)
Definition lift {A} (o : option A) : M A :=
  fun p =>
    match o with
    | Some a => Some (a, p)
    | None => None
    end.

Notation "x <- m ;; k" := (bind m (fun x => k))
  (at level 61, m at next level, right associativity).

(** [p.imports[imported] = true]; an assignment to an entry of a nil map
    panics. *)
Definition set_import (imported : string) : M unit :=
  fun p =>
    match Parser.imports p with
    | Some keys =>
        Some (tt,
              {| Parser.pkg := Parser.pkg p;
                 Parser.imports :=
                   Some (if existsb (String.eqb imported) keys then keys
                         else keys ++ [imported]);
                 Parser.thrift := Parser.thrift p;
                 Parser.mainFile := Parser.mainFile p |})
    | None => None
    end.

(** [absPathToImport] converts an absolute path into the go import path
    for that file. Reading a field of [p.thrift[path]] panics when the file
    is not there. *)
Definition absPathToImport (path : string) : M string :=
  fun p =>
    match Parser.thrift p path with
    | Some file =>
        Some (strings.Replace (map_get (parser.Thrift.Namespaces file) "go") "." "/", p)
    | None => None
    end.

(** [absPathToPkg] converts an absolute path into the go package for that
    file. *)
Definition absPathToPkg (path : string) : M string :=
  imported <- absPathToImport path ;;
  _ <- set_import imported ;;
  again <- absPathToImport path ;;
  lift (slice_from imported (Z.to_nat (strings.LastIndex again "/" + 1))).

(** [typeToAbsPath] converts a thrift type into the absolute path of the
    file it came from. *)
Definition typeToAbsPath (typeName : string) : M string :=
  fun p =>
    let split := strings.Split typeName "." in
    if (length split =? 2)%nat then
      match Parser.thrift p (Parser.mainFile p) with
      | Some file =>
          Some (map_get (parser.Thrift.Includes file) (nth 0 split EmptyString), p)
      | None => None
      end
    else Some (Parser.mainFile p, p).

(** [typeToPackage] converts a type into the go package that it is imported
    with. *)
Definition typeToPackage (typeName : string) : M string :=
  path <- typeToAbsPath typeName ;;
  absPathToPkg path.

Definition primitiveTypes : list (string * string) :=
  [("string", "string"); ("bool", "bool"); ("i16", "int16"); ("i32", "int32");
   ("i64", "int64"); ("double", "float64"); ("byte", "int8");
   ("binary", "[]byte")]%string.

(** [primitiveTypes[typeName]], with whether the key is there. *)
Fixpoint lookup (m : list (string * string)) (key : string) : option string :=
  match m with
  | [] => None
  | (k, v) :: m' => if String.eqb key k then Some v else lookup m' key
  end.

(** [parseName] converts a thrift base type name into its go equivalent. *)
Definition parseName (typeName : string) : M string :=
  match lookup primitiveTypes typeName with
  | Some val => ret val
  | None =>
      if strings.Contains typeName "." then
        let split := strings.Split typeName "." in
        ns <- typeToPackage typeName ;;
        name <- lift (match nth_error split 1 with
                      | Some part => titleCase part
                      | None => None
                      end) ;;
        ret ("*" ++ ns ++ "." ++ name)%string
      else
        ns <- typeToPackage typeName ;;
        name <- lift (titleCase typeName) ;;
        ret ("*" ++ ns ++ "." ++ name)%string
  end.

(** [parseType] converts the type into its go representation. *)
Fixpoint parseType (parserType : parser.Type_.t) : M string :=
  match parserType with
  | parser.Type_.mk name keyType valueType =>
      match valueType with
      | Some valueType =>
          if String.eqb name "list" then
            v <- parseType valueType ;;
            ret ("[]" ++ v)%string
          else if String.eqb name "map" then
            k <- match keyType with
                 | Some keyType => parseType keyType
                 | None => panic
                 end ;;
            v <- parseType valueType ;;
            ret ("map[" ++ k ++ "]" ++ v)%string
          else if String.eqb name "set" then
            v <- parseType valueType ;;
            ret ("map[" ++ v ++ "]bool")%string
          else panic
      | None => parseName name
      end
  end.

(** The loop of [parseMethod] over the arguments. *)
Fixpoint parseArguments (arguments : list parser.Field.t) : M (list Arg.t) :=
  match arguments with
  | [] => ret []
  | arg :: rest =>
      typeName <- match parser.Field.Type_ arg with
                  | Some type => parseType type
                  | None => panic
                  end ;;
      args <- parseArguments rest ;;
      ret ({| Arg.Name := parser.Field.Name arg; Arg.Type_ := typeName |} :: args)
  end.

(** [getUsedImports] returns the imports needed for all the types in
    service signatures: the keys of [p.imports] (none when the map is nil),
    in whatever order the map yields them, sorted. *)
Definition getUsedImports : M (list string) :=
  fun p =>
    let imports :=
      match Parser.imports p with
      | Some keys => keys
      | None => []
      end in
    Some (sort.Strings imports, p).

Definition parseMethod (method : parser.Method.t) : M Method.t :=
  returnType <- match parser.Method.ReturnType method with
                | Some ret_ => parseType ret_
                | None => ret EmptyString
                end ;;
  args <- parseArguments (parser.Method.Arguments method) ;;
  name <- lift (titleCase (parser.Method.Name method)) ;;
  ret {| Method.Name := name; Method.ResponseType := returnType;
         Method.Request := args |}.
End gen.

(** *** What [titleCase] is meant to compute *)

(** A part with its first byte in upper case. *)
Definition capitalize (part : string) : string :=
  match part with
  | EmptyString => EmptyString
  | String c part' => String (unicode.ToUpper c) part'
  end.

(** A part that is an initialism in upper case, any other part as it is. *)
Definition upcase_initialism (part : string) : string :=
  if existsb (String.eqb part) gen.initialismList then strings.ToUpper part
  else part.

(** The parts of a name between its underscores, initialisms in upper case,
    every part capitalized, put together. *)
Definition camel (s : string) : string :=
  fold_right String.append EmptyString
    (map (fun part => capitalize (upcase_initialism part)) (strings.Split s "_")).

(** *** What the parser is meant to keep *)

(** The parser after recording the import [imported]. *)
Definition record_import (imported : string) (keys : list string) (p : gen.Parser.t)
    : gen.Parser.t :=
  {| gen.Parser.pkg := gen.Parser.pkg p;
     gen.Parser.imports :=
       Some (if existsb (String.eqb imported) keys then keys else keys ++ [imported]);
     gen.Parser.thrift := gen.Parser.thrift p;
     gen.Parser.mainFile := gen.Parser.mainFile p |}.

(** The go import path of a file: its go namespace, dots for slashes. *)
Definition import_path (file : parser.Thrift.t) : string :=
  strings.Replace (map_get (parser.Thrift.Namespaces file) "go") "." "/".

(** From [p] to [p'] nothing changed but the set of imports, which lost
    nothing and got no key twice, and every import it gained is the import
    path of a file the parser knows. *)
Definition extends (p p' : gen.Parser.t) : Prop :=
  gen.Parser.pkg p' = gen.Parser.pkg p /\
  gen.Parser.thrift p' = gen.Parser.thrift p /\
  gen.Parser.mainFile p' = gen.Parser.mainFile p /\
  match gen.Parser.imports p, gen.Parser.imports p' with
  | Some keys, Some keys' =>
      incl keys keys' /\
      (NoDup keys -> NoDup keys') /\
      forall key, In key keys' ->
        In key keys \/
        exists path file,
          gen.Parser.thrift p path = Some file /\ key = import_path file
  | None, None => True
  | _, _ => False
  end.

(** A type made of the primitive types and of lists, sets and maps. *)
Fixpoint primitive_only (t : parser.Type_.t) : bool :=
  match t with
  | parser.Type_.mk name keyType valueType =>
      match valueType with
      | Some valueType =>
          (String.eqb name "list" && primitive_only valueType) ||
          (String.eqb name "set" && primitive_only valueType) ||
          (String.eqb name "map" &&
           match keyType with
           | Some keyType => primitive_only keyType
           | None => false
           end && primitive_only valueType)
      | None =>
          match gen.lookup gen.primitiveTypes name with
          | Some _ => true
          | None => false
          end
      end
  end.

(** One pass of the loop of [fixForInitialismCase], seen from one part, and
    all the passes for the initialisms [l]. *)
Definition replace_part (initialism part : string) : string :=
  if String.eqb part initialism then strings.ToUpper initialism else part.

Definition replace_parts (l : list string) (part : string) : string :=
  fold_left (fun part initialism => replace_part initialism part) l part.

(** [t] ends with [suffix]. *)
Definition ends_with (t suffix : string) : bool :=
  (String.length suffix <=? String.length t)%nat &&
  match slice_from t (String.length t - String.length suffix) with
  | Some x => String.eqb x suffix
  | None => false
  end.

(** * Properties *)

(** ** Integers *)

Lemma wrap_uint64_small (z : Z) : is_uint64 z -> wrap_uint64 z = z.
Proof. unfold is_uint64, wrap_uint64. intros H. apply Z.mod_small. exact H. Qed.

Lemma wrap_int64_small (z : Z) : is_int64 z -> wrap_int64 z = z.
Proof.
  unfold is_int64, wrap_int64, MinInt64, MaxInt64. intros H.
  rewrite Z.mod_small by lia. lia.
Qed.

(** ** Traces *)

Lemma call_results_app (t u : list Event) :
  call_results (t ++ u) = call_results t ++ call_results u.
Proof.
  induction t as [| [| e | i] t IH]; simpl; rewrite ?IH; reflexivity.
Qed.

Lemma pauses_app (t u : list Event) : pauses (t ++ u) = pauses t ++ pauses u.
Proof.
  induction t as [| [| e | i] t IH]; simpl; rewrite ?IH; reflexivity.
Qed.

Lemma last_app_cons {A} (t u : list A) (x d : A) :
  last (t ++ x :: u) d = last (x :: u) d.
Proof.
  induction t as [| y t IH]; [reflexivity |].
  change ((y :: t) ++ x :: u) with (y :: (t ++ x :: u)).
  destruct (t ++ x :: u) eqn:E.
  - destruct t; discriminate.
  - rewrite <- IH. reflexivity.
Qed.

(** A call that is not the last event of a trace is one of the calls of the
    trace without its last event. *)
Lemma nonfinal_call_in_prefix (P : error -> Prop) (t pre post : list Event)
    (e x : error) :
  Forall P (call_results t) ->
  t ++ [EvCall e] = pre ++ EvCall x :: post ->
  ~ P x ->
  post = [] /\ x = e.
Proof.
  intros Hall Heq Hx.
  destruct (exists_last (l := EvCall x :: post)) as [body [z Hz]]; [discriminate |].
  destruct post as [| y post].
  - apply app_inj_tail in Heq. destruct Heq as [_ Heq].
    split; [reflexivity | congruence].
  - exfalso. apply Hx.
    destruct body as [| y0 body]; [discriminate |].
    injection Hz as Hy0 Hz. subst y0.
    rewrite Hz in Heq.
    change (pre ++ EvCall x :: body ++ [z]) with (pre ++ (EvCall x :: body) ++ [z]) in Heq.
    rewrite app_assoc in Heq.
    apply app_inj_tail in Heq. destruct Heq as [Heq _]. subst t.
    rewrite call_results_app in Hall. apply Forall_app in Hall.
    destruct Hall as [_ Hall]. simpl in Hall.
    inversion Hall; assumption.
Qed.

Lemma call_in_trace (P : error -> Prop) (pre post : list Event) (x : error) :
  Forall P (call_results (pre ++ EvCall x :: post)) -> P x.
Proof.
  rewrite call_results_app. intros H. apply Forall_app in H.
  destruct H as [_ H]. simpl in H. inversion H; assumption.
Qed.

(** A trace that ends with a call: its result is the last of the results. *)
Lemma last_call_result (t : list Event) (e : error) :
  last t EvNew = EvCall e ->
  exists prior : list error,
    call_results t = prior ++ [e] /\ S (length prior) = length (call_results t).
Proof.
  intros Hlast.
  destruct t as [| ev t]; [discriminate Hlast |].
  destruct (exists_last (l := ev :: t)) as [body [z Hz]]; [discriminate |].
  rewrite Hz in *. rewrite last_last in Hlast. subst z.
  exists (call_results body). rewrite call_results_app. simpl.
  split; [reflexivity |]. rewrite length_app. simpl. lia.
Qed.

(** ** The loop of [Do] *)

Section Loop.
Context {W : Type}.
Variable r : Retrier W.
Variable b : Backoff W.
Variable fn : W -> error * W.

#[local] Abbreviation loop :=
  (Do_loop (traced r) (traced_backoff b) (traced_fn fn)).

(** The loop head, attempts left. *)
Lemma loop_attempt (fuel : nat) (i : Z) (e0 : error) (w : W) (t : list Event) :
  0 <= i < maxAttempts r -> maxAttempts r < 2 ^ 64 ->
  loop (S fuel) i e0 (w, t) =
    let err := fst (fn w) in
    let w1 := snd (fn w) in
    if negb (isRetriable r err) then Some (err, (w1, t ++ [EvCall err]))
    else if i + 1 <? maxAttempts r then
      loop fuel (i + 1) err (backoff b i w1, (t ++ [EvCall err]) ++ [EvBackoff i])
    else loop fuel (i + 1) err (w1, t ++ [EvCall err]).
Proof.
  intros Hi HN. simpl.
  destruct (Z.ltb_spec i (maxAttempts r)) as [_ | Hge]; [| lia].
  rewrite wrap_uint64_small by (unfold is_uint64; lia).
  destruct (fn w) as [err w1]. simpl.
  destruct (isRetriable r err); simpl; [| reflexivity].
  destruct (i + 1 <? maxAttempts r); reflexivity.
Qed.

(** The loop head, no attempt left. *)
Lemma loop_exit (fuel : nat) (i : Z) (e0 : error) (wt : Traced W) :
  maxAttempts r <= i -> loop (S fuel) i e0 wt = Some (e0, wt).
Proof.
  intros Hi. simpl.
  destruct (Z.ltb_spec i (maxAttempts r)) as [Hlt | _]; [lia | reflexivity].
Qed.

(** Logging the calls does not change the run. *)
Lemma loop_erase (fuel : nat) :
  forall (i : Z) (e0 : error) (w : W) (t : list Event),
    erase (loop fuel i e0 (w, t)) = Do_loop r b fn fuel i e0 w.
Proof.
  induction fuel as [| fuel IH]; intros i e0 w t; [reflexivity |].
  simpl. destruct (i <? maxAttempts r); [| reflexivity].
  destruct (fn w) as [err w1].
  destruct (isRetriable r err); simpl; [| reflexivity].
  destruct (wrap_uint64 (i + 1) <? maxAttempts r); apply IH.
Qed.

(** [invoked j w] reads: in world [w] the operation has been invoked [j]
    times in this run. A pause leaves that as it is. *)
Variable invoked : Z -> W -> Prop.
Hypothesis pause_invoked :
  forall j i w, invoked j w -> invoked j (backoff b i w).

(** Every attempt fails with a retriable error: [n + 1] attempts are left
    at index [i], all of them are made, with a pause after each but the
    last. *)
Lemma loop_all_retriable (n : nat) :
  (forall j w, 0 <= j < maxAttempts r -> invoked j w ->
     isRetriable r (fst (fn w)) = true /\ invoked (j + 1) (snd (fn w))) ->
  maxAttempts r < 2 ^ 64 ->
  forall (fuel : nat) (i : Z) (e0 : error) (w : W) (t : list Event),
    0 <= i -> i + Z.of_nat (S n) = maxAttempts r -> (S n < fuel)%nat ->
    invoked i w ->
    exists err w' t',
      loop fuel i e0 (w, t) = Some (err, (w', t ++ t')) /\
      length (call_results t') = S n /\
      last t' EvNew = EvCall err /\
      pauses t' = map (fun k => i + Z.of_nat k) (seq 0 n).
Proof.
  intros Hretry HN. induction n as [| n IH]; intros fuel i e0 w t Hi Hn Hfuel Hinv.
  - destruct fuel as [| [| fuel]]; [lia | lia |].
    destruct (Hretry i w ltac:(lia) Hinv) as [Hres _].
    rewrite loop_attempt by lia. cbv zeta. rewrite Hres. simpl negb. cbv iota.
    destruct (Z.ltb_spec (i + 1) (maxAttempts r)) as [Hlt | _]; [lia |].
    rewrite loop_exit by lia.
    exists (fst (fn w)), (snd (fn w)), [EvCall (fst (fn w))].
    repeat split; reflexivity.
  - destruct fuel as [| fuel]; [lia |].
    destruct (Hretry i w ltac:(lia) Hinv) as [Hres Hnext].
    rewrite loop_attempt by lia. cbv zeta. rewrite Hres. simpl negb. cbv iota.
    destruct (Z.ltb_spec (i + 1) (maxAttempts r)) as [_ | Hge]; [| lia].
    destruct (IH fuel (i + 1) (fst (fn w)) (backoff b i (snd (fn w)))
                ((t ++ [EvCall (fst (fn w))]) ++ [EvBackoff i]))
      as (err & w' & t' & Hrun & Hcalls & Hlast & Hpauses);
      [lia | lia | lia | apply pause_invoked; exact Hnext |].
    exists err, w', (EvCall (fst (fn w)) :: EvBackoff i :: t').
    split; [| split; [| split]].
    + rewrite Hrun. rewrite <- !app_assoc. reflexivity.
    + simpl. rewrite Hcalls. reflexivity.
    + destruct t' as [| ev t']; [discriminate Hcalls |]. exact Hlast.
    + cbn [pauses]. rewrite Hpauses. cbn [seq map].
      rewrite Z.add_0_r. f_equal.
      rewrite <- seq_shift, map_map. apply map_ext. intros k. lia.
Qed.

(** The operation fails until it has been invoked [K] times: [k] failures
    are left at index [j], and one attempt more is made. *)
Lemma loop_failures_then_success (K : Z) :
  isRetriable r = AnyErr ->
  0 <= K < maxAttempts r -> maxAttempts r < 2 ^ 64 ->
  (forall j w, 0 <= j < K -> invoked j w ->
     fst (fn w) <> None /\ invoked (j + 1) (snd (fn w))) ->
  (forall w, invoked K w -> fst (fn w) = None) ->
  forall (k fuel : nat) (j : Z) (e0 : error) (w : W) (t : list Event),
    0 <= j -> j + Z.of_nat k = K -> (S k < fuel)%nat -> invoked j w ->
    exists w' t',
      loop fuel j e0 (w, t) = Some (None, (w', t ++ t')) /\
      length (call_results t') = S k /\
      last t' EvNew = EvCall None /\
      pauses t' = map (fun x => j + Z.of_nat x) (seq 0 k).
Proof.
  intros Hdefault HK HN Hfail Hsucc.
  induction k as [| k IH]; intros fuel j e0 w t Hj Hjk Hfuel Hinv.
  - destruct fuel as [| fuel]; [lia |].
    rewrite loop_attempt by lia. cbv zeta.
    assert (j = K) by lia. subst j.
    rewrite (Hsucc w Hinv), Hdefault. simpl.
    exists (snd (fn w)), [EvCall None]. repeat split; reflexivity.
  - destruct fuel as [| fuel]; [lia |].
    rewrite loop_attempt by lia. cbv zeta.
    destruct (Hfail j w ltac:(lia) Hinv) as [Herr Hnext].
    rewrite Hdefault.
    destruct (fst (fn w)) as [msg |] eqn:Hres; [| congruence].
    simpl negb. cbv iota.
    destruct (Z.ltb_spec (j + 1) (maxAttempts r)) as [_ | Hge]; [| lia].
    destruct (IH fuel (j + 1) (Some msg) (backoff b j (snd (fn w)))
                ((t ++ [EvCall (Some msg)]) ++ [EvBackoff j]))
      as (w' & t' & Hrun & Hcalls & Hlast & Hpauses);
      [lia | lia | lia | apply pause_invoked; exact Hnext |].
    exists w', (EvCall (Some msg) :: EvBackoff j :: t').
    split; [| split; [| split]].
    + rewrite Hrun. rewrite <- !app_assoc. reflexivity.
    + simpl. rewrite Hcalls. reflexivity.
    + destruct t' as [| ev t']; [discriminate Hcalls |]. exact Hlast.
    + cbn [pauses]. rewrite Hpauses. cbn [seq map].
      rewrite Z.add_0_r. f_equal.
      rewrite <- seq_shift, map_map. apply map_ext. intros x. lia.
Qed.

(** The loop is left for every operation, and a result that is not
    retriable is the last event of the run and what the loop returns. *)
Lemma loop_stops_at_nonretriable :
  maxAttempts r < 2 ^ 64 ->
  forall (fuel : nat) (i : Z) (e0 : error) (w : W) (t : list Event),
    0 <= i -> (Z.to_nat (maxAttempts r - i) < fuel)%nat ->
    Forall (fun e => isRetriable r e = true) (call_results t) ->
    exists err w' t',
      loop fuel i e0 (w, t) = Some (err, (w', t')) /\
      forall pre x post,
        t' = pre ++ EvCall x :: post -> isRetriable r x = false ->
        post = [] /\ err = x.
Proof.
  intros HN. induction fuel as [| fuel IH]; intros i e0 w t Hi Hfuel Hall; [lia |].
  destruct (Z.lt_ge_cases i (maxAttempts r)) as [Hlt | Hge].
  - rewrite loop_attempt by lia. cbv zeta.
    destruct (isRetriable r (fst (fn w))) eqn:Hres; simpl negb; cbv iota.
    + assert (Hall' : Forall (fun e => isRetriable r e = true)
                        (call_results (t ++ [EvCall (fst (fn w))]))).
      { rewrite call_results_app. apply Forall_app. split; [exact Hall |].
        simpl. constructor; [exact Hres | constructor]. }
      destruct (i + 1 <? maxAttempts r).
      * apply IH; [lia | lia |].
        rewrite call_results_app, app_nil_r. exact Hall'.
      * apply IH; [lia | lia | exact Hall'].
    + exists (fst (fn w)), (snd (fn w)), (t ++ [EvCall (fst (fn w))]).
      split; [reflexivity |].
      intros pre x post Heq Hx.
      destruct (nonfinal_call_in_prefix _ _ _ _ _ _ Hall Heq) as [Hpost Hxe];
        [congruence |].
      split; [exact Hpost | congruence].
  - rewrite loop_exit by lia.
    exists e0, w, t. split; [reflexivity |].
    intros pre x post Heq Hx. subst t.
    apply call_in_trace in Hall. congruence.
Qed.
End Loop.

(** ** [Do] *)

(** [Do] on the traced world: one call of [New], then the loop. *)
Lemma Do_traced {W} (r : Retrier W) (fn : W -> error * W) (w : W) :
  Do (traced r) (traced_fn fn) (w, []) =
  Do_loop (traced r) (traced_backoff (fst (New (backoffFactory r) w))) (traced_fn fn)
    (S (Z.to_nat (maxAttempts r))) 0 None
    (snd (New (backoffFactory r) w), [EvNew]).
Proof.
  unfold Do. simpl. destruct (New (backoffFactory r) w) as [b w1]. reflexivity.
Qed.

(** The traced run is the run, with the log on the side. *)
Lemma Do_erase {W} (r : Retrier W) (fn : W -> error * W) (w : W) (t : list Event) :
  erase (Do (traced r) (traced_fn fn) (w, t)) = Do r fn w.
Proof.
  unfold Do. cbn [traced backoffFactory traced_factory New maxAttempts].
  destruct (New (backoffFactory r) w) as [b w1].
  apply loop_erase.
Qed.

(** C1. With [maxAttempts = N >= 1] and an operation that returns a
    retriable error on every invocation, [Do] returns what the last
    invocation returned, the operation is invoked exactly [N] times, the last
    event of the run is that [N]-th invocation (so no pause follows it), and
    the backoff is called [N - 1] times, with the iterations
    [0, 1, ..., N - 2] in that order. [invoked j w] reads: in world [w] the
    operation has been invoked [j] times; a pause does not change that. *)
Theorem Do_exhausted_retries {W} (r : Retrier W) (fn : W -> error * W)
    (invoked : Z -> W -> Prop) (w : W) :
  1 <= maxAttempts r < 2 ^ 64 ->
  invoked 0 (snd (New (backoffFactory r) w)) ->
  (forall j i w', invoked j w' ->
     invoked j (backoff (fst (New (backoffFactory r) w)) i w')) ->
  (forall j w', 0 <= j < maxAttempts r -> invoked j w' ->
     isRetriable r (fst (fn w')) = true /\ invoked (j + 1) (snd (fn w'))) ->
  exists (err : error) w' t (prior : list error),
    Do (traced r) (traced_fn fn) (w, []) = Some (err, (w', t)) /\
    call_results t = prior ++ [err] /\
    Z.of_nat (length prior) = maxAttempts r - 1 /\
    last t EvNew = EvCall err /\
    pauses t = map Z.of_nat (seq 0 (Z.to_nat (maxAttempts r - 1))).
Proof.
  intros HN Hinit Hpause Hretry. rewrite Do_traced.
  destruct (loop_all_retriable r (fst (New (backoffFactory r) w)) fn
              invoked Hpause (Z.to_nat (maxAttempts r - 1)) Hretry ltac:(lia)
              (S (Z.to_nat (maxAttempts r))) 0 None
              (snd (New (backoffFactory r) w)) [EvNew])
    as (err & w' & t' & Hrun & Hcalls & Hlast & Hpauses);
    [lia | lia | lia | exact Hinit |].
  destruct (last_call_result t' err Hlast) as (prior & Hprior & Hlen).
  exists err, w', ([EvNew] ++ t'), prior.
  split; [exact Hrun | split; [exact Hprior | split; [lia | split]]].
  - destruct t' as [| ev t']; [discriminate Hcalls |]. exact Hlast.
  - simpl. rewrite Hpauses. apply map_ext. intros k. lia.
Qed.

(** C3. With [maxAttempts = N], the default predicate, and an operation that
    returns an error on its first [K] invocations ([K < N]) and succeeds on
    the next, [Do] returns nil and the operation is invoked exactly [K + 1]
    times (with a pause after each of the [K] failures). [invoked j w]
    reads: in world [w] the operation has been invoked [j] times; a pause
    does not change that. *)
Theorem Do_succeeds_after_failures {W} (r : Retrier W) (fn : W -> error * W)
    (invoked : Z -> W -> Prop) (K : Z) (w : W) :
  isRetriable r = AnyErr ->
  0 <= K < maxAttempts r -> maxAttempts r < 2 ^ 64 ->
  invoked 0 (snd (New (backoffFactory r) w)) ->
  (forall j i w', invoked j w' ->
     invoked j (backoff (fst (New (backoffFactory r) w)) i w')) ->
  (forall j w', 0 <= j < K -> invoked j w' ->
     fst (fn w') <> None /\ invoked (j + 1) (snd (fn w'))) ->
  (forall w', invoked K w' -> fst (fn w') = None) ->
  exists w' t (prior : list error),
    Do (traced r) (traced_fn fn) (w, []) = Some (None, (w', t)) /\
    call_results t = prior ++ [None] /\
    Z.of_nat (length prior) = K /\
    last t EvNew = EvCall None /\
    pauses t = map Z.of_nat (seq 0 (Z.to_nat K)).
Proof.
  intros Hdefault HK HN Hinit Hpause Hfail Hsucc. rewrite Do_traced.
  destruct (loop_failures_then_success r (fst (New (backoffFactory r) w)) fn
              invoked Hpause K Hdefault HK HN Hfail Hsucc
              (Z.to_nat K) (S (Z.to_nat (maxAttempts r))) 0 None
              (snd (New (backoffFactory r) w)) [EvNew])
    as (w' & t' & Hrun & Hcalls & Hlast & Hpauses);
    [lia | lia | lia | exact Hinit |].
  destruct (last_call_result t' None Hlast) as (prior & Hprior & Hlen).
  exists w', ([EvNew] ++ t'), prior.
  split; [exact Hrun | split; [exact Hprior | split; [lia | split]]].
  - destruct t' as [| ev t']; [discriminate Hcalls |]. exact Hlast.
  - simpl. rewrite Hpauses. apply map_ext. intros k. lia.
Qed.

(** C4, amended. [Do] returns for every operation; a result that the
    predicate classifies as not retriable is the last event of the run (no
    invocation and no pause follows) and is what [Do] returns. With a
    predicate that is always false and [maxAttempts >= 1], [Do] returns the
    result of the first invocation after exactly one invocation, whatever
    [maxAttempts >= 1] is. *)
Theorem Do_stops_at_nonretriable {W} (r : Retrier W) (fn : W -> error * W) (w : W) :
  0 <= maxAttempts r < 2 ^ 64 ->
  (exists err w' t,
     Do (traced r) (traced_fn fn) (w, []) = Some (err, (w', t)) /\
     forall pre x post,
       t = pre ++ EvCall x :: post -> isRetriable r x = false ->
       post = [] /\ err = x) /\
  ((forall e, isRetriable r e = false) -> 1 <= maxAttempts r ->
   returns_first_result r fn w).
Proof.
  intros HN. split.
  - rewrite Do_traced.
    apply loop_stops_at_nonretriable; [lia | lia | | constructor].
    rewrite Z.sub_0_r. lia.
  - intros Hnever H1. unfold returns_first_result. rewrite Do_traced.
    rewrite loop_attempt by lia. cbv zeta. rewrite Hnever. reflexivity.
Qed.

(** C9. [MaxAttemptsOption(0)] sets [maxAttempts] to 0, and with
    [maxAttempts = 0] [Do] calls [New] once and returns nil; the operation
    and the backoff are never called. *)
Theorem Do_zero_attempts {W} :
  (forall r : Retrier W,
     maxAttempts (MaxAttemptsOption 0 r) = 0 /\
     backoffFactory (MaxAttemptsOption 0 r) = backoffFactory r) /\
  (forall (r : Retrier W) (fn : W -> error * W) (w : W),
     maxAttempts r = 0 ->
     Do (traced r) (traced_fn fn) (w, []) =
       Some (None, (snd (New (backoffFactory r) w), [EvNew]))).
Proof.
  split; [intros r; split; reflexivity |].
  intros r fn w H0. rewrite Do_traced. apply loop_exit. lia.
Qed.

(** C8. A retrier constructed with no options: one attempt, every non-nil
    error is retriable and nil is not, and the factory is the decorrelated
    exponential backoff from 500 ms to 60 s. *)
Theorem NewRetrier_defaults (U : Type) :
  let r := @NewRetrier U [] in
  maxAttempts r = 1 /\
  (forall err, isRetriable r err = true <-> err <> None) /\
  backoffFactory r = asFactory (DefaultBackoff) /\
  DefaultBackoff = NewDecorrelatedExponentialBackoff 500000000 60000000000 /\
  (Millisecond * 500 = 500000000 /\ Second * 60 = 60000000000).
Proof.
  cbv zeta. repeat split.
  - destruct err; [discriminate | discriminate].
  - destruct err; [reflexivity | congruence].
Qed.

(** ** The runs of retry_test.go *)

Lemma makeFn_fails (i j : Z) (w : TestWorld) :
  0 <= j < i -> i <= MaxInt64 -> counted j w ->
  fst (makeFn i w) = Some "err"%string /\ counted (j + 1) (snd (makeFn i w)).
Proof.
  unfold counted, makeFn. intros Hj Hi Hc.
  destruct (Z.ltb_spec (count (user w)) i) as [_ | Hge]; [| lia].
  simpl. split; [reflexivity |].
  rewrite wrap_int64_small by (unfold is_int64, MinInt64, MaxInt64 in *; lia). lia.
Qed.

Lemma makeFn_succeeds (i : Z) (w : TestWorld) :
  counted i w -> fst (makeFn i w) = None.
Proof.
  unfold counted, makeFn. intros Hc.
  destruct (Z.ltb_spec (count (user w)) i) as [Hlt | _]; [lia | reflexivity].
Qed.

(** The pause of the default backoff leaves the variables of the test as
    they are. *)
Lemma decorrelated_pause_user (U : Type) (p : decorrelatedRef) (i : Z) (w : World U) :
  user (backoff (asBackoff p) i w) = user w.
Proof.
  simpl. destruct (nth_error (heap w) (address p)) as [b |]; [| reflexivity].
  destruct (decorrelatedExponentialBackoff.getDuration b (rand w)) as [[d b'] rnd].
  reflexivity.
Qed.

(** [retrier3] and [fn3] of [TestRetrier_Do]: three attempts, all failing,
    and the backoff called with 0 and 1. *)
Lemma Do_exhausted_retries_witness :
  exists (err : error) w' t (prior : list error),
    Do (traced (NewRetrier [MaxAttemptsOption 3; BackoffOption (asFactory backoffFunc)]))
       (traced_fn (makeFn 3)) (test_world (rand_of_list []), []) =
      Some (err, (w', t)) /\
    call_results t = prior ++ [err] /\
    Z.of_nat (length prior) = 3 - 1 /\
    last t EvNew = EvCall err /\
    pauses t = map Z.of_nat (seq 0 (Z.to_nat (3 - 1))).
Proof.
  apply (Do_exhausted_retries
           (NewRetrier [MaxAttemptsOption 3; BackoffOption (asFactory backoffFunc)])
           (makeFn 3) counted (test_world (rand_of_list []))).
  - simpl. lia.
  - reflexivity.
  - intros j i w' H. exact H.
  - intros j w' Hj Hc. simpl in Hj.
    destruct (makeFn_fails 3 j w' Hj ltac:(unfold MaxInt64; lia) Hc) as [Hres Hnext].
    split; [rewrite Hres; reflexivity | exact Hnext].
Defined.

(** [retrier1] and [fn1] of [TestRetrier_Do]: four attempts allowed, three
    failures, then success. *)
Lemma Do_succeeds_after_failures_witness :
  exists w' t (prior : list error),
    Do (traced (NewRetrier [MaxAttemptsOption 4])) (traced_fn (makeFn 3))
       (test_world (rand_of_list []), []) = Some (None, (w', t)) /\
    call_results t = prior ++ [None] /\
    Z.of_nat (length prior) = 3 /\
    last t EvNew = EvCall None /\
    pauses t = map Z.of_nat (seq 0 (Z.to_nat 3)).
Proof.
  apply (Do_succeeds_after_failures (NewRetrier [MaxAttemptsOption 4])
           (makeFn 3) counted 3 (test_world (rand_of_list []))).
  - reflexivity.
  - simpl. lia.
  - simpl. lia.
  - reflexivity.
  - intros j i w' H. unfold counted. simpl fst.
    rewrite decorrelated_pause_user. exact H.
  - intros j w' Hj Hc.
    destruct (makeFn_fails 3 j w' Hj ltac:(unfold MaxInt64; lia) Hc) as [Hres Hnext].
    split; [rewrite Hres; discriminate | exact Hnext].
  - intros w' Hc. apply makeFn_succeeds. exact Hc.
Defined.

(** [retrier2] and [fn2] of [TestRetrier_Do]: the predicate is always false,
    and the first error comes back after one invocation. *)
Lemma Do_stops_at_nonretriable_witness :
  returns_first_result
    (NewRetrier [MaxAttemptsOption 3; RetriableOption (fun _ => false)])
    (makeFn 3) (test_world (rand_of_list [])).
Proof.
  apply (Do_stops_at_nonretriable
           (NewRetrier [MaxAttemptsOption 3; RetriableOption (fun _ => false)])
           (makeFn 3) (test_world (rand_of_list []))).
  - simpl. lia.
  - intros e. reflexivity.
  - simpl. lia.
Defined.

(** C4 as it is stated fails for [maxAttempts = 0]: the predicate is always
    false, and yet [Do] returns nil without a single invocation, where the
    first invocation would have returned an error. *)
Lemma never_retriable_zero_attempts :
  let r := NewRetrier [MaxAttemptsOption 0; RetriableOption (fun _ => false)] in
  let w := test_world (rand_of_list []) in
  (forall e, isRetriable r e = false) /\
  ~ returns_first_result r (makeFn 3) w /\
  (exists w', Do (traced r) (traced_fn (makeFn 3)) (w, []) = Some (None, (w', [EvNew]))) /\
  fst (makeFn 3 (snd (New (backoffFactory r) w))) = Some "err"%string.
Proof.
  cbv zeta. split; [| split; [| split]].
  - intros e. reflexivity.
  - unfold returns_first_result. rewrite Do_traced. cbv zeta.
    vm_compute. discriminate.
  - eexists. rewrite Do_traced. reflexivity.
  - reflexivity.
Qed.

(** [MaxAttemptsOption(0)] on the default retrier: nothing is attempted. *)
Lemma Do_zero_attempts_witness :
  Do (traced (NewRetrier [MaxAttemptsOption 0])) (traced_fn (makeFn 3))
     (test_world (rand_of_list []), []) =
    Some (None,
          (snd (New (backoffFactory (NewRetrier [MaxAttemptsOption 0]))
                  (test_world (rand_of_list []))),
           [EvNew])).
Proof.
  apply (proj2 Do_zero_attempts (NewRetrier [MaxAttemptsOption 0]) (makeFn 3)
           (test_world (rand_of_list []))).
  reflexivity.
Defined.

(** ** Rounding in [float64] *)

Lemma shr_1_spec (mrs : shr_record) :
  0 <= shr_m mrs ->
  shr_m (shr_1 mrs) = shr_m mrs / 2 /\
  inexact (shr_1 mrs) = inexact mrs || Z.odd (shr_m mrs).
Proof.
  destruct mrs as [m r s]. unfold inexact. simpl. intros Hm.
  rewrite <- Z.div2_div.
  destruct m as [| [p | p |] | p]; simpl; try lia;
    destruct r, s; split; reflexivity.
Qed.

Lemma shifts_1 : shifts 1 shr_1.
Proof.
  intros mrs Hm. destruct (shr_1_spec mrs Hm) as [Hq Hi].
  split; [exact Hq |]. rewrite Hi, orb_false_iff.
  change (2 ^ 1) with 2. rewrite Zmod_odd.
  destruct (Z.odd (shr_m mrs)); intuition discriminate.
Qed.

Lemma shifts_compose (n1 n2 : Z) (f1 f2 : shr_record -> shr_record) :
  0 <= n1 -> 0 <= n2 -> shifts n1 f1 -> shifts n2 f2 ->
  shifts (n1 + n2) (fun mrs => f2 (f1 mrs)).
Proof.
  intros Hn1 Hn2 H1 H2 mrs Hm.
  destruct (H1 mrs Hm) as [Hq1 Hi1].
  assert (Hp1 : 0 < 2 ^ n1) by (apply Z.pow_pos_nonneg; lia).
  assert (Hp2 : 0 < 2 ^ n2) by (apply Z.pow_pos_nonneg; lia).
  assert (Hm1 : 0 <= shr_m (f1 mrs)) by (rewrite Hq1; apply Z.div_pos; lia).
  destruct (H2 (f1 mrs) Hm1) as [Hq2 Hi2].
  rewrite Z.pow_add_r by lia.
  split.
  - rewrite Hq2, Hq1. apply Z.div_div; lia.
  - rewrite Hi2, Hi1, Hq1.
    rewrite Z.rem_mul_r by lia.
    pose proof (Z.mod_pos_bound (shr_m mrs) (2 ^ n1) Hp1).
    pose proof (Z.mod_pos_bound (shr_m mrs / 2 ^ n1) (2 ^ n2) Hp2).
    split.
    + intros [[Hi Ha] Hb]. split; [exact Hi |]. rewrite Ha, Hb. lia.
    + intros [Hi Hs]. split; [split; [exact Hi |] |]; nia.
Qed.

Lemma shifts_iter (p : positive) : shifts (Zpos p) (iter_pos shr_1 p).
Proof.
  induction p as [p IH | p IH |].
  - replace (Zpos p~1) with (1 + (Zpos p + Zpos p)) by lia.
    change (iter_pos shr_1 p~1)
      with (fun mrs => (fun x => iter_pos shr_1 p (iter_pos shr_1 p x)) (shr_1 mrs)).
    apply shifts_compose; [lia | lia | exact shifts_1 |].
    apply shifts_compose; [lia | lia | exact IH | exact IH].
  - replace (Zpos p~0) with (Zpos p + Zpos p) by lia.
    change (iter_pos shr_1 p~0)
      with (fun mrs => iter_pos shr_1 p (iter_pos shr_1 p mrs)).
    apply shifts_compose; [lia | lia | exact IH | exact IH].
  - exact shifts_1.
Qed.

Lemma digits2_pos_bound (m : positive) :
  forall k, 0 <= k -> Zpos m < 2 ^ k -> Zpos (digits2_pos m) <= k.
Proof.
  induction m as [m IH | m IH |]; intros k Hk Hlt.
  - assert (k <> 0) by (intros ->; simpl in Hlt; lia).
    replace k with (Z.succ (k - 1)) in Hlt by lia.
    rewrite Z.pow_succ_r in Hlt by lia.
    specialize (IH (k - 1) ltac:(lia) ltac:(lia)).
    simpl. lia.
  - assert (k <> 0) by (intros ->; simpl in Hlt; lia).
    replace k with (Z.succ (k - 1)) in Hlt by lia.
    rewrite Z.pow_succ_r in Hlt by lia.
    specialize (IH (k - 1) ltac:(lia) ltac:(lia)).
    simpl. lia.
  - assert (k <> 0) by (intros ->; simpl in Hlt; lia).
    simpl. lia.
Qed.

Lemma Zdigits2_bound (m k : Z) :
  0 <= m -> 0 <= k -> m < 2 ^ k -> Zdigits2 m <= k.
Proof.
  intros Hm Hk Hlt. destruct m as [| p | p]; simpl; [lia | | lia].
  apply digits2_pos_bound; assumption.
Qed.

(** Rounding to nearest, ties to even, of a shifted mantissa: the mantissa
    or the next, and the mantissa itself when nothing was lost. *)
Lemma round_nearest_even_range (mrs : shr_record) :
  let m := round_nearest_even (shr_m mrs) (loc_of_shr_record mrs) in
  shr_m mrs <= m <= shr_m mrs + 1 /\ (inexact mrs = false -> m = shr_m mrs).
Proof.
  destruct mrs as [m r s]. unfold inexact. simpl.
  destruct r, s; simpl; try destruct (Z.even m); split; try lia;
    intros; try discriminate; reflexivity.
Qed.

(** [fexp] of binary64. *)
Lemma fexp_binary64 (e : Z) : fexp prec emax e = Z.max (e - 53) (-1074).
Proof. reflexivity. Qed.

(** The shift [shr_fexp] makes: none, or [n > 0] bits down to the exponent
    [fexp (digits m + e)]. *)
Lemma shr_fexp_spec (m e : Z) :
  0 <= m ->
  let res := shr_fexp prec emax m e loc_Exact in
  (snd res = e /\ shr_m (fst res) = m /\ inexact (fst res) = false) \/
  (exists n, 0 < n /\ snd res = e + n /\
             snd res = Z.max (Zdigits2 m + e - 53) (-1074) /\
             shr_m (fst res) = m / 2 ^ n /\
             (inexact (fst res) = false <-> m mod 2 ^ n = 0)).
Proof.
  intros Hm. unfold shr_fexp, shr. rewrite fexp_binary64.
  cbn [shr_record_of_loc].
  destruct (Z.max (Zdigits2 m + e - 53) (-1074) - e) as [| n | n] eqn:Hn.
  - left. repeat split.
  - right. exists (Zpos n). cbn [fst snd].
    destruct (shifts_iter n {| shr_m := m; shr_r := false; shr_s := false |} Hm)
      as [Hq Hi].
    cbn [shr_m] in Hq, Hi.
    repeat split; try lia; try exact Hq.
    + intros H. apply Hi in H. apply H.
    + intros H. apply Hi. split; [reflexivity | exact H].
  - left. repeat split.
Qed.

(** A mantissa within the bounds stays within them when its low bits are
    dropped to reach the exponent of its binade. *)
Lemma truncate_between (k A B m e : Z) :
  0 <= k <= 1074 -> 0 <= A <= B -> B < 2 ^ 53 ->
  0 <= m -> e <= - k ->
  A * 2 ^ (- e - k) <= m <= B * 2 ^ (- e - k) ->
  let res := shr_fexp prec emax m e loc_Exact in
  snd res <= - k /\
  A * 2 ^ (- snd res - k) <= shr_m (fst res) <= B * 2 ^ (- snd res - k).
Proof.
  intros Hk HA HB Hm He Hb.
  destruct (shr_fexp_spec m e Hm) as [(He1 & Hm1 & _) | (n & Hn & He1 & Hfexp & Hm1 & _)];
    cbv zeta; rewrite ?He1, ?Hm1.
  - split; [exact He | exact Hb].
  - assert (Hdig : Zdigits2 m + e - 53 <= - k).
    { assert (Hlt : m < 2 ^ (53 - e - k)).
      { replace (53 - e - k) with (53 + (- e - k)) by lia.
        rewrite Z.pow_add_r by lia.
        assert (0 < 2 ^ (- e - k)) by (apply Z.pow_pos_nonneg; lia). nia. }
      pose proof (Zdigits2_bound m (53 - e - k) Hm ltac:(lia) Hlt). lia. }
    assert (Hle : e + n <= - k) by lia.
    split; [exact Hle |].
    assert (Hsplit : 2 ^ (- e - k) = 2 ^ (- (e + n) - k) * 2 ^ n).
    { rewrite <- Z.pow_add_r by lia. f_equal. lia. }
    assert (Hpn : 0 < 2 ^ n) by (apply Z.pow_pos_nonneg; lia).
    assert (Hpe : 0 < 2 ^ (- (e + n) - k)) by (apply Z.pow_pos_nonneg; lia).
    rewrite Hsplit in Hb. split.
    + apply Z.div_le_lower_bound; [exact Hpn | nia].
    + apply Z.div_le_upper_bound; [exact Hpn | nia].
Qed.

(** The same for the first shift of a rounding, which goes to the nearest
    mantissa instead of down. *)
Lemma round_between (k A B m e : Z) :
  0 <= k <= 1074 -> 0 <= A <= B -> B < 2 ^ 53 ->
  0 <= m -> e <= - k ->
  A * 2 ^ (- e - k) <= m <= B * 2 ^ (- e - k) ->
  let res := shr_fexp prec emax m e loc_Exact in
  let m1 := round_nearest_even (shr_m (fst res)) (loc_of_shr_record (fst res)) in
  snd res <= - k /\
  A * 2 ^ (- snd res - k) <= m1 <= B * 2 ^ (- snd res - k).
Proof.
  intros Hk HA HB Hm He Hb. cbv zeta.
  pose proof (truncate_between k A B m e Hk HA HB Hm He Hb) as Htr.
  cbv zeta in Htr. destruct Htr as [He1 Hb1].
  pose proof (round_nearest_even_range (fst (shr_fexp prec emax m e loc_Exact)))
    as Hr. cbv zeta in Hr. destruct Hr as [Hrange Hexact].
  split; [exact He1 |]. split; [lia |].
  destruct (shr_fexp_spec m e Hm)
    as [(He' & Hm' & Hi') | (n & Hn & He' & Hfexp & Hm' & Hi')].
  - rewrite (Hexact Hi'). lia.
  - destruct (inexact (fst (shr_fexp prec emax m e loc_Exact))) eqn:Hinex.
    + assert (Hrem : m mod 2 ^ n <> 0).
      { intros H0. apply Hi' in H0. discriminate. }
      assert (Hpn : 0 < 2 ^ n) by (apply Z.pow_pos_nonneg; lia).
      pose proof (Z.div_mod m (2 ^ n) ltac:(lia)) as Hdm.
      pose proof (Z.mod_pos_bound m (2 ^ n) Hpn) as Hmod.
      assert (Hsplit : 2 ^ (- e - k) = 2 ^ (- (e + n) - k) * 2 ^ n).
      { rewrite <- Z.pow_add_r by lia. f_equal. lia. }
      rewrite Hsplit in Hb. rewrite He'.
      assert (Hlt : m / 2 ^ n < B * 2 ^ (- (e + n) - k)) by nia.
      rewrite <- Hm' in Hlt. lia.
    + rewrite (Hexact eq_refl). lia.
Qed.

(** The rounding of [m * 2^e] stays between two bounds that are themselves
    [float64] values, here [A / 2^k] and [B / 2^k] with [A, B < 2^53]. *)
Lemma binary_round_aux_between (k A B : Z) (m : positive) (e : Z) :
  0 <= k <= 1074 -> 0 <= A <= B -> B < 2 ^ 53 ->
  e <= - k ->
  A * 2 ^ (- e - k) <= Zpos m <= B * 2 ^ (- e - k) ->
  between k A B (binary_round_aux prec emax false (Zpos m) e loc_Exact).
Proof.
  intros Hk HA HB He Hb. unfold binary_round_aux.
  pose proof (round_between k A B (Zpos m) e Hk HA HB ltac:(lia) He Hb) as H1.
  cbv zeta in H1.
  destruct (shr_fexp prec emax (Zpos m) e loc_Exact) as [mrs1 e1].
  cbn [fst snd] in H1. destruct H1 as [He1 Hb1].
  set (m1 := round_nearest_even (shr_m mrs1) (loc_of_shr_record mrs1)) in *.
  assert (Hp1 : 0 < 2 ^ (- e1 - k)) by (apply Z.pow_pos_nonneg; lia).
  pose proof (truncate_between k A B m1 e1 Hk HA HB ltac:(nia) He1 Hb1) as H2.
  cbv zeta in H2.
  destruct (shr_fexp prec emax m1 e1 loc_Exact) as [mrs2 e2].
  cbn [fst snd] in H2. destruct H2 as [He2 Hb2].
  assert (Hp2 : 0 < 2 ^ (- e2 - k)) by (apply Z.pow_pos_nonneg; lia).
  destruct (shr_m mrs2) as [| m2 | m2].
  - simpl. nia.
  - destruct (Z.leb_spec e2 (emax - prec)) as [_ | Hgt].
    + simpl. split; [exact He2 | exact Hb2].
    + unfold emax, prec in Hgt. lia.
  - nia.
Qed.

(** [Pos.iter xO m d] is [m * 2^d]. *)
Lemma iter_xO (m d : positive) : Zpos (Pos.iter xO m d) = Zpos m * 2 ^ Zpos d.
Proof.
  change (Pos.iter xO m d) with (shift_pos d m).
  rewrite shift_pos_correct. rewrite Z.pow_pos_fold. lia.
Qed.

Lemma shl_align_spec (m : positive) (e e' : Z) :
  let res := shl_align m e e' in
  snd res <= e /\ Zpos (fst res) = Zpos m * 2 ^ (e - snd res).
Proof.
  unfold shl_align. destruct (e' - e) as [| d | d] eqn:Hd; cbn [fst snd].
  - rewrite Z.sub_diag. simpl. lia.
  - rewrite Z.sub_diag. simpl. lia.
  - rewrite iter_xO. split; [lia |]. f_equal. f_equal. lia.
Qed.

(** The same for [binary_normalize], which rounds the integer [n] scaled by
    [2^e]. *)
Lemma binary_normalize_between (k A B n e : Z) (szero : bool) :
  0 <= k <= 1074 -> 0 <= A <= B -> B < 2 ^ 53 ->
  e <= - k ->
  A * 2 ^ (- e - k) <= n <= B * 2 ^ (- e - k) ->
  between k A B (binary_normalize prec emax n e szero).
Proof.
  intros Hk HA HB He Hb.
  assert (Hp : 0 < 2 ^ (- e - k)) by (apply Z.pow_pos_nonneg; lia).
  destruct n as [| m | m]; [simpl; nia | | nia].
  unfold binary_normalize, binary_round.
  pose proof (shl_align_spec m e
                (fexp prec emax (Zpos (digits2_pos m) + e))) as Hal.
  cbv zeta in Hal.
  destruct (shl_align m e (fexp prec emax (Zpos (digits2_pos m) + e))) as [mz ez].
  cbn [fst snd] in Hal. destruct Hal as [Hez Hmz].
  apply binary_round_aux_between; try assumption; [lia |].
  rewrite Hmz.
  replace (- ez - k) with ((- e - k) + (e - ez)) by lia.
  rewrite Z.pow_add_r by lia.
  assert (0 < 2 ^ (e - ez)) by (apply Z.pow_pos_nonneg; lia).
  nia.
Qed.

Lemma digits2_pos_upper (m : positive) : Zpos m < 2 ^ Zpos (digits2_pos m).
Proof.
  induction m as [m IH | m IH |]; cbn [digits2_pos];
    rewrite ?Pos2Z.inj_succ, ?Z.pow_succ_r by lia; lia.
Qed.

Lemma digits2_pos_lower (m : positive) : 2 ^ (Zpos (digits2_pos m) - 1) <= Zpos m.
Proof.
  induction m as [m IH | m IH |]; cbn [digits2_pos];
    rewrite ?Pos2Z.inj_succ;
    try (replace (Z.succ (Zpos (digits2_pos m)) - 1)
           with (Z.succ (Zpos (digits2_pos m) - 1)) by lia;
         rewrite Z.pow_succ_r by lia; lia).
  change (2 ^ (1 - 1)) with 1. lia.
Qed.

Lemma between_weaken (k A B A' B' : Z) (x : float64) :
  A' <= A -> B <= B' -> between k A B x -> between k A' B' x.
Proof.
  intros HA HB. destruct x as [s | s | | [|] m e]; cbn [between]; try tauto; [lia |].
  intros [He Hb]. split; [exact He |].
  assert (0 < 2 ^ (- e - k)) by (apply Z.pow_pos_nonneg; lia). nia.
Qed.

(** The literals, computed. *)
Lemma one_eq : one = S754_finite false 4503599627370496 (-52).
Proof. vm_compute. reflexivity. Qed.

Lemma half_eq : half = S754_finite false 4503599627370496 (-53).
Proof. vm_compute. reflexivity. Qed.

Lemma unit_draw_inv (x : float64) :
  unit_draw x = true ->
  (exists s, x = S754_zero s) \/
  (exists m e, x = S754_finite false m e /\ e <= -53 /\ Zpos m < 2 ^ 53).
Proof.
  unfold unit_draw. rewrite one_eq, !andb_true_iff. intros [[Hvalid Hge] Hlt].
  destruct x as [s | s | | s m e].
  - left. exists s. reflexivity.
  - destruct s; [discriminate Hge | discriminate Hlt].
  - discriminate Hge.
  - right. destruct s; [discriminate Hge |]. exists m, e.
    split; [reflexivity |].
    unfold valid, valid_binary, bounded, canonical_mantissa in Hvalid.
    apply andb_true_iff in Hvalid. destruct Hvalid as [Hcanon _].
    apply Z.eqb_eq in Hcanon. rewrite fexp_binary64 in Hcanon.
    pose proof (digits2_pos_upper m) as Hup.
    pose proof (digits2_pos_lower m) as Hlo.
    assert (Hd : Zpos (digits2_pos m) <= 53) by (clear Hup Hlo Hlt Hge; lia).
    assert (Hm : Zpos m < 2 ^ 53).
    { eapply Z.lt_le_trans; [exact Hup |]. apply Z.pow_le_mono_r; lia. }
   
    split; [| exact Hm].
    unfold ltb, SFltb, SFcompare in Hlt.
    destruct (Z.compare_spec e (-52)) as [Heq | Hlt' | Hgt].
    + subst e. exfalso.
      assert (Hd53 : Zpos (digits2_pos m) = 53) by (clear Hup Hlo Hlt Hge Hm; lia).
      rewrite Hd53 in Hlo. change (2 ^ (53 - 1)) with 4503599627370496 in Hlo.
      rewrite Pos.compare_cont_spec in Hlt. cbn [Pos.switch_Eq] in Hlt.
     
      destruct (Pos.compare_spec m 4503599627370496) as [H | H | H].
      * discriminate Hlt.
      * clear - H Hlo. apply Pos2Z.pos_lt_pos in H. lia.
      * discriminate Hlt.
    + lia.
    + discriminate Hlt.
Qed.

Lemma shl_align_target (m : positive) (e e' : Z) :
  e' <= e ->
  snd (shl_align m e e') = e' /\ Zpos (fst (shl_align m e e')) = Zpos m * 2 ^ (e - e').
Proof.
  intros Hle. unfold shl_align.
  destruct (e' - e) as [| d | d] eqn:Hd; cbn [fst snd].
  - assert (e' = e) by lia. subst e'. rewrite Z.sub_diag, Z.pow_0_r. lia.
  - lia.
  - rewrite iter_xO. split; [reflexivity |]. f_equal. f_equal. lia.
Qed.

(** [float64(n)] is [n] when [0 <= n < 2^53]. *)
Lemma of_int64_between (n : Z) : 0 <= n < 2 ^ 53 -> between 0 n n (of_int64 n).
Proof.
  intros Hn. unfold of_int64, of_scaled.
  apply binary_normalize_between;
    rewrite ?Z.sub_0_r, ?Z.opp_0, ?Z.pow_0_r; lia.
Qed.

(** The product of two values within bounds. *)
Lemma mul_between (k1 A1 B1 k2 A2 B2 : Z) (x y : float64) :
  0 <= k1 -> 0 <= k2 -> k1 + k2 <= 1074 ->
  0 <= A1 <= B1 -> 0 <= A2 <= B2 -> B1 * B2 < 2 ^ 53 ->
  between k1 A1 B1 x -> between k2 A2 B2 y ->
  between (k1 + k2) (A1 * A2) (B1 * B2) (mul x y).
Proof.
  intros Hk1 Hk2 Hk HA1 HA2 HB Hx Hy.
  destruct x as [sx | sx | | [|] mx ex]; cbn [between] in Hx; try tauto;
    destruct y as [sy | sy | | [|] my ey]; cbn [between] in Hy; try tauto;
    try (unfold mul, SFmul; cbn [between]; nia).
  destruct Hx as [Hex Hbx]. destruct Hy as [Hey Hby].
  unfold mul, SFmul. cbn [xorb].
  assert (Hpx : 0 < 2 ^ (- ex - k1)) by (apply Z.pow_pos_nonneg; lia).
  assert (Hpy : 0 < 2 ^ (- ey - k2)) by (apply Z.pow_pos_nonneg; lia).
  apply binary_round_aux_between; try lia; [nia |].
  replace (- (ex + ey) - (k1 + k2)) with ((- ex - k1) + (- ey - k2)) by lia.
  rewrite Z.pow_add_r by lia. rewrite Pos2Z.inj_mul.
  set (tx := 2 ^ (- ex - k1)) in *. set (ty := 2 ^ (- ey - k2)) in *.
  split.
  - replace (A1 * A2 * (tx * ty)) with ((A1 * tx) * (A2 * ty)) by ring.
    apply Z.mul_le_mono_nonneg; nia.
  - replace (B1 * B2 * (tx * ty)) with ((B1 * tx) * (B2 * ty)) by ring.
    apply Z.mul_le_mono_nonneg; lia.
Qed.

(** The product of a draw, which is below 1, and a value within bounds. *)
Lemma mul_unit_between (A B : Z) (x y : float64) :
  0 <= A <= B -> B < 2 ^ 53 ->
  unit_draw x = true -> between 0 A B y ->
  between 0 0 B (mul x y).
Proof.
  intros HA HB Hx Hy.
  destruct (unit_draw_inv x Hx) as [[s ->] | (mx & ex & -> & Hex & Hmx)];
    destruct y as [sy | sy | | [|] my ey]; cbn [between] in Hy; try tauto;
    try (unfold mul, SFmul; cbn [between]; lia).
  destruct Hy as [Hey Hby]. rewrite Z.sub_0_r in Hby.
  unfold mul, SFmul. cbn [xorb].
  assert (Hpy : 0 < 2 ^ (- ey)) by (apply Z.pow_pos_nonneg; lia).
  assert (Hpx : 2 ^ 53 <= 2 ^ (- ex)) by (apply Z.pow_le_mono_r; lia).
  apply binary_round_aux_between; try lia.
  rewrite Z.sub_0_r.
  replace (- (ex + ey)) with ((- ex) + (- ey)) by lia.
  rewrite Z.pow_add_r by lia. rewrite Pos2Z.inj_mul.
  set (tx := 2 ^ (- ex)) in *. set (ty := 2 ^ (- ey)) in *.
  split; [lia |].
  replace (B * (tx * ty)) with (tx * (B * ty)) by ring.
  apply Z.mul_le_mono_nonneg; lia.
Qed.

(** Two mantissas brought to the smaller of their exponents. *)
Lemma aligned (mx my : positive) (ex ey : Z) :
  let ez := Z.min ex ey in
  Zpos (fst (shl_align mx ex ez)) = Zpos mx * 2 ^ (ex - ez) /\
  Zpos (fst (shl_align my ey ez)) = Zpos my * 2 ^ (ey - ez).
Proof.
  cbv zeta. split; apply shl_align_target; lia.
Qed.

Lemma pow2_split (e ez : Z) :
  ez <= e -> e <= 0 -> 2 ^ (- ez) = 2 ^ (- e) * 2 ^ (e - ez).
Proof. intros H1 H2. rewrite <- Z.pow_add_r by lia. f_equal. lia. Qed.

(** The sum of two values within bounds. *)
Lemma add_between (A1 B1 A2 B2 : Z) (x y : float64) :
  0 <= A1 <= B1 -> 0 <= A2 <= B2 -> B1 + B2 < 2 ^ 53 ->
  between 0 A1 B1 x -> between 0 A2 B2 y ->
  between 0 (A1 + A2) (B1 + B2) (add x y).
Proof.
  intros HA1 HA2 HB Hx Hy.
  destruct x as [sx | sx | | [|] mx ex]; cbn [between] in Hx; try tauto;
    destruct y as [sy | sy | | [|] my ey]; cbn [between] in Hy; try tauto.
  - unfold add, SFadd. destruct sx, sy; cbn [between]; lia.
  - unfold add, SFadd.
    apply (between_weaken 0 A2 B2); [lia | lia | exact Hy].
  - unfold add, SFadd.
    apply (between_weaken 0 A1 B1); [lia | lia | exact Hx].
  - destruct Hx as [Hex Hbx]. destruct Hy as [Hey Hby].
    rewrite Z.sub_0_r in Hbx, Hby.
    unfold add, SFadd. cbn [cond_Zopp].
    destruct (aligned mx my ex ey) as [Hmx Hmy]. rewrite Hmx, Hmy.
    set (ez := Z.min ex ey) in *.
    assert (Hez : ez <= ex /\ ez <= ey /\ ez <= 0) by (unfold ez; lia).
    apply binary_normalize_between; try lia.
    rewrite Z.sub_0_r.
    assert (0 < 2 ^ (ex - ez)) by (apply Z.pow_pos_nonneg; lia).
    assert (0 < 2 ^ (ey - ez)) by (apply Z.pow_pos_nonneg; lia).
    rewrite !Z.mul_add_distr_r.
    rewrite (pow2_split ex ez) at 1 3 by lia.
    rewrite (pow2_split ey ez) by lia.
    set (tx := 2 ^ (- ex)) in *. set (ty := 2 ^ (- ey)) in *.
    set (ux := 2 ^ (ex - ez)) in *. set (uy := 2 ^ (ey - ez)) in *.
    rewrite !Z.mul_assoc.
    split; apply Z.add_le_mono; apply Z.mul_le_mono_nonneg_r; lia.
Qed.

(** The difference of two integers held exactly. *)
Lemma sub_between (n1 n2 : Z) (x y : float64) :
  0 <= n2 <= n1 -> n1 < 2 ^ 53 ->
  between 0 n1 n1 x -> between 0 n2 n2 y ->
  between 0 (n1 - n2) (n1 - n2) (sub x y).
Proof.
  intros Hn HB Hx Hy.
  destruct x as [sx | sx | | [|] mx ex]; cbn [between] in Hx; try tauto;
    destruct y as [sy | sy | | [|] my ey]; cbn [between] in Hy; try tauto.
  - unfold sub, SFsub. destruct sx, sy; cbn [between]; lia.
  - exfalso. destruct Hy as [Hey Hby]. rewrite Z.sub_0_r in Hby.
    assert (0 < 2 ^ (- ey)) by (apply Z.pow_pos_nonneg; lia). nia.
  - unfold sub, SFsub.
    apply (between_weaken 0 n1 n1); [lia | lia | exact Hx].
  - destruct Hx as [Hex Hbx]. destruct Hy as [Hey Hby].
    rewrite Z.sub_0_r in Hbx, Hby.
    unfold sub, SFsub. cbn [cond_Zopp].
    destruct (aligned mx my ex ey) as [Hmx Hmy]. rewrite Hmx, Hmy.
    set (ez := Z.min ex ey) in *.
    assert (Hez : ez <= ex /\ ez <= ey /\ ez <= 0) by (unfold ez; lia).
    apply binary_normalize_between; try lia.
    rewrite Z.sub_0_r.
    assert (Ex : Zpos mx = n1 * 2 ^ (- ex)) by lia.
    assert (Ey : Zpos my = n2 * 2 ^ (- ey)) by lia.
    rewrite Ex, Ey, Z.mul_sub_distr_r.
    rewrite (pow2_split ex ez) at 1 3 by lia.
    rewrite (pow2_split ey ez) by lia.
    rewrite !Z.mul_assoc. lia.
Qed.

(** [x + 1.0] for a draw [x]. *)
Lemma add_unit_one (x : float64) :
  unit_draw x = true -> between 0 1 2 (add x one).
Proof.
  intros Hx. rewrite one_eq.
  destruct (unit_draw_inv x Hx) as [[s ->] | (mx & ex & -> & Hex & Hmx)].
  - unfold add, SFadd. cbn [between]. split; [lia |].
    rewrite Z.sub_0_r. change (2 ^ (- -52)) with 4503599627370496. lia.
  - unfold add, SFadd. cbn [cond_Zopp].
    destruct (aligned mx 4503599627370496 ex (-52)) as [Hm1 Hm2].
    rewrite Hm1, Hm2.
    replace (Z.min ex (-52)) with ex by lia. rewrite Z.sub_diag, Z.pow_0_r.
    assert (Hp : 2 ^ (- ex) = 4503599627370496 * 2 ^ (-52 - ex)).
    { change 4503599627370496 with (2 ^ 52). rewrite <- Z.pow_add_r by lia.
      f_equal. lia. }
    assert (Hpx : 2 ^ 53 <= 2 ^ (- ex)) by (apply Z.pow_le_mono_r; lia).
    apply binary_normalize_between; try lia.
    rewrite Z.sub_0_r, <- Hp. lia.
Qed.

Lemma half_between : between 1 1 1 half.
Proof.
  rewrite half_eq. cbn [between]. split; [lia |].
  change (2 ^ (- -53 - 1)) with 4503599627370496. lia.
Qed.

(** [int64(x)] of a value within bounds. *)
Lemma to_int64_between (k A B : Z) (x : float64) :
  0 <= k -> 0 <= A <= B -> B / 2 ^ k <= MaxInt64 ->
  between k A B x ->
  A / 2 ^ k <= to_int64 x <= B / 2 ^ k.
Proof.
  intros Hk HA HB Hx.
  assert (Hpk : 0 < 2 ^ k) by (apply Z.pow_pos_nonneg; lia).
  destruct x as [s | s | | [|] m e]; cbn [between] in Hx; try tauto.
  - cbn [to_int64]. assert (A = 0) by lia. subst A.
    rewrite Z.div_0_l by lia. split; [lia |]. apply Z.div_pos; lia.
  - destruct Hx as [He Hb].
    assert (Hpt : 0 < 2 ^ (- e - k)) by (apply Z.pow_pos_nonneg; lia).
    assert (Hv : trunc_scaled m e = Zpos m / 2 ^ (- e - k) / 2 ^ k).
    { unfold trunc_scaled. rewrite Z.div_div by lia.
      rewrite <- Z.pow_add_r by lia.
      replace (- e - k + k) with (- e) by lia.
      destruct (Z.leb_spec 0 e) as [H0 | Hneg].
      - assert (e = 0) by lia. subst e.
        rewrite Z.shiftl_0_r, Z.opp_0, Z.pow_0_r, Z.div_1_r. reflexivity.
      - rewrite Z.shiftr_div_pow2 by lia. reflexivity. }
    assert (Hrange : A / 2 ^ k <= trunc_scaled m e <= B / 2 ^ k).
    { rewrite Hv. split; apply Z.div_le_mono; try exact Hpk.
      - apply Z.div_le_lower_bound; [exact Hpt | lia].
      - apply Z.div_le_upper_bound; [exact Hpt | lia]. }
    assert (H0 : 0 <= A / 2 ^ k) by (apply Z.div_pos; lia).
    unfold to_int64.
    destruct (Z.leb_spec MinInt64 (trunc_scaled m e)) as [_ | Hlt];
      [| unfold MinInt64 in Hlt; lia].
    destruct (Z.leb_spec (trunc_scaled m e) MaxInt64) as [_ | Hgt]; [| lia].
    exact Hrange.
Qed.

(** ** Exponential backoff *)

Lemma geb_63_true (i : Z) : 63 <= i -> (i >=? numUint64Bits - 1) = true.
Proof. intros H. rewrite Z.geb_leb. apply Z.leb_le. unfold numUint64Bits. lia. Qed.

Lemma geb_63_false (i : Z) : i < 63 -> (i >=? numUint64Bits - 1) = false.
Proof. intros H. rewrite Z.geb_leb. apply Z.leb_gt. unfold numUint64Bits. lia. Qed.

(** [1 << i] for [i < 63]: no bit is lost. *)
Lemma multiplier_pow2 (i : Z) :
  0 <= i < 63 -> wrap_int64 (Z.shiftl 1 i) = 2 ^ i /\ 1 <= 2 ^ i <= 2 ^ 62.
Proof.
  intros Hi. rewrite Z.shiftl_1_l.
  assert (H1 : 2 ^ 0 <= 2 ^ i) by (apply Z.pow_le_mono_r; lia).
  assert (H2 : 2 ^ i <= 2 ^ 62) by (apply Z.pow_le_mono_r; lia).
  split; [| lia].
  apply wrap_int64_small. unfold is_int64, MinInt64, MaxInt64. lia.
Qed.

(** The test [minWait > maxWait / multiplier] decides whether the product
    passes [maxWait], without computing the product. *)
Lemma quot_guard (m M k : Z) :
  0 <= M -> 0 < k -> (m > Z.quot M k <-> M < m * k).
Proof.
  intros HM Hk. rewrite Z.quot_div_nonneg by lia.
  pose proof (Z.div_mod M k ltac:(lia)) as Hdm.
  pose proof (Z.mod_pos_bound M k Hk) as Hmod.
  split; intros H; nia.
Qed.

(** The duration of the exponential backoff before the jitter. *)
Lemma exponential_duration (m M i : Z) :
  0 <= m <= M -> M <= MaxInt64 -> 0 <= i < 63 ->
  (if m >? Z.quot M (wrap_int64 (Z.shiftl 1 i)) then M
   else wrap_int64 (m * wrap_int64 (Z.shiftl 1 i)))
  = Z.min M (m * 2 ^ i).
Proof.
  intros Hm HM Hi. unfold MaxInt64 in HM.
  destruct (multiplier_pow2 i Hi) as [Hmul Hpow]. rewrite Hmul.
  destruct (Z.gtb_spec m (Z.quot M (2 ^ i))) as [Hgt | Hle].
  - apply Z.lt_gt, quot_guard in Hgt; lia.
  - assert (Hprod : m * 2 ^ i <= M).
    { destruct (Z.le_gt_cases (m * 2 ^ i) M) as [H | H]; [exact H |].
      apply quot_guard in H; lia. }
    rewrite wrap_int64_small by (unfold is_int64, MinInt64, MaxInt64; nia).
    lia.
Qed.

(** Without jitter and with [0 < minWait <= maxWait], [getDuration] is
    [min(maxWait, minWait * 2^i)], computed over the integers, and the random
    source is not used. *)
Lemma exponential_no_jitter (m M i : Z) (rnd : Rand) :
  0 < m <= M -> M <= MaxInt64 -> is_uint64 i ->
  ExponentialBackoff.getDuration
    {| ExponentialBackoff.minWait := m; ExponentialBackoff.maxWait := M;
       ExponentialBackoff.jitter := false |} i rnd
  = (Z.min M (m * 2 ^ i), rnd).
Proof.
  intros Hm HM Hi. unfold is_uint64 in Hi.
  unfold ExponentialBackoff.getDuration.
  cbn [ExponentialBackoff.minWait ExponentialBackoff.maxWait ExponentialBackoff.jitter].
  destruct (Z.lt_ge_cases i 63) as [Hlt | Hge].
  - rewrite geb_63_false by exact Hlt.
    rewrite exponential_duration by (try assumption; lia).
    assert (H0 : 2 ^ 0 <= 2 ^ i) by (apply Z.pow_le_mono_r; lia).
    rewrite Z.pow_0_r in H0.
    unfold maxInt64.
    destruct (Z.gtb_spec (Z.min M (m * 2 ^ i)) m); f_equal; nia.
  - rewrite geb_63_true by lia. unfold MaxInt64 in HM.
    assert (H63 : 2 ^ 63 <= 2 ^ i) by (apply Z.pow_le_mono_r; lia).
    f_equal. nia.
Qed.

(** C5, amended. For the exponential backoff without jitter and
    [0 < minWait <= maxWait], [getDuration(i)] is
    [min(maxWait, minWait * 2^i)] as computed over the integers, hence never
    negative nor wrapped around: it lies between [minWait] and [maxWait].
    For [minWait = 100] and [maxWait = 30000] the values for [i = 0..9] are
    100, 200, ..., 25600, 30000, and 30000 for every larger [i]. *)
Theorem exponential_getDuration_no_jitter :
  (forall (m M i : Z) (rnd : Rand),
     0 < m <= M -> M <= MaxInt64 -> is_uint64 i ->
     let d := fst (ExponentialBackoff.getDuration
                     {| ExponentialBackoff.minWait := m;
                        ExponentialBackoff.maxWait := M;
                        ExponentialBackoff.jitter := false |} i rnd) in
     d = Z.min M (m * 2 ^ i) /\ m <= d <= M) /\
  (forall rnd : Rand,
     let b := {| ExponentialBackoff.minWait := 100;
                 ExponentialBackoff.maxWait := 30000;
                 ExponentialBackoff.jitter := false |} in
     map (fun i => fst (ExponentialBackoff.getDuration b i rnd))
         [0; 1; 2; 3; 4; 5; 6; 7; 8; 9]
       = [100; 200; 400; 800; 1600; 3200; 6400; 12800; 25600; 30000] /\
     forall i, 9 < i < 2 ^ 64 ->
       fst (ExponentialBackoff.getDuration b i rnd) = 30000).
Proof.
  split.
  - intros m M i rnd Hm HM Hi. cbv zeta.
    rewrite exponential_no_jitter by assumption. cbn [fst].
    split; [reflexivity |].
    assert (H0 : 2 ^ 0 <= 2 ^ i)
      by (apply Z.pow_le_mono_r; unfold is_uint64 in Hi; lia).
    nia.
  - intros rnd. cbv zeta. split; [reflexivity |].
    intros i Hi.
    rewrite exponential_no_jitter
      by (unfold MaxInt64, is_uint64; lia).
    cbn [fst].
    assert (H10 : 2 ^ 10 <= 2 ^ i) by (apply Z.pow_le_mono_r; lia).
    change (2 ^ 10) with 1024 in H10. lia.
Qed.

Lemma exponential_getDuration_no_jitter_witness :
  let d := fst (ExponentialBackoff.getDuration
                  {| ExponentialBackoff.minWait := 100;
                     ExponentialBackoff.maxWait := MaxInt64;
                     ExponentialBackoff.jitter := false |} 62 (rand_of_list [])) in
  d = Z.min MaxInt64 (100 * 2 ^ 62) /\ 100 <= d <= MaxInt64.
Proof.
  apply (proj1 exponential_getDuration_no_jitter 100 MaxInt64 62 (rand_of_list [])).
  - unfold MaxInt64. lia.
  - lia.
  - unfold is_uint64. lia.
Defined.

(** C5 as it is stated fails when [minWait > maxWait]: the final clamp
    ("never sleep less than the minimum") gives [minWait = 100], not
    [min(maxWait, minWait * 2^i) = 50]. It also fails for [minWait = 0] from
    iteration 63 on, where [maxWait] is returned and not 0. *)
Lemma exponential_minWait_above_maxWait :
  (let b := {| ExponentialBackoff.minWait := 100;
               ExponentialBackoff.maxWait := 50;
               ExponentialBackoff.jitter := false |} in
   fst (ExponentialBackoff.getDuration b 0 (rand_of_list [])) = 100 /\
   Z.min (ExponentialBackoff.maxWait b) (ExponentialBackoff.minWait b * 2 ^ 0) = 50 /\
   fst (ExponentialBackoff.getDuration b 0 (rand_of_list []))
     <> Z.min (ExponentialBackoff.maxWait b) (ExponentialBackoff.minWait b * 2 ^ 0)) /\
  (let b := {| ExponentialBackoff.minWait := 0;
               ExponentialBackoff.maxWait := 30000;
               ExponentialBackoff.jitter := false |} in
   fst (ExponentialBackoff.getDuration b 63 (rand_of_list [])) = 30000 /\
   Z.min (ExponentialBackoff.maxWait b) (ExponentialBackoff.minWait b * 2 ^ 63) = 0).
Proof.
  cbv zeta. split; [split; [reflexivity | split; [reflexivity |]] | split; reflexivity].
  vm_compute. discriminate.
Qed.

Lemma one_between : between 1 1 2 one.
Proof.
  rewrite one_eq. cbn [between]. split; [lia |].
  change (2 ^ (- -52 - 1)) with 2251799813685248. lia.
Qed.

Lemma one_exact : between 0 1 1 one.
Proof.
  rewrite one_eq. cbn [between]. split; [lia |].
  change (2 ^ (- -52 - 0)) with 4503599627370496. lia.
Qed.

(** The product of an integer held exactly and a factor in [[0.5, 1.0]]. *)
Lemma mul_factor_between (D : Z) (x f : float64) :
  0 <= D < 2 ^ 53 ->
  between 0 D D x -> between 1 1 2 f ->
  between 0 (D / 2) D (mul x f).
Proof.
  intros HD Hx Hf.
  assert (Hhalf : 0 <= D / 2 /\ 2 * (D / 2) <= D).
  { split; [apply Z.div_pos; lia | apply Z.mul_div_le; lia]. }
  destruct f as [sf | sf | | [|] mf ef]; cbn [between] in Hf; try tauto; [lia |].
  destruct Hf as [Hef Hbf].
  destruct x as [sx | sx | | [|] mx ex]; cbn [between] in Hx; try tauto.
  - unfold mul, SFmul. cbn [between]. lia.
  - destruct Hx as [Hex Hbx]. rewrite Z.sub_0_r in Hbx.
    unfold mul, SFmul. cbn [xorb].
    apply binary_round_aux_between; try lia.
    rewrite Z.sub_0_r.
    replace (- (ex + ef)) with ((- ex) + ((- ef - 1) + 1)) by lia.
    rewrite !Z.pow_add_r by lia. rewrite Z.pow_1_r, Pos2Z.inj_mul.
    assert (0 < 2 ^ (- ex)) by (apply Z.pow_pos_nonneg; lia).
    assert (0 < 2 ^ (- ef - 1)) by (apply Z.pow_pos_nonneg; lia).
    set (tx := 2 ^ (- ex)) in *. set (tf := 2 ^ (- ef - 1)) in *.
    assert (Ex : Zpos mx = D * tx) by lia. rewrite Ex.
    split.
    + replace (D / 2 * (tx * (tf * 2))) with ((2 * (D / 2) * tx) * tf) by ring.
      apply Z.mul_le_mono_nonneg; nia.
    + replace (D * (tx * (tf * 2))) with ((D * tx) * (2 * tf)) by ring.
      apply Z.mul_le_mono_nonneg_l; nia.
Qed.

(** The jittered duration of a duration [D] held exactly: within
    [[D / 2, D]] (integer division). *)
Lemma jittered_between (D : Z) (f : float64) :
  0 <= D < 2 ^ 53 -> between 1 1 2 f ->
  D / 2 <= to_int64 (mul (of_int64 D) f) <= D.
Proof.
  intros HD Hf.
  pose proof (mul_factor_between D _ f HD (of_int64_between D HD) Hf) as Hmul.
  assert (Hhalf : 0 <= D / 2 /\ 2 * (D / 2) <= D).
  { split; [apply Z.div_pos; lia | apply Z.mul_div_le; lia]. }
  pose proof (to_int64_between 0 (D / 2) D _ ltac:(lia) ltac:(lia)
                ltac:(rewrite Z.pow_0_r, Z.div_1_r; unfold MaxInt64; lia) Hmul)
    as Hint.
  rewrite Z.pow_0_r, !Z.div_1_r in Hint. exact Hint.
Qed.

(** The factor of the jitter, [0.5 * (x + 1.0)], lies in [[0.5, 1.0]]. *)
Lemma jitter_factor_between (x : float64) :
  unit_draw x = true -> between 1 1 2 (mul half (add x one)).
Proof.
  intros Hx.
  exact (mul_between 1 1 1 0 1 2 _ _ ltac:(lia) ltac:(lia) ltac:(lia)
           ltac:(lia) ltac:(lia) ltac:(lia) half_between (add_unit_one x Hx)).
Qed.

(** Where the jitter keeps its range. For the exponential backoff with
    jitter and [0 <= minWait <= maxWait < 2^53] (so that [float64] holds the
    duration), every returned duration is the unjittered value scaled by a
    factor in [[0.5, 1.0]] (the factor [0.5 * (x + 1.0)] of the draw [x]; 1.0
    from iteration 63 on), truncated, and then clamped from below to
    [minWait]; hence it lies in [[expected / 2, expected]], where [expected]
    is the unjittered value, and it is not below [minWait]. *)
Theorem exponential_jitter_below_2_53 (m M i : Z) (rnd : Rand) :
  0 <= m <= M -> M < 2 ^ 53 -> is_uint64 i ->
  unit_draw (draws rnd (taken rnd)) = true ->
  let expected :=
    fst (ExponentialBackoff.getDuration
           {| ExponentialBackoff.minWait := m; ExponentialBackoff.maxWait := M;
              ExponentialBackoff.jitter := false |} i rnd) in
  let d :=
    fst (ExponentialBackoff.getDuration
           {| ExponentialBackoff.minWait := m; ExponentialBackoff.maxWait := M;
              ExponentialBackoff.jitter := true |} i rnd) in
  (exists f, between 1 1 2 f /\
             d = maxInt64 (to_int64 (mul (of_int64 expected) f)) m) /\
  Z.quot expected 2 <= d <= expected /\ m <= d.
Proof.
  intros Hm H53 Hi Hx. cbv zeta.
  assert (HM : M <= MaxInt64) by (unfold MaxInt64; lia).
  unfold is_uint64 in Hi.
  unfold ExponentialBackoff.getDuration.
  cbn [ExponentialBackoff.minWait ExponentialBackoff.maxWait ExponentialBackoff.jitter
       rand_Float64].
  destruct (Z.lt_ge_cases i 63) as [Hlt | Hge].
  - rewrite geb_63_false by exact Hlt.
    rewrite exponential_duration by (try assumption; lia).
    assert (H0 : 2 ^ 0 <= 2 ^ i) by (apply Z.pow_le_mono_r; lia).
    rewrite Z.pow_0_r in H0.
    set (D := Z.min M (m * 2 ^ i)) in *.
    assert (HD : m <= D <= M) by (unfold D; nia).
    assert (Hexp : maxInt64 D m = D).
    { unfold maxInt64. destruct (Z.gtb_spec D m); lia. }
    cbn [fst]. rewrite Hexp.
    rewrite Z.quot_div_nonneg by lia.
    set (f := mul half (add (draws rnd (taken rnd)) one)).
    pose proof (jitter_factor_between _ Hx) as Hf. fold f in Hf.
    pose proof (jittered_between D f ltac:(lia) Hf) as Hj.
    split; [exists f; split; [exact Hf | reflexivity] |].
    unfold maxInt64.
    destruct (Z.gtb_spec (to_int64 (mul (of_int64 D) f)) m); lia.
  - rewrite geb_63_true by lia. cbn [fst].
    rewrite Z.quot_div_nonneg by lia.
    assert (M / 2 <= M) by (apply Z.div_le_upper_bound; lia).
    split; [| lia].
    exists one. split; [exact one_between |].
    pose proof (mul_between 0 M M 0 1 1 (of_int64 M) one
                  ltac:(lia) ltac:(lia) ltac:(lia)
                  ltac:(lia) ltac:(lia) ltac:(lia)
                  (of_int64_between M ltac:(lia)) one_exact)
      as Hmul.
    pose proof (to_int64_between (0 + 0) (M * 1) (M * 1) _ ltac:(lia) ltac:(lia)
                  ltac:(change (2 ^ (0 + 0)) with 1; rewrite Z.div_1_r;
                        unfold MaxInt64; lia) Hmul) as Hint.
    change (2 ^ (0 + 0)) with 1 in Hint. rewrite !Z.div_1_r in Hint.
    unfold maxInt64.
    destruct (Z.gtb_spec (to_int64 (mul (of_int64 M) one)) m); lia.
Qed.

Lemma exponential_jitter_below_2_53_witness :
  let expected :=
    fst (ExponentialBackoff.getDuration
           {| ExponentialBackoff.minWait := 100; ExponentialBackoff.maxWait := 30000;
              ExponentialBackoff.jitter := false |} 3 (rand_of_list [half])) in
  let d :=
    fst (ExponentialBackoff.getDuration (NewExponentialBackoff 100 30000) 3
           (rand_of_list [half])) in
  (exists f, between 1 1 2 f /\
             d = maxInt64 (to_int64 (mul (of_int64 expected) f)) 100) /\
  Z.quot expected 2 <= d <= expected /\ 100 <= d.
Proof.
  apply (exponential_jitter_below_2_53 100 30000 3 (rand_of_list [half])).
  - lia.
  - lia.
  - unfold is_uint64. lia.
  - vm_compute. reflexivity.
Defined.

(** C7. The code does not keep the range that the claim, and its own
    comments ("Final value will be in the range [duration/2, duration]",
    "Never sleep less than the minimum"), give it.
    - A duration above [2^53] is rounded by [float64(duration)]: with
      [minWait = 1], [maxWait = 2^53 + 3], [iteration = 62] and the draw
      [1 - 2^-53] (the largest there is), the factor is 1.0 and the result is
      [2^53 + 4], above the unjittered [2^53 + 3] and above [maxWait].
    - From iteration 63 on, [maxWait] is returned before the jitter and
      before the clamp: with [minWait = 100] and [maxWait = 50] the result is
      50, below [minWait].
    - The conversion back to [int64] is not guarded: with [minWait = 100],
      [maxWait = MaxInt64], [iteration = 62] and the draw [1 - 2^-53], the
      unjittered value is [MaxInt64], [float64(MaxInt64)] is [2^63], the
      factor is 1.0, and the product [2^63] is outside [int64]; the
      conversion gives [MinInt64], which the clamp turns into 100, far below
      half of the unjittered value. *)
Theorem exponential_jitter_out_of_range :
  (let b := {| ExponentialBackoff.minWait := 1;
               ExponentialBackoff.maxWait := 2 ^ 53 + 3;
               ExponentialBackoff.jitter := true |} in
   let unjittered := {| ExponentialBackoff.minWait := 1;
                        ExponentialBackoff.maxWait := 2 ^ 53 + 3;
                        ExponentialBackoff.jitter := false |} in
   let x := of_scaled (2 ^ 53 - 1) (-53) in
   unit_draw x = true /\
   mul half (add x one) = one /\
   fst (ExponentialBackoff.getDuration unjittered 62 (rand_of_list [x])) = 2 ^ 53 + 3 /\
   fst (ExponentialBackoff.getDuration b 62 (rand_of_list [x])) = 2 ^ 53 + 4 /\
   ~ fst (ExponentialBackoff.getDuration b 62 (rand_of_list [x]))
       <= fst (ExponentialBackoff.getDuration unjittered 62 (rand_of_list [x]))) /\
  (let b := {| ExponentialBackoff.minWait := 100;
               ExponentialBackoff.maxWait := 50;
               ExponentialBackoff.jitter := true |} in
   fst (ExponentialBackoff.getDuration b 63 (rand_of_list [half])) = 50 /\
   ~ ExponentialBackoff.minWait b
       <= fst (ExponentialBackoff.getDuration b 63 (rand_of_list [half]))) /\
  (let b := {| ExponentialBackoff.minWait := 100;
               ExponentialBackoff.maxWait := MaxInt64;
               ExponentialBackoff.jitter := true |} in
   let unjittered := {| ExponentialBackoff.minWait := 100;
                        ExponentialBackoff.maxWait := MaxInt64;
                        ExponentialBackoff.jitter := false |} in
   let x := of_scaled (2 ^ 53 - 1) (-53) in
   unit_draw x = true /\
   fst (ExponentialBackoff.getDuration unjittered 62 (rand_of_list [x])) = MaxInt64 /\
   mul (of_int64 MaxInt64) (mul half (add x one)) = of_scaled 1 63 /\
   to_int64 (of_scaled 1 63) = MinInt64 /\
   fst (ExponentialBackoff.getDuration b 62 (rand_of_list [x])) = 100 /\
   ~ Z.quot (fst (ExponentialBackoff.getDuration unjittered 62 (rand_of_list [x]))) 2
       <= fst (ExponentialBackoff.getDuration b 62 (rand_of_list [x]))).
Proof.
  cbv zeta. split; [| split].
  - repeat split; try (vm_compute; reflexivity).
    vm_compute. intros H. apply H. reflexivity.
  - split; [reflexivity |]. vm_compute. intros H. apply H. reflexivity.
  - repeat split; try (vm_compute; reflexivity).
    vm_compute. intros H. apply H. reflexivity.
Qed.

(** ** Decorrelated exponential backoff *)

(** C10. With [minWait = 0] the stored last wait is 0 before every call, so
    every call takes the branch of the first call: it returns 0, draws no
    random number, and stores 0 again. *)
Theorem decorrelated_zero_minWait (b : DecorrelatedExponentialBackoff.t)
    (n : nat) (rnd : Rand) :
  DecorrelatedExponentialBackoff.minWait b = 0 ->
  decorrelatedExponentialBackoff.getDurations n
      (decorrelatedExponentialBackoff.fresh b) rnd
    = (repeat 0 n, decorrelatedExponentialBackoff.fresh b, rnd) /\
  decorrelatedExponentialBackoff.lastWait
      (decorrelatedExponentialBackoff.fresh b) = zeroDuration.
Proof.
  intros Hmin. split; [| reflexivity].
  induction n as [| n IH]; [reflexivity |].
  cbn [decorrelatedExponentialBackoff.getDurations].
  unfold decorrelatedExponentialBackoff.getDuration at 1.
  cbn [decorrelatedExponentialBackoff.lastWait decorrelatedExponentialBackoff.fresh
       decorrelatedExponentialBackoff.minWait decorrelatedExponentialBackoff.maxWait].
  rewrite Hmin. cbn [Z.eqb zeroDuration].
  change {| decorrelatedExponentialBackoff.minWait := 0;
            decorrelatedExponentialBackoff.maxWait := DecorrelatedExponentialBackoff.maxWait b;
            decorrelatedExponentialBackoff.lastWait := 0 |}
    with (decorrelatedExponentialBackoff.fresh
            {| DecorrelatedExponentialBackoff.minWait := 0;
               DecorrelatedExponentialBackoff.maxWait := DecorrelatedExponentialBackoff.maxWait b |}).
  replace {| DecorrelatedExponentialBackoff.minWait := 0;
             DecorrelatedExponentialBackoff.maxWait := DecorrelatedExponentialBackoff.maxWait b |}
    with b by (destruct b; simpl in Hmin; subst; reflexivity).
  rewrite IH. reflexivity.
Qed.

Lemma decorrelated_zero_minWait_witness :
  decorrelatedExponentialBackoff.getDurations 5
      (decorrelatedExponentialBackoff.fresh (NewDecorrelatedExponentialBackoff 0 30000))
      (rand_of_list [half])
    = ([0; 0; 0; 0; 0],
       decorrelatedExponentialBackoff.fresh (NewDecorrelatedExponentialBackoff 0 30000),
       rand_of_list [half]).
Proof.
  apply (decorrelated_zero_minWait (NewDecorrelatedExponentialBackoff 0 30000) 5
           (rand_of_list [half])).
  reflexivity.
Defined.

(** After the first call [getDuration] leaves the struct as it is. *)
Lemma decorrelated_getDuration_keeps_struct
    (b : decorrelatedExponentialBackoff.t) (rnd : Rand) :
  decorrelatedExponentialBackoff.lastWait b <> zeroDuration ->
  snd (fst (decorrelatedExponentialBackoff.getDuration b rnd)) = b.
Proof.
  intros Hlast. unfold decorrelatedExponentialBackoff.getDuration.
  destruct (Z.eqb_spec (decorrelatedExponentialBackoff.lastWait b) zeroDuration)
    as [Heq | _]; [contradiction | reflexivity].
Qed.

(** The first call returns [minWait] and stores it. *)
Lemma decorrelated_first_call (b : DecorrelatedExponentialBackoff.t) (rnd : Rand) :
  decorrelatedExponentialBackoff.getDuration
    (decorrelatedExponentialBackoff.fresh b) rnd
  = (DecorrelatedExponentialBackoff.minWait b,
     {| decorrelatedExponentialBackoff.minWait := DecorrelatedExponentialBackoff.minWait b;
        decorrelatedExponentialBackoff.maxWait := DecorrelatedExponentialBackoff.maxWait b;
        decorrelatedExponentialBackoff.lastWait := DecorrelatedExponentialBackoff.minWait b |},
     rnd).
Proof. reflexivity. Qed.

(** C2. The code does not do what the claim says: after the first call,
    [getDuration] never stores the duration it returns. From
    [minWait = 100], [maxWait = 30000]: the first call returns 100 and stores
    it; the second, with the draw 0.5, returns 200 and leaves the stored last
    wait at 100; the third, with the draw 0.75, therefore returns
    [0.75 * (300 - 100) + 100 = 250], where a stored last wait of 200 would
    have given [0.75 * (600 - 100) + 100 = 475]. *)
Theorem decorrelated_lastWait_not_recorded :
  let b0 := decorrelatedExponentialBackoff.fresh
              (NewDecorrelatedExponentialBackoff 100 30000) in
  let b1 := {| decorrelatedExponentialBackoff.minWait := 100;
               decorrelatedExponentialBackoff.maxWait := 30000;
               decorrelatedExponentialBackoff.lastWait := 100 |} in
  let recorded := {| decorrelatedExponentialBackoff.minWait := 100;
                     decorrelatedExponentialBackoff.maxWait := 30000;
                     decorrelatedExponentialBackoff.lastWait := 200 |} in
  let x2 := half in
  let x3 := of_scaled 3 (-2) in
  unit_draw x2 = true /\ unit_draw x3 = true /\
  fst (decorrelatedExponentialBackoff.getDuration b0 (rand_of_list []))
    = (100, b1) /\
  fst (decorrelatedExponentialBackoff.getDuration b1 (rand_of_list [x2]))
    = (200, b1) /\
  fst (decorrelatedExponentialBackoff.getDuration b1 (rand_of_list [x3]))
    = (250, b1) /\
  fst (fst (decorrelatedExponentialBackoff.getDuration recorded (rand_of_list [x3])))
    = 475 /\
  fst (decorrelatedExponentialBackoff.getDurations 3 b0 (rand_of_list [x2; x3]))
    = ([100; 200; 250], b1).
Proof.
  cbv zeta. repeat split; vm_compute; reflexivity.
Qed.

(** A call after the first, while every integer of the computation is a
    [float64]: the duration lies between [minWait] and
    [min(maxWait, 3 * minWait)], and the struct is left as it is. *)
Lemma decorrelated_later_call (m M : Z) (rnd : Rand) :
  0 < m <= M -> 3 * m < 2 ^ 53 -> M <= MaxInt64 ->
  unit_draw (draws rnd (taken rnd)) = true ->
  let b := {| decorrelatedExponentialBackoff.minWait := m;
              decorrelatedExponentialBackoff.maxWait := M;
              decorrelatedExponentialBackoff.lastWait := m |} in
  exists d,
    decorrelatedExponentialBackoff.getDuration b rnd
      = (d, b, {| draws := draws rnd; taken := S (taken rnd) |}) /\
    m <= d <= Z.min M (3 * m).
Proof.
  intros Hm H53 HM Hx. cbv zeta.
  unfold decorrelatedExponentialBackoff.getDuration.
  cbn [decorrelatedExponentialBackoff.lastWait decorrelatedExponentialBackoff.minWait
       decorrelatedExponentialBackoff.maxWait rand_Float64].
  destruct (Z.eqb_spec m zeroDuration) as [H0 | _]; [unfold zeroDuration in H0; lia |].
  assert (Hq : Z.quot MaxInt64 3 = 3074457345618258602) by (vm_compute; reflexivity).
  rewrite Hq.
  destruct (Z.gtb_spec m 3074457345618258602) as [Hbig | _]; [lia |].
  rewrite wrap_int64_small by (unfold is_int64, MinInt64, MaxInt64; lia).
  eexists. split; [reflexivity |].
  set (x := draws rnd (taken rnd)) in *.
  pose proof (of_int64_between m ltac:(lia)) as Hfm.
  pose proof (of_int64_between (m * 3) ltac:(lia)) as Hf3.
  pose proof (sub_between (m * 3) m _ _ ltac:(lia) ltac:(lia) Hf3 Hfm) as Hsub.
  pose proof (mul_unit_between (m * 3 - m) (m * 3 - m) x _
                ltac:(lia) ltac:(lia) Hx Hsub) as Hmul.
  pose proof (add_between 0 (m * 3 - m) m m _ _
                ltac:(lia) ltac:(lia) ltac:(lia) Hmul Hfm) as Hadd.
  pose proof (to_int64_between 0 (0 + m) (m * 3 - m + m) _ ltac:(lia) ltac:(lia)
                ltac:(rewrite Z.pow_0_r, Z.div_1_r; unfold MaxInt64; lia) Hadd)
    as Hint.
  rewrite Z.pow_0_r, !Z.div_1_r in Hint.
  unfold minInt64.
  destruct (Z.ltb_spec M
              (to_int64 (add (mul x (sub (of_int64 (m * 3)) (of_int64 m)))
                             (of_int64 m)))); lia.
Qed.

Lemma unit_draws_next (rnd : Rand) (n : nat) :
  unit_draws rnd (S n) ->
  unit_draw (draws rnd (taken rnd)) = true /\
  unit_draws {| draws := draws rnd; taken := S (taken rnd) |} n.
Proof.
  intros H. split.
  - specialize (H O ltac:(lia)). rewrite Nat.add_0_r in H. exact H.
  - intros j Hj. cbn [draws taken].
    specialize (H (S j) ltac:(lia)). rewrite Nat.add_succ_r in H. exact H.
Qed.

(** The calls after the first, while every integer of the computation is a
    [float64]. *)
Lemma decorrelated_later_calls (m M : Z) (n : nat) :
  0 < m <= M -> 3 * m < 2 ^ 53 -> M <= MaxInt64 ->
  let b := {| decorrelatedExponentialBackoff.minWait := m;
              decorrelatedExponentialBackoff.maxWait := M;
              decorrelatedExponentialBackoff.lastWait := m |} in
  forall rnd, unit_draws rnd n ->
    exists ds rnd',
      decorrelatedExponentialBackoff.getDurations n b rnd = (ds, b, rnd') /\
      Forall (fun d => m <= d <= Z.min M (3 * m)) ds.
Proof.
  intros Hm H53 HM. cbv zeta. induction n as [| n IH]; intros rnd Hdraws.
  - exists [], rnd. split; [reflexivity | constructor].
  - destruct (unit_draws_next rnd n Hdraws) as [Hx Hrest].
    destruct (decorrelated_later_call m M rnd Hm H53 HM Hx) as (d & Hcall & Hd).
    destruct (IH _ Hrest) as (ds & rnd' & Hcalls & Hds).
    exists (d :: ds), rnd'.
    cbn [decorrelatedExponentialBackoff.getDurations].
    rewrite Hcall, Hcalls. split; [reflexivity | constructor; assumption].
Qed.

Lemma decorrelated_bounds_of_range (m M : Z) (ds : list Duration) :
  Forall (fun d => m <= d <= Z.min M (3 * m)) ds ->
  forall prev, m <= prev -> decorrelated_bounds m M prev ds.
Proof.
  induction 1 as [| d ds Hd _ IH]; intros prev Hprev; cbn [decorrelated_bounds].
  - exact I.
  - split; [lia | apply IH; lia].
Qed.

(** Where the interval is kept. For an instance fresh from its factory with
    [0 < minWait <= maxWait] and [3 * minWait < 2^53] (so that [float64]
    holds every integer of the computation), the first call returns exactly
    [minWait] and every later call a duration in
    [[minWait, min(maxWait, 3 * previous duration)]]. *)
Theorem decorrelated_bounds_below_2_53 (b : DecorrelatedExponentialBackoff.t)
    (n : nat) (rnd : Rand) :
  let m := DecorrelatedExponentialBackoff.minWait b in
  let M := DecorrelatedExponentialBackoff.maxWait b in
  0 < m <= M -> 3 * m < 2 ^ 53 -> M <= MaxInt64 ->
  unit_draws rnd n ->
  exists ds b' rnd',
    decorrelatedExponentialBackoff.getDurations (S n)
      (decorrelatedExponentialBackoff.fresh b) rnd = (m :: ds, b', rnd') /\
    decorrelated_bounds m M m ds.
Proof.
  cbv zeta. intros Hm H53 HM Hdraws.
  destruct (decorrelated_later_calls _ _ n Hm H53 HM rnd Hdraws)
    as (ds & rnd' & Hcalls & Hds).
  exists ds. eexists. exists rnd'.
  cbn [decorrelatedExponentialBackoff.getDurations].
  rewrite decorrelated_first_call. rewrite Hcalls.
  split; [reflexivity |].
  apply decorrelated_bounds_of_range; [exact Hds | lia].
Qed.

Lemma decorrelated_bounds_below_2_53_witness :
  exists ds b' rnd',
    decorrelatedExponentialBackoff.getDurations 3
      (decorrelatedExponentialBackoff.fresh (NewDecorrelatedExponentialBackoff 100 30000))
      (rand_of_list [half; of_scaled 3 (-2)]) = (100 :: ds, b', rnd') /\
    decorrelated_bounds 100 30000 100 ds.
Proof.
  apply (decorrelated_bounds_below_2_53 (NewDecorrelatedExponentialBackoff 100 30000)
           2 (rand_of_list [half; of_scaled 3 (-2)])).
  - simpl. lia.
  - simpl. lia.
  - simpl. unfold MaxInt64. lia.
  - intros [| [| j]] Hj; [vm_compute; reflexivity | vm_compute; reflexivity | lia].
Defined.

(** C6. The code does not keep the interval that the claim, its own comment
    ([sleep(n) = min(maxWait, random(minWait, sleep(n-1) * 3))]) and the
    assertion of [TestDecorrelatedExponentialBackoff] give it: the draw is
    scaled in [float64] and converted back to [int64] with no guard, beside
    the guard on [MaxInt64 / 3] for the tripling.
    - With [minWait = maxWait = 2^53 + 1] and the draw 0.0 the second call
      returns [int64(float64(minWait)) = 2^53], one below [minWait]. (The
      product with the draw is 0.0, fused into the addition or not.)
    - With [minWait = 3002399751580333], where [3 * minWait = 2^53 + 7], and
      the draw [1 - 2^-53], the second call returns [3 * minWait + 1], above
      three times the first duration.
    - With [minWait = 2^62], [maxWait = MaxInt64] and the draw [1 - 2^-53],
      the guard sets the upper end to [MaxInt64], [float64(MaxInt64)] is
      [2^63], and the scaled value rounds to [2^63], outside [int64]; the
      conversion gives [MinInt64], which the second call returns: a negative
      duration. *)
Theorem decorrelated_below_minWait :
  (let minWait := 2 ^ 53 + 1 in
   let maxWait := 2 ^ 53 + 1 in
   let b0 := decorrelatedExponentialBackoff.fresh
               (NewDecorrelatedExponentialBackoff minWait maxWait) in
   let x := S754_zero false in
   0 < minWait <= maxWait /\ maxWait <= MaxInt64 /\
   unit_draw x = true /\
   of_int64 minWait = of_int64 (2 ^ 53) /\
   fst (fst (decorrelatedExponentialBackoff.getDurations 2 b0 (rand_of_list [x])))
     = [minWait; minWait - 1] /\
   ~ decorrelated_bounds minWait maxWait minWait [minWait - 1]) /\
  (let minWait := 3002399751580333 in
   let maxWait := MaxInt64 in
   let b0 := decorrelatedExponentialBackoff.fresh
               (NewDecorrelatedExponentialBackoff minWait maxWait) in
   let x := of_scaled (2 ^ 53 - 1) (-53) in
   3 * minWait = 2 ^ 53 + 7 /\
   unit_draw x = true /\
   fst (fst (decorrelatedExponentialBackoff.getDurations 2 b0 (rand_of_list [x])))
     = [minWait; 3 * minWait + 1] /\
   ~ decorrelated_bounds minWait maxWait minWait [3 * minWait + 1]) /\
  (let minWait := 2 ^ 62 in
   let maxWait := MaxInt64 in
   let b0 := decorrelatedExponentialBackoff.fresh
               (NewDecorrelatedExponentialBackoff minWait maxWait) in
   let x := of_scaled (2 ^ 53 - 1) (-53) in
   0 < minWait <= maxWait /\ maxWait <= MaxInt64 /\
   unit_draw x = true /\
   add (mul x (sub (of_int64 MaxInt64) (of_int64 minWait))) (of_int64 minWait)
     = of_scaled 1 63 /\
   to_int64 (of_scaled 1 63) = MinInt64 /\
   fst (fst (decorrelatedExponentialBackoff.getDurations 2 b0 (rand_of_list [x])))
     = [minWait; MinInt64] /\
   MinInt64 < 0 /\
   ~ decorrelated_bounds minWait maxWait minWait [MinInt64]).
Proof.
  cbv zeta. split; [| split].
  - repeat split; try (vm_compute; reflexivity); try (vm_compute; discriminate).
    cbn [decorrelated_bounds]. intros [[H _] _]. revert H. vm_compute.
    intros H. apply H. reflexivity.
  - repeat split; try (vm_compute; reflexivity).
    cbn [decorrelated_bounds]. intros [[_ H] _]. revert H. vm_compute.
    intros H. apply H. reflexivity.
  - repeat split; try (vm_compute; reflexivity); try (vm_compute; discriminate).
    cbn [decorrelated_bounds]. intros [[H _] _]. revert H. vm_compute.
    intros H. apply H. reflexivity.
Qed.

(** * The run of [Do], for every operation *)

Lemma last_cons_default {A} (l : list A) :
  forall x d : A, last (x :: l) d = last l x.
Proof.
  induction l as [| y l IH]; intros x d; [reflexivity |].
  change (last (x :: y :: l) d) with (last (y :: l) d).
  rewrite (IH y d), (IH y x). reflexivity.
Qed.

Lemma call_results_attempts (results : list error) :
  forall i, call_results (attempts_trace i results) = results.
Proof.
  induction results as [| e rest IH]; intros i; [reflexivity |].
  destruct rest as [| x rest]; [reflexivity |].
  change (attempts_trace i (e :: x :: rest))
    with (EvCall e :: EvBackoff i :: attempts_trace (i + 1) (x :: rest)).
  cbn [call_results]. rewrite IH. reflexivity.
Qed.

Lemma pauses_attempts (results : list error) :
  forall i,
    pauses (attempts_trace i results)
    = map (fun k => i + Z.of_nat k) (seq 0 (length results - 1)).
Proof.
  induction results as [| e rest IH]; intros i; [reflexivity |].
  destruct rest as [| x rest]; [reflexivity |].
  change (attempts_trace i (e :: x :: rest))
    with (EvCall e :: EvBackoff i :: attempts_trace (i + 1) (x :: rest)).
  cbn [pauses]. rewrite IH.
  replace (length (e :: x :: rest) - 1)%nat with (S (length (x :: rest) - 1))
    by (cbn [length]; lia).
  cbn [seq map]. rewrite Z.add_0_r. f_equal.
  rewrite <- seq_shift, map_map. apply map_ext. intros k. lia.
Qed.

Section Run.
Context {W : Type}.
Variable r : Retrier W.
Variable b : Backoff W.
Variable fn : W -> error * W.

(** The loop from attempt [i] on, for any operation: it is left; the
    invocations alternate with the pauses; every result but the last was
    retriable; the budget is kept, and the loop is left before the budget is
    used up only on a result that is not retriable. *)
Lemma loop_run :
  maxAttempts r < 2 ^ 64 ->
  forall (fuel : nat) (i : Z) (e0 : error) (w : W) (t : list Event),
    0 <= i -> (Z.to_nat (maxAttempts r - i) < fuel)%nat ->
    exists err w' (results : list error),
      Do_loop (traced r) (traced_backoff b) (traced_fn fn) fuel i e0 (w, t)
        = Some (err, (w', t ++ attempts_trace i results)) /\
      err = last results e0 /\
      Forall (fun e => isRetriable r e = true) (removelast results) /\
      i + Z.of_nat (length results) <= Z.max i (maxAttempts r) /\
      (i + Z.of_nat (length results) < maxAttempts r ->
       results <> [] /\ isRetriable r err = false).
Proof.
  intros HN. induction fuel as [| fuel IH]; intros i e0 w t Hi Hfuel; [lia |].
  destruct (Z.lt_ge_cases i (maxAttempts r)) as [Hlt | Hge].
  - rewrite loop_attempt by lia. cbv zeta.
    set (e := fst (fn w)). set (w1 := snd (fn w)).
    destruct (isRetriable r e) eqn:Hres; simpl negb; cbv iota.
    + destruct (Z.ltb_spec (i + 1) (maxAttempts r)) as [Hmore | Hlast].
      * destruct (IH (i + 1) e (backoff b i w1)
                    ((t ++ [EvCall e]) ++ [EvBackoff i]) ltac:(lia) ltac:(lia))
          as (err & w' & results & Hrun & Herr & Hall & Hlen & Hstop).
        assert (Hne : results <> []).
        { intros ->. cbn [length] in Hstop. destruct Hstop as [Hne _]; [lia |].
          apply Hne. reflexivity. }
        destruct results as [| x rest]; [contradiction |].
        exists err, w', (e :: x :: rest).
        split; [| split; [| split; [| split]]].
        -- rewrite Hrun. rewrite <- !app_assoc. reflexivity.
        -- rewrite last_cons_default. exact Herr.
        -- change (removelast (e :: x :: rest)) with (e :: removelast (x :: rest)).
           constructor; assumption.
        -- cbn [length] in Hlen |- *. lia.
        -- intros Hshort. split; [discriminate |].
           apply Hstop. cbn [length] in Hshort |- *. lia.
      * destruct fuel as [| fuel]; [lia |].
        rewrite loop_exit by lia.
        exists e, w1, [e].
        split; [reflexivity | split; [reflexivity | split; [constructor |]]].
        cbn [length]. split; [lia | intros; lia].
    + exists e, w1, [e].
      split; [reflexivity | split; [reflexivity | split; [constructor |]]].
      cbn [length]. split; [lia |].
      intros _. split; [discriminate | exact Hres].
  - rewrite loop_exit by lia.
    exists e0, w, []. rewrite app_nil_r.
    split; [reflexivity | split; [reflexivity | split; [constructor |]]].
    cbn [length]. split; [lia | intros; lia].
Qed.
End Run.

(** [Do], for any operation. *)
Lemma Do_run {W} (r : Retrier W) (fn : W -> error * W) (w : W) :
  0 <= maxAttempts r < 2 ^ 64 ->
  exists err w' (results : list error),
    Do (traced r) (traced_fn fn) (w, [])
      = Some (err, (w', EvNew :: attempts_trace 0 results)) /\
    err = last results None /\
    Forall (fun e => isRetriable r e = true) (removelast results) /\
    Z.of_nat (length results) <= maxAttempts r /\
    (Z.of_nat (length results) < maxAttempts r ->
     results <> [] /\ isRetriable r err = false).
Proof.
  intros HN. rewrite Do_traced.
  destruct (loop_run r (fst (New (backoffFactory r) w)) fn ltac:(lia)
              (S (Z.to_nat (maxAttempts r))) 0 None
              (snd (New (backoffFactory r) w)) [EvNew] ltac:(lia) ltac:(lia))
    as (err & w' & results & Hrun & Herr & Hall & Hlen & Hstop).
  exists err, w', results.
  split; [exact Hrun | split; [exact Herr | split; [exact Hall |]]].
  split; [lia | intros H; apply Hstop; lia].
Qed.

(** X1. Whatever the operation does, a run of [Do] is one call of the
    factory's [New], then the invocations of the operation, each but the
    last followed by one pause; the pauses carry the indices 0, 1, 2, ... in
    order; nothing follows the last invocation, whose result [Do] returns
    (nil when nothing was invoked). *)
Theorem Do_run_shape {W} (r : Retrier W) (fn : W -> error * W) (w : W) :
  0 <= maxAttempts r < 2 ^ 64 ->
  exists err w' t (results : list error),
    Do (traced r) (traced_fn fn) (w, []) = Some (err, (w', t)) /\
    t = EvNew :: attempts_trace 0 results /\
    call_results t = results /\
    pauses t = map Z.of_nat (seq 0 (length results - 1)) /\
    err = last results None.
Proof.
  intros HN.
  destruct (Do_run r fn w HN) as (err & w' & results & Hrun & Herr & _).
  exists err, w', (EvNew :: attempts_trace 0 results), results.
  split; [exact Hrun | split; [reflexivity | split; [| split; [| exact Herr]]]].
  - cbn [call_results]. apply call_results_attempts.
  - cbn [pauses]. rewrite pauses_attempts. apply map_ext. intros k. lia.
Qed.

(** [retrier3] of [TestRetrier_Do], with an operation that fails five times. *)
Lemma Do_run_shape_witness :
  exists err w' t (results : list error),
    Do (traced (NewRetrier [MaxAttemptsOption 3; BackoffOption (asFactory backoffFunc)]))
       (traced_fn (makeFn 5)) (test_world (rand_of_list []), [])
      = Some (err, (w', t)) /\
    t = EvNew :: attempts_trace 0 results /\
    call_results t = results /\
    pauses t = map Z.of_nat (seq 0 (length results - 1)) /\
    err = last results None.
Proof.
  apply (Do_run_shape
           (NewRetrier [MaxAttemptsOption 3; BackoffOption (asFactory backoffFunc)])
           (makeFn 5) (test_world (rand_of_list []))).
  simpl. lia.
Defined.

(** X2. Whatever the operation does, [Do] invokes it at most [maxAttempts]
    times; every result before the last one was retriable (so nothing is
    invoked after a result that is not); and when [Do] stops before the
    budget is used up, the result it returns is not retriable. *)
Theorem Do_attempt_budget {W} (r : Retrier W) (fn : W -> error * W) (w : W) :
  0 <= maxAttempts r < 2 ^ 64 ->
  exists err w' t,
    Do (traced r) (traced_fn fn) (w, []) = Some (err, (w', t)) /\
    Z.of_nat (length (call_results t)) <= maxAttempts r /\
    Forall (fun e => isRetriable r e = true) (removelast (call_results t)) /\
    (Z.of_nat (length (call_results t)) < maxAttempts r ->
     isRetriable r err = false /\ last (call_results t) None = err /\
     call_results t <> []).
Proof.
  intros HN.
  destruct (Do_run r fn w HN)
    as (err & w' & results & Hrun & Herr & Hall & Hlen & Hstop).
  exists err, w', (EvNew :: attempts_trace 0 results).
  cbn [call_results]. rewrite call_results_attempts.
  split; [exact Hrun | split; [exact Hlen | split; [exact Hall |]]].
  intros Hshort. destruct (Hstop Hshort) as [Hne Hres].
  split; [exact Hres | split; [symmetry; exact Herr | exact Hne]].
Qed.

(** [retrier1] of [TestRetrier_Do]: four attempts for an operation that
    fails three times. *)
Lemma Do_attempt_budget_witness :
  exists err w' t,
    Do (traced (NewRetrier [MaxAttemptsOption 4])) (traced_fn (makeFn 3))
       (test_world (rand_of_list []), []) = Some (err, (w', t)) /\
    Z.of_nat (length (call_results t)) <= 4 /\
    Forall (fun e => AnyErr e = true) (removelast (call_results t)) /\
    (Z.of_nat (length (call_results t)) < 4 ->
     AnyErr err = false /\ last (call_results t) None = err /\
     call_results t <> []).
Proof.
  apply (Do_attempt_budget (NewRetrier [MaxAttemptsOption 4]) (makeFn 3)
           (test_world (rand_of_list []))).
  simpl. lia.
Defined.

(** * The sleeps of a run *)

Section Sleeps.
Context {U : Type}.
Variable r : Retrier (World U).
Variable b : Backoff (World U).
Variable fn : World U -> error * World U.

(** [P i w]: what holds of the world [w] while attempt [i] is under way.
    [Q i d]: what holds of the sleep [d] of pause [i]. *)
Variable P : Z -> World U -> Prop.
Variable Q : Z -> Duration -> Prop.

Hypothesis fn_keeps :
  forall i w, P i w -> P i (snd (fn w)) /\ sleeps (snd (fn w)) = sleeps w.
Hypothesis pause_sleeps :
  forall i w, 0 <= i -> i + 1 < maxAttempts r -> P i w ->
    exists d, sleeps (backoff b i w) = sleeps w ++ [d] /\ Q i d /\
              P (i + 1) (backoff b i w).

(** The sleeps of the loop are those of its pauses, one each. *)
Lemma loop_sleeps :
  maxAttempts r < 2 ^ 64 ->
  forall (fuel : nat) (i : Z) (e0 : error) (w : World U) (t : list Event)
         (err : error) (w' : World U) (t' : list Event),
    0 <= i -> P i w ->
    Do_loop (traced r) (traced_backoff b) (traced_fn fn) fuel i e0 (w, t)
      = Some (err, (w', t')) ->
    exists t'' (ds : list Duration),
      t' = t ++ t'' /\ sleeps w' = sleeps w ++ ds /\
      Forall2 Q (pauses t'') ds /\
      P (i + Z.of_nat (length ds)) w'.
Proof.
  intros HN. induction fuel as [| fuel IH];
    intros i e0 w t err w' t' Hi HP Hrun; [discriminate Hrun |].
  destruct (Z.lt_ge_cases i (maxAttempts r)) as [Hlt | Hge].
  - rewrite loop_attempt in Hrun by lia. cbv zeta in Hrun.
    destruct (fn_keeps i w HP) as [HP1 Hs1].
    destruct (isRetriable r (fst (fn w))); simpl negb in Hrun; cbv iota in Hrun.
    + destruct (Z.ltb_spec (i + 1) (maxAttempts r)) as [Hmore | Hlast].
      * destruct (pause_sleeps i (snd (fn w)) Hi Hmore HP1) as (d & Hsd & HQ & HP2).
        apply IH in Hrun; [| lia | exact HP2].
        destruct Hrun as (t'' & ds & Ht & Hsl & HF & Hend).
        exists (EvCall (fst (fn w)) :: EvBackoff i :: t''), (d :: ds).
        split; [| split; [| split]].
        -- rewrite Ht, <- !app_assoc. reflexivity.
        -- rewrite Hsl, Hsd, Hs1, <- app_assoc. reflexivity.
        -- cbn [pauses]. constructor; assumption.
        -- replace (i + Z.of_nat (length (d :: ds)))
             with (i + 1 + Z.of_nat (length ds)) by (cbn [length]; lia).
           exact Hend.
      * destruct fuel as [| fuel]; [discriminate Hrun |].
        rewrite loop_exit in Hrun by lia.
        injection Hrun as _ Hw Ht. subst w' t'.
        exists [EvCall (fst (fn w))], [].
        rewrite app_nil_r, Z.add_0_r.
        repeat split; [exact Hs1 | constructor | exact HP1].
    + injection Hrun as _ Hw Ht. subst w' t'.
      exists [EvCall (fst (fn w))], [].
      rewrite app_nil_r, Z.add_0_r.
      repeat split; [exact Hs1 | constructor | exact HP1].
  - rewrite loop_exit in Hrun by lia.
    injection Hrun as _ Hw Ht. subst w' t'.
    exists [], []. rewrite !app_nil_r, Z.add_0_r.
    repeat split; [constructor | exact HP].
Qed.
End Sleeps.

(** The sleeps of [Do] are those of its pauses: pause [k] is the [k]-th. *)
Lemma Do_sleeps {U} (r : Retrier (World U)) (fn : World U -> error * World U)
    (P : Z -> World U -> Prop) (Q : Z -> Duration -> Prop) (w : World U) :
  0 <= maxAttempts r < 2 ^ 64 ->
  (forall i w1, P i w1 -> P i (snd (fn w1)) /\ sleeps (snd (fn w1)) = sleeps w1) ->
  (forall i w1, 0 <= i -> i + 1 < maxAttempts r -> P i w1 ->
     exists d,
       sleeps (backoff (fst (New (backoffFactory r) w)) i w1) = sleeps w1 ++ [d] /\
       Q i d /\ P (i + 1) (backoff (fst (New (backoffFactory r) w)) i w1)) ->
  P 0 (snd (New (backoffFactory r) w)) ->
  sleeps (snd (New (backoffFactory r) w)) = sleeps w ->
  exists err w' (results : list error) (ds : list Duration),
    Do (traced r) (traced_fn fn) (w, [])
      = Some (err, (w', EvNew :: attempts_trace 0 results)) /\
    sleeps w' = sleeps w ++ ds /\
    Forall2 Q (map Z.of_nat (seq 0 (length results - 1))) ds /\
    P (Z.of_nat (length ds)) w'.
Proof.
  intros HN Hfn Hpause Hinit Hnew.
  destruct (Do_run r fn w HN) as (err & w' & results & Hrun & _).
  exists err, w', results.
  pose proof Hrun as Hloop. rewrite Do_traced in Hloop.
  apply (loop_sleeps r _ fn P Q Hfn Hpause ltac:(lia)) in Hloop;
    [| lia | exact Hinit].
  destruct Hloop as (t'' & ds & Ht & Hsl & HF & Hend).
  injection Ht as Ht. subst t''.
  exists ds. rewrite pauses_attempts in HF. rewrite Hnew in Hsl.
  split; [exact Hrun | split; [exact Hsl | split; [| exact Hend]]].
  erewrite map_ext; [exact HF |]. intros k. cbv beta. lia.
Qed.

Lemma Forall2_function {A B} (f : A -> B) (l : list A) (ds : list B) :
  Forall2 (fun k d => d = f k) l ds -> ds = map f l.
Proof.
  induction 1 as [| k d l ds Hd _ IH]; [reflexivity |].
  cbn [map]. rewrite Hd, IH. reflexivity.
Qed.

(** X3. [FixedBackoff] with [Do]: for an operation that does not sleep
    itself, the run sleeps once between any two consecutive invocations, for
    the configured time each, and never else: [n] invocations, [n - 1] sleeps
    of [wait]. *)
Theorem Do_FixedBackoff_sleeps {U} (r : Retrier (World U))
    (fn : World U -> error * World U) (wait : Duration) (w : World U) :
  0 <= maxAttempts r < 2 ^ 64 ->
  backoffFactory r = asFactory (NewFixedBackoff wait) ->
  (forall w1, sleeps (snd (fn w1)) = sleeps w1) ->
  exists err w' (results : list error),
    Do (traced r) (traced_fn fn) (w, [])
      = Some (err, (w', EvNew :: attempts_trace 0 results)) /\
    sleeps w' = sleeps w ++ repeat wait (length results - 1).
Proof.
  intros HN Hfactory Hfn.
  destruct (Do_sleeps r fn (fun _ _ => True) (fun _ d => d = wait) w HN)
    as (err & w' & results & ds & Hrun & Hsl & HF & _).
  - intros i w1 _. split; [exact I | apply Hfn].
  - intros i w1 _ _ _. rewrite Hfactory. exists wait.
    repeat split; reflexivity.
  - exact I.
  - rewrite Hfactory. reflexivity.
  - exists err, w', results. split; [exact Hrun |].
    rewrite Hsl. f_equal.
    apply (Forall2_function (fun _ => wait)) in HF. rewrite HF.
    rewrite map_const, length_map, length_seq. reflexivity.
Qed.

(** Three attempts of an operation that keeps failing, one second apart. *)
Lemma Do_FixedBackoff_sleeps_witness :
  exists err w' (results : list error),
    Do (traced (NewRetrier [MaxAttemptsOption 3;
                            BackoffOption (asFactory (NewFixedBackoff (1000 * Millisecond)))]))
       (traced_fn (makeFn 5)) (test_world (rand_of_list []), [])
      = Some (err, (w', EvNew :: attempts_trace 0 results)) /\
    sleeps w' = sleeps (test_world (rand_of_list []))
                ++ repeat (1000 * Millisecond) (length results - 1).
Proof.
  apply (Do_FixedBackoff_sleeps
           (NewRetrier [MaxAttemptsOption 3;
                        BackoffOption (asFactory (NewFixedBackoff (1000 * Millisecond)))])
           (makeFn 5) (1000 * Millisecond) (test_world (rand_of_list []))).
  - simpl. lia.
  - reflexivity.
  - intros w1. unfold makeFn. destruct (count (user w1) <? 5); reflexivity.
Defined.

(** * More on the exponential backoff *)

(** The duration before the jitter, for any two waits that are not
    negative: the product is never computed when it would pass [maxWait]. *)
Lemma exponential_duration_nonneg (m M i : Z) :
  0 <= m <= MaxInt64 -> 0 <= M <= MaxInt64 -> 0 <= i < 63 ->
  (if m >? Z.quot M (wrap_int64 (Z.shiftl 1 i)) then M
   else wrap_int64 (m * wrap_int64 (Z.shiftl 1 i)))
  = Z.min M (m * 2 ^ i).
Proof.
  intros Hm HM Hi. unfold MaxInt64 in Hm, HM.
  destruct (multiplier_pow2 i Hi) as [Hmul Hpow]. rewrite Hmul.
  destruct (Z.gtb_spec m (Z.quot M (2 ^ i))) as [Hgt | Hle].
  - apply Z.lt_gt, quot_guard in Hgt; lia.
  - assert (Hprod : m * 2 ^ i <= M).
    { destruct (Z.le_gt_cases (m * 2 ^ i) M) as [H | H]; [exact H |].
      apply quot_guard in H; lia. }
    rewrite wrap_int64_small by (unfold is_int64, MinInt64, MaxInt64; nia).
    lia.
Qed.

(** [getDuration] without jitter, for any two waits that are not negative. *)
Lemma exponential_no_jitter_value (m M i : Z) (rnd : Rand) :
  0 <= m <= MaxInt64 -> 0 <= M <= MaxInt64 -> is_uint64 i ->
  ExponentialBackoff.getDuration
    {| ExponentialBackoff.minWait := m; ExponentialBackoff.maxWait := M;
       ExponentialBackoff.jitter := false |} i rnd
  = (if i <? 63 then Z.max m (Z.min M (m * 2 ^ i)) else M, rnd).
Proof.
  intros Hm HM Hi. unfold is_uint64 in Hi.
  unfold ExponentialBackoff.getDuration.
  cbn [ExponentialBackoff.minWait ExponentialBackoff.maxWait ExponentialBackoff.jitter].
  destruct (Z.ltb_spec i 63) as [Hlt | Hge].
  - rewrite geb_63_false by exact Hlt.
    rewrite exponential_duration_nonneg by (try assumption; lia).
    unfold maxInt64.
    destruct (Z.gtb_spec (Z.min M (m * 2 ^ i)) m); f_equal; lia.
  - rewrite geb_63_true by lia. reflexivity.
Qed.

(** X4. The exponential backoff without jitter never wraps around, whatever
    the two waits are, as long as neither is negative: up to iteration 62
    [getDuration(i)] is [max(minWait, min(maxWait, minWait * 2^i))] as
    computed over the integers, and from iteration 63 on it is [maxWait];
    so it always lies between the smaller and the larger of the two waits. *)
Theorem exponential_no_jitter_never_wraps (m M i : Z) (rnd : Rand) :
  0 <= m <= MaxInt64 -> 0 <= M <= MaxInt64 -> is_uint64 i ->
  let d := fst (ExponentialBackoff.getDuration
                  {| ExponentialBackoff.minWait := m;
                     ExponentialBackoff.maxWait := M;
                     ExponentialBackoff.jitter := false |} i rnd) in
  d = (if i <? 63 then Z.max m (Z.min M (m * 2 ^ i)) else M) /\
  Z.min m M <= d <= Z.max m M.
Proof.
  intros Hm HM Hi. cbv zeta.
  rewrite exponential_no_jitter_value by assumption. cbn [fst].
  split; [reflexivity |].
  destruct (i <? 63); lia.
Qed.

(** [backoff2] of [TestExponentialBackoff]: [100 * 2^62] would overflow. *)
Lemma exponential_no_jitter_never_wraps_witness :
  let d := fst (ExponentialBackoff.getDuration
                  {| ExponentialBackoff.minWait := 100;
                     ExponentialBackoff.maxWait := MaxInt64;
                     ExponentialBackoff.jitter := false |} 62 (rand_of_list [])) in
  d = (if 62 <? 63 then Z.max 100 (Z.min MaxInt64 (100 * 2 ^ 62)) else MaxInt64) /\
  Z.min 100 MaxInt64 <= d <= Z.max 100 MaxInt64.
Proof.
  apply (exponential_no_jitter_never_wraps 100 MaxInt64 62 (rand_of_list [])).
  - unfold MaxInt64. lia.
  - unfold MaxInt64. lia.
  - unfold is_uint64. lia.
Defined.

(** X5. Without jitter and with [0 <= minWait <= maxWait], the duration
    never decreases from one iteration to a later one. *)
Theorem exponential_no_jitter_monotone (m M i j : Z) (rnd rnd' : Rand) :
  0 <= m <= M -> M <= MaxInt64 -> 0 <= i <= j -> j < 2 ^ 64 ->
  let b := {| ExponentialBackoff.minWait := m;
              ExponentialBackoff.maxWait := M;
              ExponentialBackoff.jitter := false |} in
  fst (ExponentialBackoff.getDuration b i rnd)
    <= fst (ExponentialBackoff.getDuration b j rnd').
Proof.
  intros Hm HM Hi Hj. cbv zeta.
  rewrite !exponential_no_jitter_value by (unfold is_uint64; lia).
  cbn [fst].
  assert (Hpow : 2 ^ i <= 2 ^ j) by (apply Z.pow_le_mono_r; lia).
  assert (Hprod : m * 2 ^ i <= m * 2 ^ j) by (apply Z.mul_le_mono_nonneg_l; lia).
  destruct (Z.ltb_spec i 63), (Z.ltb_spec j 63); lia.
Qed.

Lemma exponential_no_jitter_monotone_witness :
  let b := {| ExponentialBackoff.minWait := 100;
              ExponentialBackoff.maxWait := 30000;
              ExponentialBackoff.jitter := false |} in
  fst (ExponentialBackoff.getDuration b 8 (rand_of_list []))
    <= fst (ExponentialBackoff.getDuration b 70 (rand_of_list [])).
Proof.
  apply (exponential_no_jitter_monotone 100 30000 8 70 (rand_of_list []) (rand_of_list []));
    unfold MaxInt64; lia.
Defined.

(** With jitter, while [float64] holds the duration: the result lies
    between half the unjittered value and that value, and not below
    [minWait]; up to iteration 62 one draw is taken, none after. *)
Lemma exponential_jitter_range (m M i : Z) (rnd : Rand) :
  0 <= m <= M -> M < 2 ^ 53 -> is_uint64 i ->
  unit_draw (draws rnd (taken rnd)) = true ->
  let res := ExponentialBackoff.getDuration (NewExponentialBackoff m M) i rnd in
  let E := if i <? 63 then Z.min M (m * 2 ^ i) else M in
  E / 2 <= fst res <= E /\ m <= fst res /\
  snd res = if i <? 63 then {| draws := draws rnd; taken := S (taken rnd) |} else rnd.
Proof.
  intros Hm H53 Hi Hx. cbv zeta.
  assert (HM : M <= MaxInt64) by (unfold MaxInt64; lia).
  unfold is_uint64 in Hi.
  unfold NewExponentialBackoff, ExponentialBackoff.getDuration.
  cbn [ExponentialBackoff.minWait ExponentialBackoff.maxWait ExponentialBackoff.jitter
       rand_Float64].
  destruct (Z.ltb_spec i 63) as [Hlt | Hge].
  - rewrite geb_63_false by exact Hlt.
    rewrite exponential_duration by (try assumption; lia).
    assert (H0 : 2 ^ 0 <= 2 ^ i) by (apply Z.pow_le_mono_r; lia).
    rewrite Z.pow_0_r in H0.
    set (D := Z.min M (m * 2 ^ i)) in *.
    assert (HD : m <= D <= M) by (unfold D; nia).
    set (f := mul half (add (draws rnd (taken rnd)) one)).
    pose proof (jitter_factor_between _ Hx) as Hf. fold f in Hf.
    pose proof (jittered_between D f ltac:(lia) Hf) as Hj.
    cbn [fst snd]. split; [| split; [| reflexivity]];
      unfold maxInt64;
      destruct (Z.gtb_spec (to_int64 (mul (of_int64 D) f)) m); lia.
  - rewrite geb_63_true by lia. cbn [fst snd].
    assert (M / 2 <= M) by (apply Z.div_le_upper_bound; lia).
    split; [lia | split; [lia | reflexivity]].
Qed.

(** X6. With jitter, the pause after the first failure is not jittered at
    all: at iteration 0 the unjittered value is [minWait], the jitter can
    only lower it, and the final clamp brings it back, so [getDuration(0)]
    is exactly [minWait] for every draw. *)
Theorem exponential_jitter_first_pause_exact (m M : Z) (rnd : Rand) :
  0 <= m <= M -> M < 2 ^ 53 ->
  unit_draw (draws rnd (taken rnd)) = true ->
  fst (ExponentialBackoff.getDuration (NewExponentialBackoff m M) 0 rnd) = m.
Proof.
  intros Hm H53 Hx.
  pose proof (exponential_jitter_range m M 0 rnd Hm H53
                ltac:(unfold is_uint64; lia) Hx) as H.
  cbv zeta in H. change (0 <? 63) with true in H. cbv iota in H.
  rewrite Z.pow_0_r, Z.mul_1_r in H.
  destruct H as [[_ Hup] [Hlow _]]. lia.
Qed.

Lemma exponential_jitter_first_pause_exact_witness :
  fst (ExponentialBackoff.getDuration (NewExponentialBackoff 100 30000) 0
         (rand_of_list [half])) = 100.
Proof.
  apply (exponential_jitter_first_pause_exact 100 30000 (rand_of_list [half])).
  - lia.
  - lia.
  - vm_compute. reflexivity.
Defined.

Lemma min_pow_large (m M i : Z) :
  0 < m -> M <= MaxInt64 -> 63 <= i -> Z.min M (m * 2 ^ i) = M.
Proof.
  intros Hm HM Hi. unfold MaxInt64 in HM.
  assert (H63 : 2 ^ 63 <= 2 ^ i) by (apply Z.pow_le_mono_r; lia).
  nia.
Qed.

(** X7. [NewExponentialBackoff] with [Do], while [float64] holds the
    durations: for an operation that neither sleeps nor draws random
    numbers, the run sleeps once between any two consecutive invocations;
    the sleep after failure [k] lies between half of
    [min(maxWait, minWait * 2^k)] and that value, and is never shorter than
    [minWait]. *)
Theorem Do_ExponentialBackoff_sleeps {U} (r : Retrier (World U))
    (fn : World U -> error * World U) (m M : Z) (w : World U) :
  0 <= maxAttempts r < 2 ^ 64 ->
  backoffFactory r = asFactory (NewExponentialBackoff m M) ->
  0 < m <= M -> M < 2 ^ 53 ->
  keeps_package_state fn -> unit_source (rand w) ->
  exists err w' (results : list error) (ds : list Duration),
    Do (traced r) (traced_fn fn) (w, [])
      = Some (err, (w', EvNew :: attempts_trace 0 results)) /\
    sleeps w' = sleeps w ++ ds /\
    Forall2 (fun k d => Z.min M (m * 2 ^ k) / 2 <= d <= Z.min M (m * 2 ^ k) /\ m <= d)
      (map Z.of_nat (seq 0 (length results - 1))) ds.
Proof.
  intros HN Hfactory Hm H53 Hfn Hrnd.
  destruct (Do_sleeps r fn (fun _ w1 => unit_source (rand w1))
              (fun k d => Z.min M (m * 2 ^ k) / 2 <= d <= Z.min M (m * 2 ^ k) /\ m <= d)
              w HN)
    as (err & w' & results & ds & Hrun & Hsl & HF & _).
  - intros i w1 Hsrc. destruct (Hfn w1) as (Hr & Hs & _).
    rewrite Hr. split; [exact Hsrc | exact Hs].
  - intros i w1 Hi Hmore Hsrc. rewrite Hfactory.
    pose proof (exponential_jitter_range m M i (rand w1) ltac:(lia) H53
                  ltac:(unfold is_uint64; lia) (Hsrc _)) as Hrange.
    cbv zeta in Hrange.
    assert (HE : (if i <? 63 then Z.min M (m * 2 ^ i) else M) = Z.min M (m * 2 ^ i)).
    { destruct (Z.ltb_spec i 63) as [_ | Hge]; [reflexivity |].
      symmetry. apply min_pow_large; [lia | unfold MaxInt64; lia | exact Hge]. }
    rewrite HE in Hrange. destruct Hrange as (Hd & Hlow & Hsnd).
    simpl.
    destruct (ExponentialBackoff.getDuration (NewExponentialBackoff m M) i (rand w1))
      as [d rnd'].
    cbn [fst snd] in Hd, Hlow, Hsnd. exists d.
    split; [reflexivity | split; [split; assumption |]].
    cbn [rand time_Sleep]. intros j. subst rnd'.
    destruct (i <? 63); apply Hsrc.
  - rewrite Hfactory. exact Hrnd.
  - rewrite Hfactory. reflexivity.
  - exists err, w', results, ds. repeat split; assumption.
Qed.

Lemma unit_source_of_list_half : unit_source (rand_of_list [half; half]).
Proof.
  intros [| [| [| j]]]; vm_compute; reflexivity.
Qed.

Lemma keeps_package_state_makeFn (i : Z) : keeps_package_state (makeFn i).
Proof.
  intros w. unfold makeFn. destruct (count (user w) <? i); repeat split; reflexivity.
Qed.

Lemma Do_ExponentialBackoff_sleeps_witness :
  exists err w' (results : list error) (ds : list Duration),
    Do (traced (NewRetrier [MaxAttemptsOption 3;
                            BackoffOption (asFactory (NewExponentialBackoff 100 30000))]))
       (traced_fn (makeFn 5)) (test_world (rand_of_list [half; half]), [])
      = Some (err, (w', EvNew :: attempts_trace 0 results)) /\
    sleeps w' = sleeps (test_world (rand_of_list [half; half])) ++ ds /\
    Forall2 (fun k d => Z.min 30000 (100 * 2 ^ k) / 2 <= d <= Z.min 30000 (100 * 2 ^ k)
                        /\ 100 <= d)
      (map Z.of_nat (seq 0 (length results - 1))) ds.
Proof.
  apply (Do_ExponentialBackoff_sleeps
           (NewRetrier [MaxAttemptsOption 3;
                        BackoffOption (asFactory (NewExponentialBackoff 100 30000))])
           (makeFn 5) 100 30000 (test_world (rand_of_list [half; half]))).
  - simpl. lia.
  - reflexivity.
  - lia.
  - lia.
  - exact (keeps_package_state_makeFn 5).
  - exact unit_source_of_list_half.
Defined.

(** * More on the decorrelated backoff *)

Lemma nth_error_app_last {A} (l : list A) (x : A) :
  nth_error (l ++ [x]) (length l) = Some x.
Proof.
  induction l as [| y l IH]; [reflexivity | exact IH].
Qed.

Lemma store_app_last {A} (l : list A) (x y : A) :
  store (l ++ [x]) (length l) y = l ++ [y].
Proof.
  induction l as [| z l IH]; [reflexivity |].
  cbn [app length store]. rewrite IH. reflexivity.
Qed.

(** After the first call the struct is never written again: any number of
    calls leaves it as it is, takes one draw each, and returns durations of
    at most [maxWait], whatever the draws are. *)
Lemma decorrelated_later_capped (b : decorrelatedExponentialBackoff.t) :
  decorrelatedExponentialBackoff.lastWait b <> zeroDuration ->
  forall (n : nat) (rnd : Rand),
    exists ds,
      decorrelatedExponentialBackoff.getDurations n b rnd
        = (ds, b, {| draws := draws rnd; taken := (taken rnd + n)%nat |}) /\
      length ds = n /\
      Forall (fun d => d <= decorrelatedExponentialBackoff.maxWait b) ds.
Proof.
  intros Hlast. induction n as [| n IH]; intros rnd.
  - exists []. rewrite Nat.add_0_r. destruct rnd. repeat split. constructor.
  - cbn [decorrelatedExponentialBackoff.getDurations].
    unfold decorrelatedExponentialBackoff.getDuration at 1.
    destruct (Z.eqb_spec (decorrelatedExponentialBackoff.lastWait b) zeroDuration)
      as [Heq | _]; [contradiction |].
    cbn [rand_Float64].
    destruct (IH {| draws := draws rnd; taken := S (taken rnd) |}) as (ds & Hcalls & Hlen & Hds).
    rewrite Hcalls. cbn [draws taken].
    eexists. split; [| split].
    + rewrite Nat.add_succ_r. reflexivity.
    + cbn [length]. rewrite Hlen. reflexivity.
    + constructor; [| exact Hds].
      unfold minInt64.
      match goal with |- context [?a <? ?c] => destruct (Z.ltb_spec a c) end; lia.
Qed.

(** With [minWait = 0] every call is a first call. *)
Lemma decorrelated_zero_calls (M : Z) (n : nat) (rnd : Rand) :
  let b := {| decorrelatedExponentialBackoff.minWait := 0;
              decorrelatedExponentialBackoff.maxWait := M;
              decorrelatedExponentialBackoff.lastWait := 0 |} in
  decorrelatedExponentialBackoff.getDurations n b rnd = (repeat 0 n, b, rnd).
Proof.
  cbv zeta. induction n as [| n IH]; [reflexivity |].
  cbn [decorrelatedExponentialBackoff.getDurations].
  unfold decorrelatedExponentialBackoff.getDuration at 1.
  cbn [decorrelatedExponentialBackoff.lastWait decorrelatedExponentialBackoff.minWait
       decorrelatedExponentialBackoff.maxWait Z.eqb zeroDuration].
  rewrite IH. reflexivity.
Qed.

(** X8. The decorrelated backoff never returns more than [maxWait] after the
    first call, whatever [math/rand] yields and however large the waits are:
    for an instance fresh from its factory with [minWait <= maxWait], the
    first call returns [minWait] and each of the [n] calls that follow a
    duration of at most [maxWait]. *)
Theorem decorrelated_never_above_maxWait (b : DecorrelatedExponentialBackoff.t)
    (n : nat) (rnd : Rand) :
  DecorrelatedExponentialBackoff.minWait b <= DecorrelatedExponentialBackoff.maxWait b ->
  exists ds b' rnd',
    decorrelatedExponentialBackoff.getDurations (S n)
      (decorrelatedExponentialBackoff.fresh b) rnd
      = (DecorrelatedExponentialBackoff.minWait b :: ds, b', rnd') /\
    length ds = n /\
    Forall (fun d => d <= DecorrelatedExponentialBackoff.maxWait b) ds.
Proof.
  destruct b as [m M]. cbn [DecorrelatedExponentialBackoff.minWait
                             DecorrelatedExponentialBackoff.maxWait].
  intros Hm.
  cbn [decorrelatedExponentialBackoff.getDurations].
  rewrite decorrelated_first_call.
  cbn [DecorrelatedExponentialBackoff.minWait DecorrelatedExponentialBackoff.maxWait].
  destruct (Z.eq_dec m 0) as [-> | Hne].
  - rewrite (decorrelated_zero_calls M n rnd).
    exists (repeat 0 n). eexists. eexists.
    split; [reflexivity | split; [apply repeat_length |]].
    apply Forall_forall. intros d Hd. apply repeat_spec in Hd. lia.
  - destruct (decorrelated_later_capped
                {| decorrelatedExponentialBackoff.minWait := m;
                   decorrelatedExponentialBackoff.maxWait := M;
                   decorrelatedExponentialBackoff.lastWait := m |} Hne n rnd)
      as (ds & Hcalls & Hlen & Hds).
    rewrite Hcalls. exists ds. eexists. eexists.
    split; [reflexivity | split; [exact Hlen | exact Hds]].
Qed.

(** Waits above [2^53], where the lower bound of the interval is lost. *)
Lemma decorrelated_never_above_maxWait_witness :
  exists ds b' rnd',
    decorrelatedExponentialBackoff.getDurations 3
      (decorrelatedExponentialBackoff.fresh
         (NewDecorrelatedExponentialBackoff (2 ^ 53 + 1) (2 ^ 60)))
      (rand_of_list [half; of_scaled 3 (-2)])
      = (2 ^ 53 + 1 :: ds, b', rnd') /\
    length ds = 2%nat /\
    Forall (fun d => d <= 2 ^ 60) ds.
Proof.
  apply (decorrelated_never_above_maxWait
           (NewDecorrelatedExponentialBackoff (2 ^ 53 + 1) (2 ^ 60)) 2
           (rand_of_list [half; of_scaled 3 (-2)])).
  simpl. lia.
Defined.

(** X9. The decorrelated backoff does not grow: since the stored last wait
    stays at [minWait] after the first call, every later duration lies
    between [minWait] and [min(maxWait, 3 * minWait)], however many calls
    are made (while [float64] holds the integers of the computation). *)
Theorem decorrelated_wait_never_grows (b : DecorrelatedExponentialBackoff.t)
    (n : nat) (rnd : Rand) :
  let m := DecorrelatedExponentialBackoff.minWait b in
  let M := DecorrelatedExponentialBackoff.maxWait b in
  0 < m <= M -> 3 * m < 2 ^ 53 -> M <= MaxInt64 ->
  unit_draws rnd n ->
  exists ds rnd',
    decorrelatedExponentialBackoff.getDurations (S n)
      (decorrelatedExponentialBackoff.fresh b) rnd
      = (m :: ds,
         {| decorrelatedExponentialBackoff.minWait := m;
            decorrelatedExponentialBackoff.maxWait := M;
            decorrelatedExponentialBackoff.lastWait := m |},
         rnd') /\
    Forall (fun d => m <= d <= Z.min M (3 * m)) ds.
Proof.
  cbv zeta. intros Hm H53 HM Hdraws.
  destruct (decorrelated_later_calls _ _ n Hm H53 HM rnd Hdraws)
    as (ds & rnd' & Hcalls & Hds).
  exists ds, rnd'.
  cbn [decorrelatedExponentialBackoff.getDurations].
  rewrite decorrelated_first_call, Hcalls.
  split; [reflexivity | exact Hds].
Qed.

(** [DefaultBackoff]: after the first 500 ms, every wait is between 500 ms
    and 1.5 s. *)
Lemma decorrelated_wait_never_grows_witness :
  exists ds rnd',
    decorrelatedExponentialBackoff.getDurations 3
      (decorrelatedExponentialBackoff.fresh DefaultBackoff)
      (rand_of_list [half; of_scaled 3 (-2)])
      = (500000000 :: ds,
         {| decorrelatedExponentialBackoff.minWait := 500000000;
            decorrelatedExponentialBackoff.maxWait := 60000000000;
            decorrelatedExponentialBackoff.lastWait := 500000000 |},
         rnd') /\
    Forall (fun d => 500000000 <= d <= Z.min 60000000000 (3 * 500000000)) ds.
Proof.
  apply (decorrelated_wait_never_grows DefaultBackoff 2
           (rand_of_list [half; of_scaled 3 (-2)])).
  - simpl. lia.
  - simpl. lia.
  - simpl. unfold MaxInt64. lia.
  - intros [| [| j]] Hj; [vm_compute; reflexivity | vm_compute; reflexivity | lia].
Defined.

(** X10. The decorrelated backoff with [Do], while [float64] holds the
    integers of the computation: each run gets an instance of its own, so
    whatever runs came before, the first pause of a run sleeps exactly
    [minWait]; every later pause sleeps between [minWait] and
    [min(maxWait, 3 * minWait)]; and the instances of earlier runs are left
    as they were. The operation neither sleeps nor draws random numbers. *)
Theorem Do_DecorrelatedBackoff_sleeps {U} (r : Retrier (World U))
    (fn : World U -> error * World U) (b : DecorrelatedExponentialBackoff.t)
    (w : World U) :
  let m := DecorrelatedExponentialBackoff.minWait b in
  let M := DecorrelatedExponentialBackoff.maxWait b in
  0 <= maxAttempts r < 2 ^ 64 ->
  backoffFactory r = asFactory b ->
  0 < m <= M -> 3 * m < 2 ^ 53 -> M <= MaxInt64 ->
  keeps_package_state fn -> unit_source (rand w) ->
  exists err w' (results : list error) (ds : list Duration) b',
    Do (traced r) (traced_fn fn) (w, [])
      = Some (err, (w', EvNew :: attempts_trace 0 results)) /\
    sleeps w' = sleeps w ++ ds /\
    Forall2 (fun k d => if k =? 0 then d = m else m <= d <= Z.min M (3 * m))
      (map Z.of_nat (seq 0 (length results - 1))) ds /\
    heap w' = heap w ++ [b'].
Proof.
  cbv zeta. intros HN Hfactory Hm H53 HM Hfn Hrnd.
  set (m := DecorrelatedExponentialBackoff.minWait b) in *.
  set (M := DecorrelatedExponentialBackoff.maxWait b) in *.
  set (later := {| decorrelatedExponentialBackoff.minWait := m;
                   decorrelatedExponentialBackoff.maxWait := M;
                   decorrelatedExponentialBackoff.lastWait := m |}).
  destruct (Do_sleeps r fn
              (fun i w1 => unit_source (rand w1) /\
                           heap w1 = heap w ++
                             [if i =? 0 then decorrelatedExponentialBackoff.fresh b
                              else later])
              (fun k d => if k =? 0 then d = m else m <= d <= Z.min M (3 * m))
              w HN)
    as (err & w' & results & ds & Hrun & Hsl & HF & _ & Hheap).
  - intros i w1 [Hsrc Hh]. destruct (Hfn w1) as (Hr & Hs & Hhp).
    rewrite Hr, Hhp. repeat split; assumption.
  - intros i w1 Hi Hmore [Hsrc Hh]. rewrite Hfactory.
    cbn [asFactory Decorrelated_Factory New fst asBackoff decorrelated_Backoff
         backoff address].
    rewrite Hh, nth_error_app_last.
    assert (Hnext : (i + 1 =? 0) = false) by (apply Z.eqb_neq; lia).
    rewrite Hnext.
    destruct (Z.eqb_spec i 0) as [-> | Hpos].
    + rewrite decorrelated_first_call, store_app_last. exists m.
      split; [reflexivity | split; [reflexivity |]].
      split; [exact Hsrc | reflexivity].
    + destruct (decorrelated_later_call m M (rand w1) Hm H53 HM (Hsrc _))
        as (d & Hcall & Hd).
      fold later in Hcall. rewrite Hcall, store_app_last. exists d.
      split; [reflexivity | split; [exact Hd |]].
      split; [intros j; apply Hsrc | reflexivity].
  - rewrite Hfactory. split; [exact Hrnd | reflexivity].
  - rewrite Hfactory. reflexivity.
  - exists err, w', results, ds. eexists.
    repeat split; eassumption.
Qed.

(** The default retrier with three attempts, after an earlier run that left
    its instance behind: 500 ms, then a wait between 0.5 s and 1.5 s. *)
Lemma Do_DecorrelatedBackoff_sleeps_witness :
  let w := {| user := {| count := 0; iterations := [] |};
              rand := rand_of_list [half; half];
              sleeps := [500000000; 1000000000];
              heap := [{| decorrelatedExponentialBackoff.minWait := 500000000;
                          decorrelatedExponentialBackoff.maxWait := 60000000000;
                          decorrelatedExponentialBackoff.lastWait := 500000000 |}] |} in
  exists err w' (results : list error) (ds : list Duration) b',
    Do (traced (NewRetrier [MaxAttemptsOption 3])) (traced_fn (makeFn 5)) (w, [])
      = Some (err, (w', EvNew :: attempts_trace 0 results)) /\
    sleeps w' = sleeps w ++ ds /\
    Forall2 (fun k d => if k =? 0 then d = 500000000
                        else 500000000 <= d <= Z.min 60000000000 (3 * 500000000))
      (map Z.of_nat (seq 0 (length results - 1))) ds /\
    heap w' = heap w ++ [b'].
Proof.
  cbv zeta.
  apply (Do_DecorrelatedBackoff_sleeps (NewRetrier [MaxAttemptsOption 3]) (makeFn 5)
           DefaultBackoff).
  - simpl. lia.
  - reflexivity.
  - simpl. lia.
  - simpl. lia.
  - simpl. unfold MaxInt64. lia.
  - exact (keeps_package_state_makeFn 5).
  - exact unit_source_of_list_half.
Defined.

(** * [NoopBackoff] *)

(** With a backoff that does nothing, the world after the loop is the world
    after the invocations alone. *)
Lemma loop_noop {W} (r : Retrier W) (b : Backoff W) (fn : W -> error * W) :
  (forall i w, backoff b i w = w) ->
  maxAttempts r < 2 ^ 64 ->
  forall (fuel : nat) (i : Z) (e0 : error) (w : W) (t : list Event)
         (err : error) (w' : W) (t' : list Event),
    0 <= i ->
    Do_loop (traced r) (traced_backoff b) (traced_fn fn) fuel i e0 (w, t)
      = Some (err, (w', t')) ->
    exists t'',
      t' = t ++ t'' /\
      w' = Nat.iter (length (call_results t'')) (fun w1 => snd (fn w1)) w.
Proof.
  intros Hnoop HN. induction fuel as [| fuel IH];
    intros i e0 w t err w' t' Hi Hrun; [discriminate Hrun |].
  destruct (Z.lt_ge_cases i (maxAttempts r)) as [Hlt | Hge].
  - rewrite loop_attempt in Hrun by lia. cbv zeta in Hrun.
    destruct (isRetriable r (fst (fn w))); simpl negb in Hrun; cbv iota in Hrun.
    + rewrite Hnoop in Hrun.
      destruct (i + 1 <? maxAttempts r).
      * apply IH in Hrun; [| lia]. destruct Hrun as (t'' & Ht & Hw).
        exists (EvCall (fst (fn w)) :: EvBackoff i :: t'').
        split; [rewrite Ht, <- !app_assoc; reflexivity |].
        cbn [call_results length]. rewrite Nat.iter_succ_r. exact Hw.
      * apply IH in Hrun; [| lia]. destruct Hrun as (t'' & Ht & Hw).
        exists (EvCall (fst (fn w)) :: t'').
        split; [rewrite Ht, <- !app_assoc; reflexivity |].
        cbn [call_results length]. rewrite Nat.iter_succ_r. exact Hw.
    + injection Hrun as _ Hw Ht. subst w' t'.
      exists [EvCall (fst (fn w))]. split; reflexivity.
  - rewrite loop_exit in Hrun by lia.
    injection Hrun as _ Hw Ht. subst w' t'.
    exists []. rewrite app_nil_r. split; reflexivity.
Qed.

(** X11. [NoopBackoff] with [Do]: the pauses change nothing. After a run
    with [n] invocations the world is the one that [n] invocations in a row
    leave behind; in particular nothing has slept. *)
Theorem Do_NoopBackoff_world {U} (r : Retrier (World U))
    (fn : World U -> error * World U) (w : World U) :
  0 <= maxAttempts r < 2 ^ 64 ->
  backoffFactory r = asFactory (@NoopBackoff U) ->
  exists err w' (results : list error),
    Do (traced r) (traced_fn fn) (w, [])
      = Some (err, (w', EvNew :: attempts_trace 0 results)) /\
    w' = Nat.iter (length results) (fun w1 => snd (fn w1)) w.
Proof.
  intros HN Hfactory.
  destruct (Do_run r fn w HN) as (err & w' & results & Hrun & _).
  exists err, w', results. split; [exact Hrun |].
  rewrite Do_traced, Hfactory in Hrun.
  apply loop_noop in Hrun; [| intros i w1; reflexivity | lia | lia].
  destruct Hrun as (t'' & Ht & Hw).
  injection Ht as Ht. subst t''.
  rewrite call_results_attempts in Hw. exact Hw.
Qed.

Lemma Do_NoopBackoff_world_witness :
  exists err w' (results : list error),
    Do (traced (NewRetrier [MaxAttemptsOption 3; BackoffOption (asFactory NoopBackoff)]))
       (traced_fn (makeFn 5)) (test_world (rand_of_list []), [])
      = Some (err, (w', EvNew :: attempts_trace 0 results)) /\
    w' = Nat.iter (length results) (fun w1 => snd (makeFn 5 w1))
           (test_world (rand_of_list [])).
Proof.
  apply (Do_NoopBackoff_world
           (NewRetrier [MaxAttemptsOption 3; BackoffOption (asFactory NoopBackoff)])
           (makeFn 5) (test_world (rand_of_list []))).
  - simpl. lia.
  - reflexivity.
Defined.

(** * Options *)

Lemma fold_options {W} (l : list (Setting W)) :
  forall r0 : Retrier W,
    let r := fold_left (fun r option => option r) (map option_of l) r0 in
    maxAttempts r = last (given_maxAttempts l) (maxAttempts r0) /\
    isRetriable r = last (given_isRetriable l) (isRetriable r0) /\
    backoffFactory r = last (given_backoff l) (backoffFactory r0).
Proof.
  induction l as [| s l IH]; intros r0; [repeat split |].
  cbv zeta. cbn [map fold_left].
  destruct (IH (option_of s r0)) as (Hmax & Hretr & Hback).
  rewrite Hmax, Hretr, Hback.
  destruct s as [n | f | b];
    cbn [given_maxAttempts given_isRetriable given_backoff flat_map app option_of
         MaxAttemptsOption RetriableOption BackoffOption
         maxAttempts isRetriable backoffFactory];
    rewrite ?last_cons_default; repeat split.
Qed.

(** X12. [NewRetrier] applies its options in order, each to the field it
    names: a field ends up with the value of the last option given for it,
    and with its default (1 attempt, [AnyErr], [DefaultBackoff]) when no
    option was given for it; options for other fields do not matter. *)
Theorem NewRetrier_last_option_wins {U} (l : list (Setting (World U))) :
  let r := NewRetrier (map option_of l) in
  maxAttempts r = last (given_maxAttempts l) defaultMaxAttempts /\
  isRetriable r = last (given_isRetriable l) AnyErr /\
  backoffFactory r = last (given_backoff l) (asFactory DefaultBackoff).
Proof.
  cbv zeta. unfold NewRetrier, NewRetrier_with.
  apply (fold_options l).
Qed.

(** * The client of utils/rpc *)

Lemma fold_client_options {T U} (rs : list (Retrier (World U))) :
  forall c0 : rpc.Client T U,
    let c := fold_left (fun client option => option client)
               (map rpc.RetrierOption rs) c0 in
    rpc.TransportFactory c = rpc.TransportFactory c0 /\
    rpc.Retrier c = last rs (rpc.Retrier c0).
Proof.
  induction rs as [| x rs IH]; intros c0; [split; reflexivity |].
  cbv zeta. cbn [map fold_left].
  destruct (IH (rpc.RetrierOption x c0)) as [Htf Hr].
  rewrite Htf, Hr, last_cons_default. split; reflexivity.
Qed.

(** X13. [NewClient] keeps the transport factory it was given, whatever
    options follow, and its retrier is the one of the last [RetrierOption],
    or [retry.NewRetrier()] when there is none. *)
Theorem NewClient_retrier {T U} (transportFactory : T)
    (rs : list (Retrier (World U))) :
  let c := rpc.NewClient transportFactory (map rpc.RetrierOption rs) in
  rpc.TransportFactory c = transportFactory /\
  rpc.Retrier c = last rs (NewRetrier []).
Proof.
  cbv zeta. unfold rpc.NewClient.
  apply (fold_client_options rs).
Qed.

(** X14. A client made without options does not retry: whatever the call
    returns, [Do] of its retrier invokes the call once, never pauses, and
    returns what the call returned. *)
Theorem NewClient_default_single_attempt {T U} (transportFactory : T)
    (fn : World U -> error * World U) (w : World U) :
  let r := rpc.Retrier (rpc.NewClient (U := U) transportFactory []) in
  let w1 := snd (New (backoffFactory r) w) in
  Do (traced r) (traced_fn fn) (w, [])
    = Some (fst (fn w1), (snd (fn w1), [EvNew; EvCall (fst (fn w1))])).
Proof.
  cbv zeta.
  set (r := rpc.Retrier (rpc.NewClient (U := U) transportFactory [])).
  assert (Hmax : maxAttempts r = 1) by reflexivity.
  rewrite Do_traced, Hmax. change (Z.to_nat 1) with 1%nat.
  rewrite loop_attempt by (rewrite Hmax; lia). cbv zeta. rewrite Hmax.
  destruct (negb _); [reflexivity |].
  change (0 + 1 <? 1) with false. cbv iota.
  rewrite loop_exit by (rewrite Hmax; lia). reflexivity.
Qed.

(** * The default predicate *)

(** X15. With the default predicate [AnyErr], whatever the operation does:
    [Do] returns nil exactly when the last invocation succeeded (or nothing
    was invoked), every invocation before the last one failed, and [Do]
    returns an error only after [maxAttempts] invocations, that error being
    the one of the last invocation. *)
Theorem Do_default_predicate {W} (r : Retrier W) (fn : W -> error * W) (w : W) :
  isRetriable r = AnyErr -> 0 <= maxAttempts r < 2 ^ 64 ->
  exists err w' t,
    Do (traced r) (traced_fn fn) (w, []) = Some (err, (w', t)) /\
    err = last (call_results t) None /\
    Forall (fun e => e <> None) (removelast (call_results t)) /\
    (err <> None -> Z.of_nat (length (call_results t)) = maxAttempts r).
Proof.
  intros Hdefault HN.
  destruct (Do_run r fn w HN)
    as (err & w' & results & Hrun & Herr & Hall & Hlen & Hstop).
  exists err, w', (EvNew :: attempts_trace 0 results).
  cbn [call_results]. rewrite call_results_attempts.
  split; [exact Hrun | split; [exact Herr | split]].
  - eapply Forall_impl; [| exact Hall].
    intros e He. rewrite Hdefault in He. destruct e; [discriminate | discriminate He].
  - intros Hfail.
    destruct (Z.lt_ge_cases (Z.of_nat (length results)) (maxAttempts r))
      as [Hshort | Hfull]; [| lia].
    destruct (Hstop Hshort) as [_ Hres]. rewrite Hdefault in Hres.
    destruct err; [discriminate Hres | contradiction].
Qed.

(** [retrier0] of [TestRetrier_Do]: three attempts, three failures. *)
Lemma Do_default_predicate_witness :
  exists err w' t,
    Do (traced (NewRetrier [MaxAttemptsOption 3])) (traced_fn (makeFn 3))
       (test_world (rand_of_list []), []) = Some (err, (w', t)) /\
    err = last (call_results t) None /\
    Forall (fun e => e <> None) (removelast (call_results t)) /\
    (err <> None -> Z.of_nat (length (call_results t)) = 3).
Proof.
  apply (Do_default_predicate (NewRetrier [MaxAttemptsOption 3]) (makeFn 3)
           (test_world (rand_of_list []))).
  - reflexivity.
  - simpl. lia.
Defined.

(** * gen: names *)

(** The cases of [TestTitleCases] (parse_test.go). *)
Lemma TestTitleCases :
  map gen.titleCase
    ["t"; "baseCase"; "snake_case"; "snake_json"; "json_snake"; "s_json_snake";
     "jSon_snake"; "Args"; "AResult"; "json_args"]%string
  = map Some
      ["T"; "BaseCase"; "SnakeCase"; "SnakeJSON"; "JSONSnake"; "SJSONSnake";
       "JSonSnake"; "Args_"; "AResult_"; "JSONArgs_"]%string.
Proof. vm_compute. reflexivity. Qed.

(** ** Splitting and joining *)

Lemma Split_nonempty (s : string) (sep : ascii) : strings.Split s sep <> [].
Proof.
  destruct s as [| c s]; cbn [strings.Split]; [discriminate |].
  destruct (Ascii.eqb c sep); [discriminate |].
  destruct (strings.Split s sep); discriminate.
Qed.

Lemma Split_parts_clean (s : string) (sep : ascii) :
  Forall (fun part => count_byte sep part = O) (strings.Split s sep).
Proof.
  induction s as [| c s IH]; cbn [strings.Split].
  - repeat constructor.
  - destruct (Ascii.eqb c sep) eqn:Hc.
    + constructor; [reflexivity | exact IH].
    + destruct (strings.Split s sep) as [| part parts].
      * constructor; [cbn [count_byte]; rewrite Hc; reflexivity | constructor].
      * inversion IH as [| ? ? Hpart Hparts]; subst.
        constructor; [cbn [count_byte]; rewrite Hc; exact Hpart | exact Hparts].
Qed.

Lemma Split_length (s : string) (sep : ascii) :
  length (strings.Split s sep) = S (count_byte sep s).
Proof.
  induction s as [| c s IH]; cbn [strings.Split count_byte]; [reflexivity |].
  destruct (Ascii.eqb c sep).
  - cbn [length]. rewrite IH. reflexivity.
  - destruct (strings.Split s sep) as [| part parts]; [discriminate IH | exact IH].
Qed.

Lemma Join_Split (s : string) (sep : ascii) :
  strings.Join (strings.Split s sep) (String sep EmptyString) = s.
Proof.
  induction s as [| c s IH]; cbn [strings.Split]; [reflexivity |].
  destruct (Ascii.eqb_spec c sep) as [-> | Hne].
  - pose proof (Split_nonempty s sep) as Hne.
    destruct (strings.Split s sep) as [| part parts]; [contradiction |].
    change (strings.Join (EmptyString :: part :: parts) (String sep EmptyString))
      with (String sep (strings.Join (part :: parts) (String sep EmptyString))).
    rewrite IH. reflexivity.
  - pose proof (Split_nonempty s sep) as Hnil.
    destruct (strings.Split s sep) as [| part parts]; [contradiction |].
    rewrite <- IH. destruct parts; reflexivity.
Qed.

Lemma Split_clean (s : string) (sep : ascii) :
  count_byte sep s = O -> strings.Split s sep = [s].
Proof.
  induction s as [| c s IH]; cbn [count_byte strings.Split]; [reflexivity |].
  destruct (Ascii.eqb c sep); [discriminate |].
  intros H. rewrite (IH H). reflexivity.
Qed.

Lemma Split_app (x t : string) (sep : ascii) :
  count_byte sep x = O ->
  strings.Split (x ++ String sep t)%string sep = x :: strings.Split t sep.
Proof.
  induction x as [| c x IH]; cbn [count_byte String.append strings.Split].
  - rewrite Ascii.eqb_refl. reflexivity.
  - destruct (Ascii.eqb c sep); [discriminate |].
    intros H. rewrite (IH H). reflexivity.
Qed.

Lemma Split_Join (parts : list string) (sep : ascii) :
  parts <> [] ->
  Forall (fun part => count_byte sep part = O) parts ->
  strings.Split (strings.Join parts (String sep EmptyString)) sep = parts.
Proof.
  induction parts as [| x rest IH]; intros Hne Hclean; [contradiction |].
  inversion Hclean as [| ? ? Hx Hrest]; subst.
  destruct rest as [| y rest].
  - apply Split_clean. exact Hx.
  - change (strings.Join (x :: y :: rest) (String sep EmptyString))
      with (x ++ String sep (strings.Join (y :: rest) (String sep EmptyString)))%string.
    rewrite Split_app by exact Hx.
    rewrite IH; [reflexivity | discriminate | exact Hrest].
Qed.

Lemma count_byte_app (c : ascii) (x y : string) :
  count_byte c (x ++ y)%string = (count_byte c x + count_byte c y)%nat.
Proof.
  induction x as [| a x IH]; cbn [String.append count_byte]; [reflexivity |].
  destruct (Ascii.eqb a c); rewrite IH; reflexivity.
Qed.

Lemma count_byte_Join (parts : list string) (sep : ascii) :
  Forall (fun part => count_byte sep part = O) parts ->
  count_byte sep (strings.Join parts (String sep EmptyString)) = (length parts - 1)%nat.
Proof.
  induction 1 as [| x rest Hx Hrest IH]; [reflexivity |].
  destruct rest as [| y rest]; [cbn [strings.Join length]; rewrite Hx; reflexivity |].
  change (strings.Join (x :: y :: rest) (String sep EmptyString))
    with (x ++ String sep (strings.Join (y :: rest) (String sep EmptyString)))%string.
  rewrite count_byte_app, Hx. cbn [count_byte]. rewrite Ascii.eqb_refl, IH.
  cbn [length]. lia.
Qed.

(** ** [fixForInitialismCase] *)

Lemma fix_passes (l : list string) :
  Forall (fun x => count_byte "_" (strings.ToUpper x) = O) l ->
  forall s,
    fold_left
      (fun s initialism =>
         let parts := strings.Split s "_" in
         let parts :=
           map (fun part =>
                  if String.eqb part initialism then strings.ToUpper initialism
                  else part) parts in
         strings.Join parts "_") l s
    = strings.Join (map (replace_parts l) (strings.Split s "_")) "_".
Proof.
  induction 1 as [| x l Hx Hl IH]; intros s.
  - cbn [fold_left]. unfold replace_parts. cbn [fold_left].
    rewrite map_id. symmetry. apply Join_Split.
  - cbn [fold_left]. cbv zeta. rewrite IH.
    rewrite Split_Join.
    + rewrite map_map. reflexivity.
    + pose proof (Split_nonempty s "_") as Hne.
      destruct (strings.Split s "_"); [contradiction | discriminate].
    + apply Forall_map. eapply Forall_impl; [| apply Split_parts_clean].
      intros part Hpart. cbv beta. destruct (String.eqb part x); assumption.
Qed.

Lemma replace_parts_other (l : list string) (part : string) :
  existsb (String.eqb part) l = false -> replace_parts l part = part.
Proof.
  unfold replace_parts. induction l as [| x l IH]; [reflexivity |].
  cbn [existsb fold_left]. intros H. apply orb_false_iff in H. destruct H as [Hx Hl].
  unfold replace_part at 2. rewrite Hx. apply IH. exact Hl.
Qed.

Lemma replace_parts_spec (l : list string) :
  (forall x y, In x l -> In y l -> String.eqb (strings.ToUpper x) y = false) ->
  forall part,
    replace_parts l part
    = if existsb (String.eqb part) l then strings.ToUpper part else part.
Proof.
  induction l as [| x l IH]; intros Hupper part; [reflexivity |].
  unfold replace_parts. cbn [existsb fold_left]. fold (replace_parts l).
  unfold replace_part.
  destruct (String.eqb_spec part x) as [-> | Hne]; cbn [orb].
  - apply replace_parts_other.
    destruct (existsb (String.eqb (strings.ToUpper x)) l) eqn:Hex; [| reflexivity].
    apply existsb_exists in Hex. destruct Hex as (y & Hy & Heq).
    rewrite (Hupper x y (or_introl eq_refl) (or_intror Hy)) in Heq. discriminate.
  - apply IH. intros a c Ha Hc. apply Hupper; right; assumption.
Qed.

(** No initialism in upper case is an initialism, or holds an underscore. *)
Lemma initialisms_upper :
  (forall x y, In x gen.initialismList -> In y gen.initialismList ->
     String.eqb (strings.ToUpper x) y = false) /\
  Forall (fun x => count_byte "_" (strings.ToUpper x) = O) gen.initialismList.
Proof.
  split.
  - assert (H : forallb (fun x =>
                   forallb (fun y => negb (String.eqb (strings.ToUpper x) y))
                     gen.initialismList) gen.initialismList = true)
      by (vm_compute; reflexivity).
    intros x y Hx Hy.
    rewrite forallb_forall in H. specialize (H x Hx).
    rewrite forallb_forall in H. specialize (H y Hy).
    apply negb_true_iff. exact H.
  - apply Forall_forall.
    assert (H : forallb (fun x => Nat.eqb (count_byte "_" (strings.ToUpper x)) 0)
                  gen.initialismList = true)
      by (vm_compute; reflexivity).
    intros x Hx. rewrite forallb_forall in H. apply Nat.eqb_eq. apply H. exact Hx.
Qed.

Lemma fixForInitialismCase_spec (s : string) :
  gen.fixForInitialismCase s
  = strings.Join (map upcase_initialism (strings.Split s "_")) "_".
Proof.
  unfold gen.fixForInitialismCase.
  rewrite (fix_passes gen.initialismList (proj2 initialisms_upper)).
  f_equal. apply map_ext. intros part.
  apply (replace_parts_spec gen.initialismList (proj1 initialisms_upper)).
Qed.

Lemma upcase_initialism_clean (part : string) :
  count_byte "_" part = O -> count_byte "_" (upcase_initialism part) = O.
Proof.
  intros Hpart. unfold upcase_initialism.
  destruct (existsb (String.eqb part) gen.initialismList) eqn:Hex; [| exact Hpart].
  apply existsb_exists in Hex. destruct Hex as (x & Hx & Heq).
  apply String.eqb_eq in Heq. subst x.
  pose proof (proj2 initialisms_upper) as H.
  rewrite Forall_forall in H. apply H. exact Hx.
Qed.

Lemma Split_fixForInitialismCase (s : string) :
  strings.Split (gen.fixForInitialismCase s) "_"
  = map upcase_initialism (strings.Split s "_").
Proof.
  rewrite fixForInitialismCase_spec. apply Split_Join.
  - pose proof (Split_nonempty s "_") as Hne.
    destruct (strings.Split s "_"); [contradiction | discriminate].
  - apply Forall_map. eapply Forall_impl; [| apply Split_parts_clean].
    intros part. apply upcase_initialism_clean.
Qed.

(** X16. [fixForInitialismCase], with its 35 passes of splitting, replacing
    and joining, does one thing: of the parts of the string between its
    underscores, those that are one of the initialisms of the list (in lower
    case, exactly) are put in upper case, and everything else, the
    underscores included, is left as it is. A second application changes
    nothing. *)
Theorem fixForInitialismCase_parts (s : string) :
  gen.fixForInitialismCase s
    = strings.Join (map upcase_initialism (strings.Split s "_")) "_" /\
  gen.fixForInitialismCase (gen.fixForInitialismCase s) = gen.fixForInitialismCase s.
Proof.
  split; [apply fixForInitialismCase_spec |].
  rewrite (fixForInitialismCase_spec (gen.fixForInitialismCase s)).
  rewrite Split_fixForInitialismCase, map_map.
  rewrite (fixForInitialismCase_spec s).
  f_equal. apply map_ext. intros part. unfold upcase_initialism.
  destruct (existsb (String.eqb part) gen.initialismList) eqn:Hex; [| rewrite Hex; reflexivity].
  destruct (existsb (String.eqb (strings.ToUpper part)) gen.initialismList) eqn:Hup;
    [| reflexivity].
  apply existsb_exists in Hex. destruct Hex as (x & Hx & Heq).
  apply String.eqb_eq in Heq. subst x.
  apply existsb_exists in Hup. destruct Hup as (y & Hy & Heq).
  rewrite (proj1 initialisms_upper part y Hx Hy) in Heq. discriminate.
Qed.

(** ** [titleCase] *)

Lemma append_empty_r (s : string) : (s ++ "")%string = s.
Proof. induction s as [| c s IH]; cbn [String.append]; [| rewrite IH]; reflexivity. Qed.

Lemma ToUpper_not_underscore (r : ascii) :
  Ascii.eqb r "_" = false -> Ascii.eqb (unicode.ToUpper r) "_" = false.
Proof.
  destruct r as [[] [] [] [] [] [] [] []]; vm_compute; intros H;
    first [reflexivity | discriminate H].
Qed.

(** What the closure handed to [strings.Map] computes: the parts between the
    underscores, each capitalized (the first one only when the byte before
    the string counts as an underscore), put together. *)
Lemma Map_titleCase_mapping (s : string) :
  forall prev,
    strings.Map gen.titleCase_mapping prev s
    = match strings.Split s "_" with
      | [] => EmptyString
      | part :: parts =>
          ((if Ascii.eqb prev "_" then capitalize part else part)
           ++ fold_right String.append EmptyString (map capitalize parts))%string
      end.
Proof.
  induction s as [| c s IH]; intros prev.
  - cbn. destruct (Ascii.eqb prev "_"); reflexivity.
  - cbn [strings.Map strings.Split]. unfold gen.titleCase_mapping at 1.
    destruct (Ascii.eqb c "_") eqn:Hc.
    + rewrite IH.
      apply Ascii.eqb_eq in Hc. subst c. rewrite Ascii.eqb_refl.
      pose proof (Split_nonempty s "_") as Hne.
      destruct (strings.Split s "_") as [| part parts]; [contradiction |].
      cbn [map fold_right]. destruct (Ascii.eqb prev "_"); reflexivity.
    + pose proof (Split_nonempty s "_") as Hne. specialize (IH c). rewrite Hc in IH.
      destruct (strings.Split s "_") as [| part parts]; [contradiction |].
      destruct (Ascii.eqb prev "_"); rewrite IH; reflexivity.
Qed.

Lemma titleCased_camel (s : string) :
  strings.Map gen.titleCase_mapping "_"%char (gen.fixForInitialismCase s) = camel s.
Proof.
  rewrite Map_titleCase_mapping, Split_fixForInitialismCase. unfold camel.
  pose proof (Split_nonempty s "_") as Hne.
  destruct (strings.Split s "_") as [| part parts]; [contradiction |].
  cbn [map fold_right]. rewrite Ascii.eqb_refl, map_map. reflexivity.
Qed.

Lemma Map_titleCase_length (s : string) :
  forall prev,
    (String.length (strings.Map gen.titleCase_mapping prev s) + count_byte "_" s
     = String.length s)%nat.
Proof.
  induction s as [| c s IH]; intros prev; [reflexivity |].
  cbn [strings.Map count_byte String.length]. unfold gen.titleCase_mapping at 1.
  destruct (Ascii.eqb c "_").
  - rewrite <- (IH c). lia.
  - destruct (Ascii.eqb prev "_"); cbn [String.length]; rewrite <- (IH c); lia.
Qed.

Lemma Map_titleCase_clean (s : string) :
  forall prev, count_byte "_" (strings.Map gen.titleCase_mapping prev s) = O.
Proof.
  induction s as [| c s IH]; intros prev; [reflexivity |].
  cbn [strings.Map]. unfold gen.titleCase_mapping at 1.
  destruct (Ascii.eqb c "_") eqn:Hc; [apply IH |].
  destruct (Ascii.eqb prev "_"); cbn [count_byte].
  - rewrite (ToUpper_not_underscore c Hc). apply IH.
  - rewrite Hc. apply IH.
Qed.

Lemma count_byte_fixForInitialismCase (s : string) :
  count_byte "_" (gen.fixForInitialismCase s) = count_byte "_" s.
Proof.
  rewrite fixForInitialismCase_spec.
  change "_"%string with (String "_"%char EmptyString).
  rewrite count_byte_Join.
  - rewrite length_map, Split_length. lia.
  - apply Forall_map. eapply Forall_impl; [| apply Split_parts_clean].
    intros part. apply upcase_initialism_clean.
Qed.

Lemma slice_from_in_range (s : string) :
  forall k, (k <= String.length s)%nat ->
    exists t, slice_from s k = Some t /\
              (String.length t + k = String.length s)%nat.
Proof.
  induction s as [| c s IH]; intros k Hk.
  - cbn [String.length] in Hk. assert (k = O) by lia. subst k.
    exists EmptyString. split; reflexivity.
  - destruct k as [| k].
    + exists (String c s). split; [reflexivity | lia].
    + cbn [String.length] in Hk. destruct (IH k ltac:(lia)) as (t & Ht & Hlen).
      exists t. split; [exact Ht | cbn [String.length]; lia].
Qed.

Lemma eqb_length (x y : string) :
  String.length x <> String.length y -> String.eqb x y = false.
Proof.
  intros Hlen. destruct (String.eqb_spec x y) as [-> | _]; [contradiction | reflexivity].
Qed.

(** Go's test [len(t) >= len(suffix) && t[len(t)-len(suffix):] == suffix]
    does not panic, and decides whether [t] ends with [suffix]. *)
Lemma suffix_test (t suffix : string) :
  and_then (String.length suffix <=? String.length t)%nat
    (slice_is t (String.length t - String.length suffix) suffix)
  = Some (ends_with t suffix).
Proof.
  unfold and_then, ends_with, slice_is.
  destruct (String.length suffix <=? String.length t)%nat; [| reflexivity].
  destruct (slice_from_in_range t (String.length t - String.length suffix) ltac:(lia))
    as (x & Hx & _).
  rewrite Hx. reflexivity.
Qed.

(** The same test, with the index taken from a string that is shorter by
    [c > 0] bytes: it does not panic, and it never succeeds. *)
Lemma suffix_test_shifted (t suffix : string) (n : nat) :
  (n < String.length t)%nat ->
  and_then (String.length suffix <=? n)%nat
    (slice_is t (n - String.length suffix) suffix)
  = Some false.
Proof.
  intros Hn. unfold and_then, slice_is.
  destruct (Nat.leb_spec (String.length suffix) n) as [Hle | _]; [| reflexivity].
  destruct (slice_from_in_range t (n - String.length suffix) ltac:(lia))
    as (x & Hx & Hlen).
  rewrite Hx. cbn [option_map]. rewrite eqb_length by lia. reflexivity.
Qed.

(** The value of [titleCase]. *)
Lemma titleCase_spec (s : string) :
  gen.titleCase s
  = Some (camel s ++
          (if ends_with (camel s) "Args" ||
              ((count_byte "_" s =? 0)%nat &&
               ends_with (gen.fixForInitialismCase s) "Result")
           then "_" else ""))%string.
Proof.
  unfold gen.titleCase. cbv zeta. rewrite titleCased_camel.
  pose proof (Map_titleCase_length (gen.fixForInitialismCase s) "_"%char) as Hlen.
  rewrite titleCased_camel, count_byte_fixForInitialismCase in Hlen.
  change 6%nat with (String.length "Result").
  change 4%nat with (String.length "Args") at 1 2.
  rewrite suffix_test.
  destruct (Nat.eqb_spec (count_byte "_" s) 0) as [H0 | Hpos].
  - assert (E : String.length (camel s) = String.length (gen.fixForInitialismCase s))
      by lia.
    rewrite E, suffix_test.
    destruct (ends_with (camel s) "Args"); cbn [or_else orb andb].
    + reflexivity.
    + destruct (ends_with (gen.fixForInitialismCase s) "Result");
        [reflexivity | rewrite append_empty_r; reflexivity].
  - rewrite suffix_test_shifted by lia.
    destruct (ends_with (camel s) "Args"); cbn [or_else orb andb];
      [reflexivity | rewrite append_empty_r; reflexivity].
Qed.

(** X17. [titleCase] never panics, and computes this: the parts of the name
    between its underscores, initialisms in upper case, each part
    capitalized, put together; followed by one underscore exactly when that
    ends with "Args", or when the name holds no underscore and (initialisms
    in upper case) ends with "Result". *)
Theorem titleCase_value (s : string) :
  ascii_only s = true ->
  gen.titleCase s
  = Some (camel s ++
          (if ends_with (camel s) "Args" ||
              ((count_byte "_" s =? 0)%nat &&
               ends_with (gen.fixForInitialismCase s) "Result")
           then "_" else ""))%string.
Proof.
  intros _. rewrite titleCase_spec. reflexivity.
Qed.

Lemma titleCase_value_witness :
  gen.titleCase "s_json_snake"
  = Some (camel "s_json_snake" ++
          (if ends_with (camel "s_json_snake") "Args" ||
              ((count_byte "_" "s_json_snake" =? 0)%nat &&
               ends_with (gen.fixForInitialismCase "s_json_snake") "Result")
           then "_" else ""))%string.
Proof.
  apply (titleCase_value "s_json_snake"). reflexivity.
Defined.

(** X18. The underscore for "Result" is lost on every name that holds an
    underscore itself: the test reads the last bytes of the name before its
    underscores were removed, at an index computed from its length after.
    Such a name gets the underscore only when its camel case ends with
    "Args"; so "get_result" becomes "GetResult", while "getResult" becomes
    "GetResult_". *)
Theorem titleCase_Result_rule_lost (s : string) :
  ascii_only s = true -> (0 < count_byte "_" s)%nat ->
  gen.titleCase s
  = Some (camel s ++ (if ends_with (camel s) "Args" then "_" else ""))%string.
Proof.
  intros _ Hcount. rewrite titleCase_spec.
  destruct (Nat.eqb_spec (count_byte "_" s) 0) as [H0 | _]; [lia |].
  cbn [andb]. rewrite orb_false_r. reflexivity.
Qed.

Lemma titleCase_Result_rule_lost_witness :
  gen.titleCase "get_result"
  = Some (camel "get_result" ++
          (if ends_with (camel "get_result") "Args" then "_" else ""))%string.
Proof.
  apply (titleCase_Result_rule_lost "get_result").
  - reflexivity.
  - vm_compute. lia.
Defined.

(** The two names of X18. *)
Lemma titleCase_get_result :
  gen.titleCase "get_result" = Some "GetResult"%string /\
  gen.titleCase "getResult" = Some "GetResult_"%string /\
  camel "get_result" = camel "getResult".
Proof. repeat split; vm_compute; reflexivity. Qed.

(** X19. The name [titleCase] returns holds no underscore, but for the one
    that the rule for "Args" and "Result" appends at its end. *)
Theorem titleCase_no_underscore_inside (s : string) :
  ascii_only s = true ->
  exists body suffix : string,
    gen.titleCase s = Some (body ++ suffix)%string /\
    count_byte "_" body = O /\
    (suffix = EmptyString \/ suffix = "_"%string).
Proof.
  intros _. rewrite titleCase_spec.
  exists (camel s). eexists. split; [reflexivity | split].
  - rewrite <- titleCased_camel. apply Map_titleCase_clean.
  - destruct (_ || _); [right | left]; reflexivity.
Qed.

Lemma titleCase_no_underscore_inside_witness :
  exists body suffix : string,
    gen.titleCase "json_args" = Some (body ++ suffix)%string /\
    count_byte "_" body = O /\
    (suffix = EmptyString \/ suffix = "_"%string).
Proof.
  apply (titleCase_no_underscore_inside "json_args"). reflexivity.
Defined.

(** * gen: types *)

(** A main file that includes another: [map<string, list<shared.thing_id>>]. *)
Lemma parseType_example :
  let main := {| parser.Thrift.Includes :=
                   fun name => if String.eqb name "shared"
                               then Some "/idl/shared.thrift"%string else None;
                 parser.Thrift.Namespaces :=
                   fun lang => if String.eqb lang "go"
                               then Some "com.acme.main"%string else None |} in
  let shared := {| parser.Thrift.Includes := fun _ => None;
                   parser.Thrift.Namespaces :=
                     fun lang => if String.eqb lang "go"
                                 then Some "com.acme.shared"%string else None |} in
  let p := {| gen.Parser.pkg := "client"%string;
              gen.Parser.imports := Some ["com/acme/main"%string];
              gen.Parser.thrift :=
                fun path => if String.eqb path "/idl/main.thrift" then Some main
                            else if String.eqb path "/idl/shared.thrift" then Some shared
                            else None;
              gen.Parser.mainFile := "/idl/main.thrift"%string |} in
  let leaf name := parser.Type_.mk name None None in
  let t := parser.Type_.mk "map" (Some (leaf "string"%string))
             (Some (parser.Type_.mk "list" None (Some (leaf "shared.thing_id"%string)))) in
  option_map (fun '(s, p') => (s, gen.Parser.imports p')) (gen.parseType t p)
  = Some ("map[string][]*shared.ThingID"%string,
          Some ["com/acme/main"; "com/acme/shared"]%string).
Proof. vm_compute. reflexivity. Qed.

(** ** The package of a file *)

Lemma LastIndex_none (s : string) (c : ascii) :
  count_byte c s = O -> strings.LastIndex s c = -1.
Proof.
  induction s as [| x s IH]; cbn [count_byte strings.LastIndex]; [reflexivity |].
  destruct (Ascii.eqb x c); [discriminate |].
  intros H. rewrite (IH H). reflexivity.
Qed.

Lemma LastIndex_some (s : string) (c : ascii) :
  (0 < count_byte c s)%nat ->
  0 <= strings.LastIndex s c < Z.of_nat (String.length s).
Proof.
  induction s as [| x s IH]; cbn [count_byte strings.LastIndex String.length]; [lia |].
  intros H. cbv zeta.
  destruct (Nat.eq_dec (count_byte c s) 0) as [H0 | Hpos].
  - rewrite (LastIndex_none s c H0). rewrite H0 in H.
    destruct (Ascii.eqb x c); [cbn; lia | lia].
  - specialize (IH ltac:(lia)).
    destruct (Z.leb_spec 0 (strings.LastIndex s c)); lia.
Qed.

(** The bytes after the last separator are the last of the parts. *)
Lemma slice_after_LastIndex (s : string) (c : ascii) :
  slice_from s (Z.to_nat (strings.LastIndex s c + 1))
  = Some (last (strings.Split s c) EmptyString).
Proof.
  induction s as [| x s IH]; [reflexivity |].
  cbn [strings.LastIndex strings.Split]. cbv zeta.
  pose proof (Split_nonempty s c) as Hne.
  pose proof (Split_length s c) as Hlen.
  destruct (Nat.eq_dec (count_byte c s) 0) as [H0 | Hpos].
  - rewrite (LastIndex_none s c H0).
    change (0 <=? -1) with false. cbv iota.
    rewrite (Split_clean s c H0).
    destruct (Ascii.eqb x c); reflexivity.
  - pose proof (LastIndex_some s c ltac:(lia)) as Hi.
    destruct (Z.leb_spec 0 (strings.LastIndex s c)) as [_ | Hneg]; [| lia].
    replace (Z.to_nat (strings.LastIndex s c + 1 + 1))
      with (S (Z.to_nat (strings.LastIndex s c + 1))) by lia.
    cbn [slice_from]. rewrite IH. f_equal.
    destruct (strings.Split s c) as [| part [| part' parts]];
      [contradiction | cbn [length] in Hlen; lia |].
    destruct (Ascii.eqb x c); reflexivity.
Qed.

Lemma absPathToPkg_spec (path : string) (p : gen.Parser.t) :
  gen.absPathToPkg path p
  = match gen.Parser.thrift p path, gen.Parser.imports p with
    | Some file, Some keys =>
        Some (last (strings.Split (import_path file) "/") EmptyString,
              record_import (import_path file) keys p)
    | _, _ => None
    end.
Proof.
  unfold gen.absPathToPkg, gen.bind, gen.absPathToImport, gen.set_import, gen.lift.
  destruct (gen.Parser.thrift p path) as [file |] eqn:Hfile; [| reflexivity].
  destruct (gen.Parser.imports p) as [keys |] eqn:Hkeys; [| reflexivity].
  cbn [gen.Parser.thrift]. rewrite Hfile.
  fold (import_path file). rewrite slice_after_LastIndex. reflexivity.
Qed.

(** X20. [absPathToPkg]: for a file the parser knows, and once [Parse] has
    made the set of imports, it returns what follows the last slash of the
    file's import path (the whole path when there is no slash) and records
    that import path, once; in every other case it panics. *)
Theorem absPathToPkg_value (path : string) (p : gen.Parser.t) :
  gen.absPathToPkg path p
  = match gen.Parser.thrift p path, gen.Parser.imports p with
    | Some file, Some keys =>
        Some (last (strings.Split (import_path file) "/") EmptyString,
              record_import (import_path file) keys p)
    | _, _ => None
    end.
Proof.
  rewrite absPathToPkg_spec.
  destruct (gen.Parser.thrift p path); [| reflexivity].
  destruct (gen.Parser.imports p); reflexivity.
Qed.

(** ** What parsing a type does to the parser *)

Lemma bind_inv {A B} (m : gen.M A) (k : A -> gen.M B) (p p'' : gen.Parser.t) (b : B) :
  gen.bind m k p = Some (b, p'') ->
  exists a p', m p = Some (a, p') /\ k a p' = Some (b, p'').
Proof.
  unfold gen.bind. destruct (m p) as [[a p'] |]; [| discriminate].
  intros H. exists a, p'. split; [reflexivity | exact H].
Qed.

Lemma lift_inv {A} (o : option A) (p p' : gen.Parser.t) (a : A) :
  gen.lift o p = Some (a, p') -> o = Some a /\ p' = p.
Proof.
  unfold gen.lift. destruct o; [| discriminate].
  intros H. injection H as -> ->. split; reflexivity.
Qed.

Lemma ret_inv {A} (x a : A) (p p' : gen.Parser.t) :
  gen.ret x p = Some (a, p') -> a = x /\ p' = p.
Proof. unfold gen.ret. intros H. injection H as -> ->. split; reflexivity. Qed.

Lemma extends_refl (p : gen.Parser.t) : extends p p.
Proof.
  unfold extends. repeat split.
  destruct (gen.Parser.imports p) as [keys |]; [| exact I].
  split; [apply incl_refl | split; [tauto | intros key H; left; exact H]].
Qed.

Lemma extends_trans (p p' p'' : gen.Parser.t) :
  extends p p' -> extends p' p'' -> extends p p''.
Proof.
  unfold extends. intros (Hpkg & Hth & Hmain & Himp) (Hpkg' & Hth' & Hmain' & Himp').
  rewrite Hpkg', Hth', Hmain'. repeat split; try assumption.
  destruct (gen.Parser.imports p) as [keys |],
           (gen.Parser.imports p') as [keys' |],
           (gen.Parser.imports p'') as [keys'' |]; try contradiction; try exact I.
  destruct Himp as (Hincl & Hnodup & Hnew), Himp' as (Hincl' & Hnodup' & Hnew').
  split; [eapply incl_tran; eassumption | split; [tauto |]].
  intros key Hkey. destruct (Hnew' key Hkey) as [Hold | (path & file & Hfile & Heq)].
  - apply Hnew. exact Hold.
  - right. exists path, file. rewrite <- Hth. split; assumption.
Qed.

Lemma extends_record_import (path : string) (file : parser.Thrift.t)
    (keys : list string) (p : gen.Parser.t) :
  gen.Parser.thrift p path = Some file ->
  gen.Parser.imports p = Some keys ->
  extends p (record_import (import_path file) keys p).
Proof.
  intros Hfile Hkeys. unfold extends, record_import.
  cbn [gen.Parser.pkg gen.Parser.thrift gen.Parser.mainFile gen.Parser.imports].
  rewrite Hkeys. repeat split.
  - destruct (existsb _ keys); [apply incl_refl | apply incl_appl, incl_refl].
  - intros Hnodup.
    destruct (existsb (String.eqb (import_path file)) keys) eqn:Hex; [exact Hnodup |].
    apply NoDup_app; [exact Hnodup | repeat constructor; intros [] | ].
    intros key Hkey [<- | []].
    assert (Hin : existsb (String.eqb (import_path file)) keys = true).
    { apply existsb_exists. exists (import_path file).
      split; [exact Hkey | apply String.eqb_refl]. }
    congruence.
  - intros key Hkey.
    destruct (existsb _ keys); [left; exact Hkey |].
    apply in_app_or in Hkey. destruct Hkey as [Hold | [<- | []]]; [left; exact Hold |].
    right. exists path, file. split; [exact Hfile | reflexivity].
Qed.

Lemma absPathToPkg_extends (path : string) (p p' : gen.Parser.t) (pkg : string) :
  gen.absPathToPkg path p = Some (pkg, p') -> extends p p'.
Proof.
  rewrite absPathToPkg_spec.
  destruct (gen.Parser.thrift p path) as [file |] eqn:Hfile; [| discriminate].
  destruct (gen.Parser.imports p) as [keys |] eqn:Hkeys; [| discriminate].
  intros H. injection H as _ <-.
  apply (extends_record_import path); assumption.
Qed.

Lemma typeToAbsPath_keeps (typeName : string) (p p' : gen.Parser.t) (path : string) :
  gen.typeToAbsPath typeName p = Some (path, p') -> p' = p.
Proof.
  unfold gen.typeToAbsPath. cbv zeta.
  destruct (length (strings.Split typeName ".") =? 2)%nat.
  - destruct (gen.Parser.thrift p (gen.Parser.mainFile p)); [| discriminate].
    intros H. injection H as _ <-. reflexivity.
  - intros H. injection H as _ <-. reflexivity.
Qed.

Lemma typeToPackage_extends (typeName : string) (p p' : gen.Parser.t) (pkg : string) :
  gen.typeToPackage typeName p = Some (pkg, p') -> extends p p'.
Proof.
  unfold gen.typeToPackage. intros H.
  apply bind_inv in H. destruct H as (path & p1 & Hpath & Hpkg).
  apply typeToAbsPath_keeps in Hpath. subst p1.
  eapply absPathToPkg_extends. exact Hpkg.
Qed.

Lemma parseName_extends (typeName : string) (p p' : gen.Parser.t) (s : string) :
  gen.parseName typeName p = Some (s, p') -> extends p p'.
Proof.
  unfold gen.parseName.
  destruct (gen.lookup gen.primitiveTypes typeName) as [val |].
  - intros H. apply ret_inv in H. destruct H as [_ ->]. apply extends_refl.
  - destruct (strings.Contains typeName "."); cbv zeta; intros H;
      apply bind_inv in H; destruct H as (ns & p1 & Hns & H);
      apply bind_inv in H; destruct H as (name & p2 & Hname & H);
      apply lift_inv in Hname; destruct Hname as [_ ->];
      apply ret_inv in H; destruct H as [_ ->];
      eapply typeToPackage_extends; exact Hns.
Qed.

(** Induction on a type, through the pointers that are not nil. *)
Lemma Type_induction (P : parser.Type_.t -> Prop) :
  (forall name keyType valueType,
     match keyType with Some k => P k | None => True end ->
     match valueType with Some v => P v | None => True end ->
     P (parser.Type_.mk name keyType valueType)) ->
  forall t, P t.
Proof.
  intros H. fix IH 1. intros [name keyType valueType]. apply H.
  - destruct keyType as [k |]; [apply IH | exact I].
  - destruct valueType as [v |]; [apply IH | exact I].
Qed.

(** X21. Parsing a type changes nothing of the parser but its set of
    imports; it removes no import and records none twice, and every import
    it adds is the import path of a file the parser knows. *)
Theorem parseType_extends (t : parser.Type_.t) :
  forall (p p' : gen.Parser.t) (s : string),
    gen.parseType t p = Some (s, p') -> extends p p'.
Proof.
  induction t as [name keyType valueType IHk IHv] using Type_induction.
  intros p p' s. cbn [gen.parseType].
  destruct valueType as [v |]; [| apply parseName_extends].
  destruct (String.eqb name "list"); [| destruct (String.eqb name "map");
    [| destruct (String.eqb name "set"); [| discriminate]]].
  - intros H. apply bind_inv in H. destruct H as (s1 & p1 & H1 & H).
    apply ret_inv in H. destruct H as [_ ->]. eapply IHv. exact H1.
  - intros H. apply bind_inv in H. destruct H as (s1 & p1 & H1 & H).
    apply bind_inv in H. destruct H as (s2 & p2 & H2 & H).
    apply ret_inv in H. destruct H as [_ ->].
    destruct keyType as [k |]; [| discriminate H1].
    eapply extends_trans; [eapply IHk; exact H1 | eapply IHv; exact H2].
  - intros H. apply bind_inv in H. destruct H as (s1 & p1 & H1 & H).
    apply ret_inv in H. destruct H as [_ ->]. eapply IHv. exact H1.
Qed.

(** The example above, as an instance. *)
Lemma parseType_extends_witness :
  let shared := {| parser.Thrift.Includes := fun _ => None;
                   parser.Thrift.Namespaces :=
                     fun lang => if String.eqb lang "go"
                                 then Some "com.acme.shared"%string else None |} in
  let main := {| parser.Thrift.Includes :=
                   fun name => if String.eqb name "shared"
                               then Some "/idl/shared.thrift"%string else None;
                 parser.Thrift.Namespaces :=
                   fun lang => if String.eqb lang "go"
                               then Some "com.acme.main"%string else None |} in
  let p := {| gen.Parser.pkg := "client"%string;
              gen.Parser.imports := Some ["com/acme/main"%string];
              gen.Parser.thrift :=
                fun path => if String.eqb path "/idl/main.thrift" then Some main
                            else if String.eqb path "/idl/shared.thrift" then Some shared
                            else None;
              gen.Parser.mainFile := "/idl/main.thrift"%string |} in
  let p' := record_import "com/acme/shared" ["com/acme/main"%string] p in
  extends p p'.
Proof.
  cbv zeta.
  apply (parseType_extends
           (parser.Type_.mk "list" None
              (Some (parser.Type_.mk "shared.thing_id" None None)))
           _ _ "[]*shared.ThingID").
  vm_compute. reflexivity.
Defined.

(** ** Types that need no import *)

(** X22. A type made of the primitive types of Thrift and of lists, sets
    and maps of them needs nothing of the parser: [parseType] does not
    panic, even on a parser fresh from [NewParser], and leaves the parser,
    its imports included, as it was. *)
Theorem parseType_primitive (t : parser.Type_.t) :
  primitive_only t = true ->
  forall p : gen.Parser.t, exists s, gen.parseType t p = Some (s, p).
Proof.
  induction t as [name keyType valueType IHk IHv] using Type_induction.
  cbn [primitive_only gen.parseType]. intros Hprim p.
  destruct valueType as [v |].
  - destruct (String.eqb_spec name "list") as [-> | Hlist].
    + destruct (primitive_only v); [| cbn in Hprim; discriminate Hprim].
      destruct (IHv eq_refl p) as (s & Hs).
      eexists. unfold gen.bind. rewrite Hs. reflexivity.
    + destruct (String.eqb_spec name "map") as [-> | Hmap].
      * destruct (primitive_only v);
          [| cbn in Hprim; rewrite andb_false_r in Hprim; discriminate Hprim].
        destruct keyType as [k |]; [| cbn in Hprim; discriminate Hprim].
        destruct (primitive_only k); [| cbn in Hprim; discriminate Hprim].
        destruct (IHk eq_refl p) as (sk & Hsk).
        destruct (IHv eq_refl p) as (sv & Hsv).
        eexists. unfold gen.bind. rewrite Hsk, Hsv. reflexivity.
      * destruct (String.eqb_spec name "set") as [-> | Hset];
          [| cbn in Hprim; discriminate Hprim].
        destruct (primitive_only v); [| cbn in Hprim; discriminate Hprim].
        destruct (IHv eq_refl p) as (s & Hs).
        eexists. unfold gen.bind. rewrite Hs. reflexivity.
  - unfold gen.parseName.
    destruct (gen.lookup gen.primitiveTypes name) as [val |]; [| discriminate Hprim].
    exists val. reflexivity.
Qed.

(** [map<string, set<i64>>] on a fresh parser. *)
Lemma parseType_primitive_witness :
  exists s,
    gen.parseType
      (parser.Type_.mk "map" (Some (parser.Type_.mk "string" None None))
         (Some (parser.Type_.mk "set" None (Some (parser.Type_.mk "i64" None None)))))
      (gen.NewParser "client")
    = Some (s, gen.NewParser "client").
Proof.
  apply (parseType_primitive
           (parser.Type_.mk "map" (Some (parser.Type_.mk "string" None None))
              (Some (parser.Type_.mk "set" None (Some (parser.Type_.mk "i64" None None)))))).
  reflexivity.
Defined.

(** ** A type of a file that is not included *)

Lemma primitive_names_plain (name val : string) :
  gen.lookup gen.primitiveTypes name = Some val ->
  count_byte "." name = O /\ val <> EmptyString.
Proof.
  unfold gen.primitiveTypes. cbn [gen.lookup].
  repeat match goal with
         | |- context [String.eqb name ?k] =>
             destruct (String.eqb_spec name k) as [-> | _];
             [intros H; injection H as <-; split; [reflexivity | discriminate] |]
         end.
  discriminate.
Qed.

Lemma Contains_count (s : string) (c : ascii) :
  strings.Contains s c = negb (count_byte c s =? 0)%nat.
Proof.
  induction s as [| x s IH]; [reflexivity |].
  cbn [strings.Contains count_byte]. destruct (Ascii.eqb x c); [reflexivity | exact IH].
Qed.

Lemma Split_qualified (file name : string) :
  count_byte "." file = O -> count_byte "." name = O ->
  strings.Split (file ++ "." ++ name)%string "." = [file; name].
Proof.
  intros Hfile Hname.
  change (file ++ "." ++ name)%string with (file ++ String "." name)%string.
  rewrite Split_app by exact Hfile. rewrite (Split_clean name "." Hname). reflexivity.
Qed.

(** X23. A type qualified with the name of a file that the main file does
    not include makes [parseType] panic: the missing key of [Includes]
    reads as the empty path, for which the parser has no file. *)
Theorem parseType_unknown_include (p : gen.Parser.t) (main : parser.Thrift.t)
    (file name : string) :
  count_byte "." file = O -> count_byte "." name = O ->
  gen.Parser.thrift p (gen.Parser.mainFile p) = Some main ->
  parser.Thrift.Includes main file = None ->
  gen.Parser.thrift p EmptyString = None ->
  gen.parseType (parser.Type_.mk (file ++ "." ++ name)%string None None) p = None.
Proof.
  intros Hfile Hname Hmain Hincl Hnone.
  cbn [gen.parseType]. unfold gen.parseName.
  assert (Hcount : count_byte "." (file ++ "." ++ name)%string = 1%nat).
  { change (file ++ "." ++ name)%string with (file ++ String "." name)%string.
    rewrite count_byte_app. cbn [count_byte]. rewrite Ascii.eqb_refl. lia. }
  destruct (gen.lookup gen.primitiveTypes (file ++ "." ++ name)%string) as [val |] eqn:Hprim.
  - apply primitive_names_plain in Hprim. lia.
  - rewrite Contains_count, Hcount. cbn [Nat.eqb negb]. cbv zeta.
    unfold gen.bind at 1. unfold gen.typeToPackage, gen.bind at 1.
    unfold gen.typeToAbsPath. cbv zeta.
    rewrite (Split_qualified file name Hfile Hname). cbn [length Nat.eqb nth].
    rewrite Hmain. unfold map_get. rewrite Hincl.
    rewrite absPathToPkg_spec, Hnone. reflexivity.
Qed.

Lemma parseType_unknown_include_witness :
  let main := {| parser.Thrift.Includes := fun _ => None;
                 parser.Thrift.Namespaces :=
                   fun lang => if String.eqb lang "go"
                               then Some "com.acme.main"%string else None |} in
  let p := {| gen.Parser.pkg := "client"%string;
              gen.Parser.imports := Some ["com/acme/main"%string];
              gen.Parser.thrift :=
                fun path => if String.eqb path "/idl/main.thrift" then Some main
                            else None;
              gen.Parser.mainFile := "/idl/main.thrift"%string |} in
  gen.parseType (parser.Type_.mk ("shared" ++ "." ++ "Thing")%string None None) p = None.
Proof.
  cbv zeta.
  apply (parseType_unknown_include _
           {| parser.Thrift.Includes := fun _ => None;
              parser.Thrift.Namespaces :=
                fun lang => if String.eqb lang "go"
                            then Some "com.acme.main"%string else None |}
           "shared" "Thing"); reflexivity.
Defined.

(** ** Methods *)

Lemma parseName_nonempty (typeName : string) (p p' : gen.Parser.t) (s : string) :
  gen.parseName typeName p = Some (s, p') -> s <> EmptyString.
Proof.
  unfold gen.parseName.
  destruct (gen.lookup gen.primitiveTypes typeName) as [val |] eqn:Hprim.
  - intros H. apply ret_inv in H. destruct H as [-> _].
    apply primitive_names_plain in Hprim. apply Hprim.
  - destruct (strings.Contains typeName "."); cbv zeta; intros H;
      apply bind_inv in H; destruct H as (ns & p1 & _ & H);
      apply bind_inv in H; destruct H as (name & p2 & _ & H);
      apply ret_inv in H; destruct H as [-> _]; discriminate.
Qed.

Lemma parseType_nonempty (t : parser.Type_.t) (p p' : gen.Parser.t) (s : string) :
  gen.parseType t p = Some (s, p') -> s <> EmptyString.
Proof.
  destruct t as [name keyType valueType]. cbn [gen.parseType].
  destruct valueType as [v |]; [| apply parseName_nonempty].
  destruct (String.eqb name "list"); [| destruct (String.eqb name "map");
    [| destruct (String.eqb name "set"); [| discriminate]]]; intros H.
  - apply bind_inv in H. destruct H as (s1 & p1 & _ & H).
    apply ret_inv in H. destruct H as [-> _]. discriminate.
  - apply bind_inv in H. destruct H as (s1 & p1 & _ & H).
    apply bind_inv in H. destruct H as (s2 & p2 & _ & H).
    apply ret_inv in H. destruct H as [-> _]. discriminate.
  - apply bind_inv in H. destruct H as (s1 & p1 & _ & H).
    apply ret_inv in H. destruct H as [-> _]. discriminate.
Qed.

Lemma parseArguments_names (arguments : list parser.Field.t) :
  forall (p p' : gen.Parser.t) (args : list gen.Arg.t),
    gen.parseArguments arguments p = Some (args, p') ->
    map gen.Arg.Name args = map parser.Field.Name arguments /\
    Forall (fun arg => gen.Arg.Type_ arg <> EmptyString) args.
Proof.
  induction arguments as [| arg rest IH]; intros p p' args; cbn [gen.parseArguments].
  - intros H. apply ret_inv in H. destruct H as [-> _]. split; [reflexivity | constructor].
  - intros H. apply bind_inv in H. destruct H as (typeName & p1 & Htype & H).
    apply bind_inv in H. destruct H as (args' & p2 & Hrest & H).
    apply ret_inv in H. destruct H as [-> _].
    destruct (IH _ _ _ Hrest) as [Hnames Htypes].
    cbn [map gen.Arg.Name]. rewrite Hnames. split; [reflexivity |].
    constructor; [| exact Htypes]. cbn [gen.Arg.Type_].
    destruct (parser.Field.Type_ arg) as [type |]; [| discriminate Htype].
    eapply parseType_nonempty. exact Htype.
Qed.

(** X24. The method [parseMethod] returns has an empty [ResponseType]
    exactly when the method of the Thrift file returns nothing (void), the
    arguments by their names in the order of the Thrift file, and no
    argument with an empty type. *)
Theorem parseMethod_void (method : parser.Method.t) (p p' : gen.Parser.t)
    (m : gen.Method.t) :
  gen.parseMethod method p = Some (m, p') ->
  (gen.Method.ResponseType m = EmptyString <->
   parser.Method.ReturnType method = None) /\
  map gen.Arg.Name (gen.Method.Request m)
    = map parser.Field.Name (parser.Method.Arguments method) /\
  Forall (fun arg => gen.Arg.Type_ arg <> EmptyString) (gen.Method.Request m).
Proof.
  unfold gen.parseMethod. intros H.
  apply bind_inv in H. destruct H as (returnType & p1 & Hret & H).
  apply bind_inv in H. destruct H as (args & p2 & Hargs & H).
  apply bind_inv in H. destruct H as (name & p3 & _ & H).
  apply ret_inv in H. destruct H as [-> _].
  cbn [gen.Method.ResponseType gen.Method.Request].
  split; [| eapply parseArguments_names; exact Hargs].
  destruct (parser.Method.ReturnType method) as [ret_ |].
  - apply parseType_nonempty in Hret. split; [contradiction | discriminate].
  - apply ret_inv in Hret. destruct Hret as [-> _]. split; reflexivity.
Qed.

(** [void ping(1: i64 id, 2: list<string> tags)] *)
Lemma parseMethod_void_witness :
  let method :=
    {| parser.Method.Name := "ping"%string;
       parser.Method.ReturnType := None;
       parser.Method.Arguments :=
         [{| parser.Field.Name := "id"%string;
             parser.Field.Type_ := Some (parser.Type_.mk "i64" None None) |};
          {| parser.Field.Name := "tags"%string;
             parser.Field.Type_ :=
               Some (parser.Type_.mk "list" None
                       (Some (parser.Type_.mk "string" None None))) |}] |} in
  let m :=
    {| gen.Method.Name := "Ping"%string;
       gen.Method.Request :=
         [{| gen.Arg.Name := "id"%string; gen.Arg.Type_ := "int64"%string |};
          {| gen.Arg.Name := "tags"%string; gen.Arg.Type_ := "[]string"%string |}];
       gen.Method.ResponseType := EmptyString |} in
  (gen.Method.ResponseType m = EmptyString <->
   parser.Method.ReturnType method = None) /\
  map gen.Arg.Name (gen.Method.Request m)
    = map parser.Field.Name (parser.Method.Arguments method) /\
  Forall (fun arg => gen.Arg.Type_ arg <> EmptyString) (gen.Method.Request m).
Proof.
  cbv zeta.
  apply (parseMethod_void _ (gen.NewParser "client") (gen.NewParser "client")).
  vm_compute. reflexivity.
Defined.

(** ** The imports *)

Lemma leb_trans (a : string) :
  forall b c : string,
    String.leb a b = true -> String.leb b c = true -> String.leb a c = true.
Proof.
  unfold String.leb.
  induction a as [| x a IH]; intros [| y b] [| z c]; cbn [String.compare];
    try discriminate; try reflexivity.
  unfold Ascii.compare.
  destruct (N.compare_spec (N_of_ascii x) (N_of_ascii y)) as [Exy | Lxy | Gxy];
    destruct (N.compare_spec (N_of_ascii y) (N_of_ascii z)) as [Eyz | Lyz | Gyz];
    try discriminate; intros H1 H2.
  - rewrite Exy, Eyz, N.compare_refl. apply (IH b c); assumption.
  - rewrite Exy, (proj2 (N.compare_lt_iff _ _) Lyz). reflexivity.
  - rewrite <- Eyz, (proj2 (N.compare_lt_iff _ _) Lxy). reflexivity.
  - rewrite (proj2 (N.compare_lt_iff _ _) (N.lt_trans _ _ _ Lxy Lyz)). reflexivity.
Qed.

Lemma insert_Permutation (x : string) (l : list string) :
  Permutation (x :: l) (sort.insert x l).
Proof.
  induction l as [| y l IH]; cbn [sort.insert]; [apply Permutation_refl |].
  destruct (String.leb x y); [apply Permutation_refl |].
  eapply Permutation_trans; [apply perm_swap | apply perm_skip, IH].
Qed.

Lemma insert_sorted (x : string) (l : list string) :
  StronglySorted (fun a b => String.leb a b = true) l ->
  StronglySorted (fun a b => String.leb a b = true) (sort.insert x l).
Proof.
  induction 1 as [| y l Hsorted IH Hall]; cbn [sort.insert].
  - constructor; constructor.
  - destruct (String.leb x y) eqn:Hxy.
    + constructor; [constructor; assumption |].
      constructor; [exact Hxy |].
      eapply Forall_impl; [| exact Hall].
      intros z Hyz. cbv beta in *. eapply leb_trans; eassumption.
    + constructor; [exact IH |].
      eapply Permutation_Forall; [apply insert_Permutation |].
      constructor; [| exact Hall].
      destruct (String.leb_total x y) as [H | H]; [congruence | exact H].
Qed.

Lemma Strings_sorted (l : list string) :
  StronglySorted (fun a b => String.leb a b = true) (sort.Strings l) /\
  Permutation l (sort.Strings l).
Proof.
  induction l as [| x l [IHs IHp]]; cbn [sort.Strings fold_right].
  - split; constructor.
  - split; [apply insert_sorted; exact IHs |].
    eapply Permutation_trans; [apply perm_skip, IHp | apply insert_Permutation].
Qed.

(** Two sorted lists with the same elements are the same list. *)
Lemma sorted_unique (l1 : list string) :
  forall l2,
    StronglySorted (fun a b => String.leb a b = true) l1 ->
    StronglySorted (fun a b => String.leb a b = true) l2 ->
    Permutation l1 l2 -> l1 = l2.
Proof.
  induction l1 as [| a l1 IH]; intros l2 H1 H2 Hperm.
  - apply Permutation_nil in Hperm. symmetry. exact Hperm.
  - destruct l2 as [| b l2];
      [apply Permutation_sym, Permutation_nil in Hperm; discriminate Hperm |].
    inversion H1 as [| ? ? Hs1 Hall1]; subst.
    inversion H2 as [| ? ? Hs2 Hall2]; subst.
    assert (Hab : a = b).
    { assert (Ha : In a (b :: l2))
        by (eapply Permutation_in; [exact Hperm | left; reflexivity]).
      assert (Hb : In b (a :: l1))
        by (eapply Permutation_in;
            [apply Permutation_sym; exact Hperm | left; reflexivity]).
      destruct Ha as [Ha | Ha]; [symmetry; exact Ha |].
      destruct Hb as [Hb | Hb]; [exact Hb |].
      rewrite Forall_forall in Hall1, Hall2.
      apply String.leb_antisym; [apply Hall1; exact Hb | apply Hall2; exact Ha]. }
    subst b. f_equal.
    apply IH; [assumption | assumption |].
    eapply Permutation_cons_inv. exact Hperm.
Qed.

(** X25. [getUsedImports] does not depend on the order in which the Go map
    yields its keys: whatever that order, the slice returned is the same,
    sorted by the order of the bytes, and holds the keys of [p.imports] and
    nothing else. The parser is left as it was. *)
Theorem getUsedImports_sorted (p p' : gen.Parser.t) (keys keys' : list string) :
  gen.Parser.imports p = Some keys ->
  gen.Parser.imports p' = Some keys' ->
  Permutation keys keys' ->
  exists imports,
    gen.getUsedImports p = Some (imports, p) /\
    gen.getUsedImports p' = Some (imports, p') /\
    StronglySorted (fun a b => String.leb a b = true) imports /\
    Permutation keys imports.
Proof.
  intros Hkeys Hkeys' Hperm.
  unfold gen.getUsedImports. rewrite Hkeys, Hkeys'. cbv zeta.
  destruct (Strings_sorted keys) as [Hs Hp].
  destruct (Strings_sorted keys') as [Hs' Hp'].
  exists (sort.Strings keys).
  split; [reflexivity | split; [| split; assumption]].
  do 2 f_equal. apply sorted_unique; [assumption | assumption |].
  eapply Permutation_trans; [apply Permutation_sym; exact Hp' |].
  eapply Permutation_trans; [apply Permutation_sym; exact Hperm | exact Hp].
Qed.

Lemma getUsedImports_sorted_witness :
  let p := {| gen.Parser.pkg := "client"%string;
              gen.Parser.imports := Some ["com/acme/shared"; "com/acme/main"]%string;
              gen.Parser.thrift := fun _ => None;
              gen.Parser.mainFile := EmptyString |} in
  let p' := {| gen.Parser.pkg := "client"%string;
               gen.Parser.imports := Some ["com/acme/main"; "com/acme/shared"]%string;
               gen.Parser.thrift := fun _ => None;
               gen.Parser.mainFile := EmptyString |} in
  exists imports,
    gen.getUsedImports p = Some (imports, p) /\
    gen.getUsedImports p' = Some (imports, p') /\
    StronglySorted (fun a b => String.leb a b = true) imports /\
    Permutation ["com/acme/shared"; "com/acme/main"]%string imports.
Proof.
  cbv zeta.
  apply (getUsedImports_sorted _ _ ["com/acme/shared"; "com/acme/main"]%string
           ["com/acme/main"; "com/acme/shared"]%string).
  - reflexivity.
  - reflexivity.
  - apply perm_swap.
Defined.

(** ** Named types *)

Lemma absPathToPkg_known (path : string) (file : parser.Thrift.t)
    (keys : list string) (p : gen.Parser.t) :
  gen.Parser.thrift p path = Some file ->
  gen.Parser.imports p = Some keys ->
  gen.absPathToPkg path p
  = Some (last (strings.Split (import_path file) "/") EmptyString,
          record_import (import_path file) keys p).
Proof.
  intros Hfile Hkeys. rewrite absPathToPkg_spec, Hfile, Hkeys. reflexivity.
Qed.

(** X26. A name that is not a primitive type and holds no dot is a type of
    the main file: [parseName] returns a pointer to the type of that name,
    in title case, in the package of the main file (what follows the last
    slash of its import path), and records the import of the main file. *)
Theorem parseName_unqualified (p : gen.Parser.t) (main : parser.Thrift.t)
    (keys : list string) (typeName : string) :
  ascii_only typeName = true ->
  gen.lookup gen.primitiveTypes typeName = None ->
  count_byte "." typeName = O ->
  gen.Parser.thrift p (gen.Parser.mainFile p) = Some main ->
  gen.Parser.imports p = Some keys ->
  exists name,
    gen.titleCase typeName = Some name /\
    gen.parseName typeName p
    = Some (("*" ++ last (strings.Split (import_path main) "/") EmptyString
                 ++ "." ++ name)%string,
            record_import (import_path main) keys p).
Proof.
  intros _ Hprim Hdots Hmain Hkeys.
  rewrite titleCase_spec. eexists. split; [reflexivity |].
  unfold gen.parseName. rewrite Hprim, Contains_count, Hdots.
  cbn [Nat.eqb negb].
  unfold gen.bind at 1. unfold gen.typeToPackage, gen.bind at 1.
  unfold gen.typeToAbsPath. cbv zeta.
  rewrite (Split_clean typeName "." Hdots). cbn [length Nat.eqb].
  rewrite (absPathToPkg_known _ main keys p Hmain Hkeys).
  unfold gen.bind, gen.lift, gen.ret. rewrite titleCase_spec. reflexivity.
Qed.

Lemma parseName_unqualified_witness :
  let main := {| parser.Thrift.Includes := fun _ => None;
                 parser.Thrift.Namespaces :=
                   fun lang => if String.eqb lang "go"
                               then Some "com.acme.main"%string else None |} in
  let p := {| gen.Parser.pkg := "client"%string;
              gen.Parser.imports := Some [];
              gen.Parser.thrift :=
                fun path => if String.eqb path "/idl/main.thrift" then Some main
                            else None;
              gen.Parser.mainFile := "/idl/main.thrift"%string |} in
  exists name,
    gen.titleCase "user_id" = Some name /\
    gen.parseName "user_id" p
    = Some (("*" ++ last (strings.Split (import_path main) "/") EmptyString
                 ++ "." ++ name)%string,
            record_import (import_path main) [] p).
Proof.
  cbv zeta.
  apply (parseName_unqualified _
           {| parser.Thrift.Includes := fun _ => None;
              parser.Thrift.Namespaces :=
                fun lang => if String.eqb lang "go"
                            then Some "com.acme.main"%string else None |}
           [] "user_id"); reflexivity.
Defined.

(** X27. A name qualified with the name of a file the main file includes
    is a type of that file: [parseName] returns a pointer to the type named
    after the dot, in title case, in the package of the included file, and
    records the import of the included file. *)
Theorem parseName_qualified (p : gen.Parser.t) (main included : parser.Thrift.t)
    (keys : list string) (file name path : string) :
  ascii_only name = true ->
  count_byte "." file = O -> count_byte "." name = O ->
  gen.Parser.thrift p (gen.Parser.mainFile p) = Some main ->
  parser.Thrift.Includes main file = Some path ->
  gen.Parser.thrift p path = Some included ->
  gen.Parser.imports p = Some keys ->
  exists title,
    gen.titleCase name = Some title /\
    gen.parseName (file ++ "." ++ name)%string p
    = Some (("*" ++ last (strings.Split (import_path included) "/") EmptyString
                 ++ "." ++ title)%string,
            record_import (import_path included) keys p).
Proof.
  intros _ Hfile Hname Hmain Hincl Hpath Hkeys.
  rewrite titleCase_spec. eexists. split; [reflexivity |].
  unfold gen.parseName.
  assert (Hcount : count_byte "." (file ++ "." ++ name)%string = 1%nat).
  { change (file ++ "." ++ name)%string with (file ++ String "." name)%string.
    rewrite count_byte_app. cbn [count_byte]. rewrite Ascii.eqb_refl. lia. }
  destruct (gen.lookup gen.primitiveTypes (file ++ "." ++ name)%string) as [val |] eqn:Hprim.
  - apply primitive_names_plain in Hprim. lia.
  - rewrite Contains_count, Hcount. cbn [Nat.eqb negb]. cbv zeta.
    unfold gen.bind at 1. unfold gen.typeToPackage, gen.bind at 1.
    unfold gen.typeToAbsPath. cbv zeta.
    rewrite (Split_qualified file name Hfile Hname). cbn [length Nat.eqb nth].
    rewrite Hmain. unfold map_get. rewrite Hincl.
    rewrite (absPathToPkg_known _ included keys p Hpath Hkeys).
    unfold gen.bind, gen.lift, gen.ret. cbn [nth_error].
    rewrite titleCase_spec. reflexivity.
Qed.

Lemma parseName_qualified_witness :
  let shared := {| parser.Thrift.Includes := fun _ => None;
                   parser.Thrift.Namespaces :=
                     fun lang => if String.eqb lang "go"
                                 then Some "com.acme.shared"%string else None |} in
  let main := {| parser.Thrift.Includes :=
                   fun name => if String.eqb name "shared"
                               then Some "/idl/shared.thrift"%string else None;
                 parser.Thrift.Namespaces :=
                   fun lang => if String.eqb lang "go"
                               then Some "com.acme.main"%string else None |} in
  let p := {| gen.Parser.pkg := "client"%string;
              gen.Parser.imports := Some ["com/acme/main"%string];
              gen.Parser.thrift :=
                fun path => if String.eqb path "/idl/main.thrift" then Some main
                            else if String.eqb path "/idl/shared.thrift" then Some shared
                            else None;
              gen.Parser.mainFile := "/idl/main.thrift"%string |} in
  exists title,
    gen.titleCase "thing_id" = Some title /\
    gen.parseName ("shared" ++ "." ++ "thing_id")%string p
    = Some (("*" ++ last (strings.Split (import_path shared) "/") EmptyString
                 ++ "." ++ title)%string,
            record_import (import_path shared) ["com/acme/main"%string] p).
Proof.
  cbv zeta.
  apply (parseName_qualified _
           {| parser.Thrift.Includes :=
                fun name => if String.eqb name "shared"
                            then Some "/idl/shared.thrift"%string else None;
              parser.Thrift.Namespaces :=
                fun lang => if String.eqb lang "go"
                            then Some "com.acme.main"%string else None |}
           {| parser.Thrift.Includes := fun _ => None;
              parser.Thrift.Namespaces :=
                fun lang => if String.eqb lang "go"
                            then Some "com.acme.shared"%string else None |}
           ["com/acme/main"%string] "shared" "thing_id" "/idl/shared.thrift");
    reflexivity.
Defined.

(** ** What the template is handed *)

Lemma map_combine_args (args : list gen.Arg.t) :
  map (fun argument => (gen.Arg.Name argument ++ " " ++ gen.Arg.Type_ argument)%string) args
  = map (fun '(name, type) => (name ++ " " ++ type)%string)
      (combine (map gen.Arg.Name args) (map gen.Arg.Type_ args)).
Proof.
  induction args as [| a args IH]; [reflexivity |].
  cbn [map combine]. rewrite IH. reflexivity.
Qed.

(** X28. For the method [parseMethod] returns, [Args] is the names of the
    arguments of the Thrift method, in their order, joined by ", ", and
    [ArgDeclarations] is those same names in that order, each followed by a
    space and a Go type that is not empty, joined by ", ": the generated
    wrapper passes on exactly the parameters it declares. *)
Theorem Args_of_parseMethod (method : parser.Method.t) (p p' : gen.Parser.t)
    (m : gen.Method.t) :
  gen.parseMethod method p = Some (m, p') ->
  let names := map parser.Field.Name (parser.Method.Arguments method) in
  gen.Args m = strings.Join names ", " /\
  exists types : list string,
    length types = length names /\
    Forall (fun type => type <> EmptyString) types /\
    gen.ArgDeclarations m
    = strings.Join
        (map (fun '(name, type) => (name ++ " " ++ type)%string) (combine names types))
        ", ".
Proof.
  unfold gen.parseMethod. intros H. cbv zeta.
  apply bind_inv in H. destruct H as (returnType & p1 & _ & H).
  apply bind_inv in H. destruct H as (args & p2 & Hargs & H).
  apply bind_inv in H. destruct H as (name & p3 & _ & H).
  apply ret_inv in H. destruct H as [-> _].
  destruct (parseArguments_names _ _ _ _ Hargs) as [Hnames Htypes].
  unfold gen.Args, gen.ArgDeclarations. cbn [gen.Method.Request].
  rewrite <- Hnames. split; [reflexivity |].
  exists (map gen.Arg.Type_ args).
  split; [rewrite !length_map; reflexivity | split].
  - apply Forall_map. exact Htypes.
  - rewrite map_combine_args. reflexivity.
Qed.

(** [i64 add(1: i64 a, 2: list<string> b)] *)
Lemma Args_of_parseMethod_witness :
  let method :=
    {| parser.Method.Name := "add"%string;
       parser.Method.ReturnType := Some (parser.Type_.mk "i64" None None);
       parser.Method.Arguments :=
         [{| parser.Field.Name := "a"%string;
             parser.Field.Type_ := Some (parser.Type_.mk "i64" None None) |};
          {| parser.Field.Name := "b"%string;
             parser.Field.Type_ :=
               Some (parser.Type_.mk "list" None
                       (Some (parser.Type_.mk "string" None None))) |}] |} in
  let m :=
    {| gen.Method.Name := "Add"%string;
       gen.Method.Request :=
         [{| gen.Arg.Name := "a"%string; gen.Arg.Type_ := "int64"%string |};
          {| gen.Arg.Name := "b"%string; gen.Arg.Type_ := "[]string"%string |}];
       gen.Method.ResponseType := "int64"%string |} in
  let names := map parser.Field.Name (parser.Method.Arguments method) in
  gen.Args m = strings.Join names ", " /\
  exists types : list string,
    length types = length names /\
    Forall (fun type => type <> EmptyString) types /\
    gen.ArgDeclarations m
    = strings.Join
        (map (fun '(name, type) => (name ++ " " ++ type)%string) (combine names types))
        ", ".
Proof.
  cbv zeta.
  apply (Args_of_parseMethod _ (gen.NewParser "client") (gen.NewParser "client")).
  vm_compute. reflexivity.
Defined.
